(** * neurite generators: patch extraction and batching

    A shallow embedding of [neuron/generators.py]: the loader
    [_load_medical_volume], the preparation step [_categorical_prep], the
    resumable generator [patch] and the file-cycling generator [vol],
    followed by the properties of the batching engine. *)

From Stdlib Require Import String Ascii DecimalString Floats.
From Stdlib Require Import ZArith Lia Bool Arith PeanoNat List.
From Stdlib Require Import Sorted Permutation.
Import ListNotations.

Local Open Scope string_scope.
Local Open Scope list_scope.
Local Open Scope Z_scope.

(** ** Python values the generators exchange *)

(** The exceptions the code raises or lets through. *)
Inductive PyExc : Type :=
| AssertionError (msg : string)
| ValueError (args : list string)
| Exception_ (msg : string)
| IndexError
| KeyError (key : string)
| TypeError
| UnboundLocalError (name : string)
| AttributeError (name : string)
| IOError_ (msg : string).

(** A fallible computation: [inl] is a raised exception. *)
Definition Result (X : Type) : Type := (PyExc + X)%type.

Definition ok {X} (x : X) : Result X := inr x.
Definition raise {X} (e : PyExc) : Result X := inl e.

Definition bind {X Y} (r : Result X) (k : X -> Result Y) : Result Y :=
  match r with
  | inl e => inl e
  | inr x => k x
  end.

Notation "x <- r ;; k" := (bind r (fun x => k))
  (at level 61, r at next level, right associativity).

(** [np.mod] on integers: the sign follows the divisor, and a zero divisor
    gives 0 (with a warning) instead of raising. *)
Definition np_mod (a b : Z) : Z := if b =? 0 then 0 else a mod b.

(** [lst[i]] on a Python list: a negative index counts from the end, an index
    out of range raises [IndexError]. *)
Definition py_index {X} (l : list X) (i : Z) : Result X :=
  let n := Z.of_nat (length l) in
  let j := if i <? 0 then i + n else i in
  if (j <? 0) || (n <=? j) then raise IndexError
  else match nth_error l (Z.to_nat j) with
       | Some x => ok x
       | None => raise IndexError
       end.

(** ['%s' % n] for an integer. *)
Definition str_of_Z (z : Z) : string := NilZero.string_of_int (Z.to_int z).

(** ** n-dimensional arrays

    A numpy array is its shape and its samples in row-major order. *)
Section NDArray.
Context {A : Type}.

Record ndarray : Type := mk_ndarray {
  shape : list nat;
  data : list A
}.

Definition ndim (a : ndarray) : nat := length (shape a).

(** [np.prod] of a shape. *)
Definition prod_shape (s : list nat) : nat := fold_right Nat.mul 1%nat s.

(** [a.shape[0]]: the realized size of a batch. *)
Definition realized_size (a : ndarray) : nat := hd 0%nat (shape a).

(** [np.expand_dims(a, axis=0)] *)
Definition expand_dims_first (a : ndarray) : ndarray :=
  mk_ndarray (1%nat :: shape a) (data a).

(** [np.expand_dims(a, axis=-1)] *)
Definition expand_dims_last (a : ndarray) : ndarray :=
  mk_ndarray (shape a ++ [1%nat]) (data a).

Fixpoint remove_axis (s : list nat) (ax : nat) : list nat :=
  match s, ax with
  | [], _ => []
  | _ :: s', O => s'
  | d :: s', S ax' => d :: remove_axis s' ax'
  end.

(** [np.squeeze(a, axis)]: the axis must have length one. *)
Definition squeeze (a : ndarray) (ax : nat) : Result ndarray :=
  match nth_error (shape a) ax with
  | Some 1%nat => ok (mk_ndarray (remove_axis (shape a) ax) (data a))
  | _ => raise (ValueError ["cannot select an axis to squeeze out which has size not equal to one"])
  end.

(** [np.reshape(a, s)]: the number of samples must agree. *)
Definition reshape (a : ndarray) (s : list nat) : Result ndarray :=
  if Nat.eqb (prod_shape s) (length (data a))
  then ok (mk_ndarray s (data a))
  else raise (ValueError ["cannot reshape array"]).

(** [np.vstack([a, b])]: in row-major order the rows of [b] follow the rows
    of [a].  (numpy refuses operands whose trailing shapes differ; every
    array stacked by one generator is cut with one patch size and prepared
    the same way, so that case is left out.) *)
Definition vstack (a b : ndarray) : ndarray :=
  mk_ndarray ((realized_size a + realized_size b)%nat :: tl (shape a))
             (data a ++ data b).

(** Rows of length [n] of a flat list. *)
Fixpoint rows (fuel n : nat) (l : list A) : list (list A) :=
  match fuel with
  | O => []
  | S f => match l with
           | [] => []
           | _ => firstn n l :: rows f n (skipn n l)
           end
  end.

Fixpoint interleave (ra rb : list (list A)) : list A :=
  match ra, rb with
  | x :: ra', y :: rb' => x ++ y ++ interleave ra' rb'
  | _, _ => []
  end.

(** [np.concatenate([a, b], np.ndim(b) - 1)]: along the last axis, so each
    last-axis row of [a] is followed by the matching row of [b].  (As for
    [vstack], operands of one generator agree on the other axes.) *)
Definition concatenate_last (a b : ndarray) : ndarray :=
  let la := last (shape a) 1%nat in
  let lb := last (shape b) 1%nat in
  mk_ndarray (removelast (shape a) ++ [(la + lb)%nat])
             (interleave (rows (length (data a)) la (data a))
                         (rows (length (data b)) lb (data b))).

(** ** pytools.patchlib *)

(** [patch_stride] is the scalar [1] by default and a list per axis
    otherwise. *)
Inductive Stride : Type :=
| StrideScalar (s : nat)
| StrideAxes (s : list nat).

Definition stride_at (st : Stride) (i : nat) : nat :=
  match st with
  | StrideScalar s => s
  | StrideAxes l => nth i l 1%nat
  end.

(** Modelled from the spec: [pytools.patchlib] is imported by
    [generators.py] but is not among the sources.  Per axis the offsets are
    [0, stride, 2*stride, ...] up to the last [o] with
    [o + patch <= volume]; an axis whose patch is larger than the volume
    has no offset. *)
Definition axis_offsets (v p s : nat) : list nat :=
  if (p <=? v)%nat
  then map (fun k => (k * s)%nat) (seq 0 ((v - p) / s + 1))
  else [].

(** Modelled from the spec: [pl.gridsize], the number of offsets on each
    axis, [floor((V_i - P_i) / S_i) + 1], and 0 where [P_i > V_i]. *)
Fixpoint gridsize_from (i : nat) (vsh psz : list nat) (st : Stride) : list nat :=
  match vsh, psz with
  | v :: vsh', p :: psz' =>
      length (axis_offsets v p (stride_at st i)) :: gridsize_from (S i) vsh' psz' st
  | _, _ => []
  end.

(** Modelled from the spec: [pl.gridsize(vol_shape, patch_size, stride)]. *)
Definition gridsize (vsh psz : list nat) (st : Stride) : list nat :=
  gridsize_from 0 vsh psz st.

(** Modelled from the spec: the grid of patch origins, the Cartesian
    product of the per-axis offsets in row-major order (last axis
    fastest). *)
Fixpoint grid_from (i : nat) (vsh psz : list nat) (st : Stride) : list (list nat) :=
  match vsh, psz with
  | v :: vsh', p :: psz' =>
      flat_map (fun o => map (cons o) (grid_from (S i) vsh' psz' st))
               (axis_offsets v p (stride_at st i))
  | _, _ => [[]]
  end.

(** Modelled from the spec: the grid of a volume, from axis 0. *)
Definition patch_grid (vsh psz : list nat) (st : Stride) : list (list nat) :=
  grid_from 0 vsh psz st.

(** Modelled from the spec: a patch is the sub-array of shape [psz] at the
    origin [off]; these are its samples in row-major order. *)
Fixpoint extract (vsh off psz : list nat) (d : list A) : list A :=
  match vsh, off, psz with
  | _ :: vsh', o :: off', p :: psz' =>
      let inner := prod_shape vsh' in
      flat_map (fun i => extract vsh' off' psz' (firstn inner (skipn (i * inner) d)))
               (seq o p)
  | _, _, _ => d
  end.

(** Modelled from the spec: [pl.patch_gen(vol_data, patch_size, stride)],
    the patches of the grid in grid order. *)
Definition patch_gen (vol_data : ndarray) (psz : list nat) (st : Stride)
  : list ndarray :=
  map (fun off => mk_ndarray psz (extract (shape vol_data) off psz (data vol_data)))
      (patch_grid (shape vol_data) psz st).

End NDArray.

Arguments ndarray A : clear implicits.

(** ** External collaborators *)

(** What [np.load] hands back: an array for a [.npy] file, an archive of
    named arrays for a [.npz] file. *)
Inductive NpFile (A : Type) : Type :=
| NpArray (a : ndarray A)
| NpArchive (entries : list (string * ndarray A)).
Arguments NpArray {A} a.
Arguments NpArchive {A} entries.

(** The libraries and the file system the generators call into:
    [keras.utils.np_utils.to_categorical]; [np.isnan] and [np.isfinite] on one
    sample; equality of samples and the conversion of an index to a sample
    (for the masked assignment of the relabelling); the readers [np.load] and
    [nib.load(...).get_data()]; [os.listdir] and the seeded
    [np.random.permutation]. *)
Class Externals (A : Type) : Type := {
  to_categorical : ndarray A -> Z -> ndarray A;
  isnan : A -> bool;
  isfinite : A -> bool;
  sample_eqb : A -> A -> bool;
  sample_of_nat : nat -> A;
  np_load : string -> Result (NpFile A);
  nib_load : string -> Result (ndarray A);
  os_listdir : string -> list string;
  np_random_permutation : Z -> list string -> list string
}.

(** What resuming a generator gives: a yielded value (the handshake of
    [patch] yields [None]) with the suspended generator, a raised exception,
    or the end of the iteration. *)
Inductive Outcome (A G : Type) : Type :=
| Yielded (v : option (ndarray A)) (g : G)
| Raised (e : PyExc)
| Stopped.
Arguments Yielded {A G} v g.
Arguments Raised {A G} e.
Arguments Stopped {A G}.

(** ** The generators of [neuron/generators.py] *)
Section Generators.
Context {A : Type} `{Ext : Externals A}.

Fixpoint archive_get (entries : list (string * ndarray A)) (k : string)
  : Result (NpFile A) :=
  match entries with
  | [] => raise (KeyError k)
  | (k', a) :: rest => if String.eqb k' k then ok (NpArray a) else archive_get rest k
  end.

(** [_load_medical_volume(filename, ext)].  The [timer.Timer] context only
    measures time. *)
Definition _load_medical_volume (filename ext : string) : Result (NpFile A) :=
  if String.eqb ext ".npz" then
    vol_file <- np_load filename ;;
    match vol_file with
    | NpArchive entries => archive_get entries "vol_data"
    | NpArray _ => raise IndexError
    end
  else if String.eqb ext "npy" then
    np_load filename
  else if String.eqb ext ".mgz" || String.eqb ext ".nii" || String.eqb ext ".nii.gz" then
    vol_med <- nib_load filename ;;
    ok (NpArray vol_med)
  else
    raise (ValueError [("Unexpected extension " ++ ext)%string]).

(** Using the loaded value as an array ([vol_data.shape], indexing). *)
Definition as_array (f : NpFile A) : Result (ndarray A) :=
  match f with
  | NpArray a => ok a
  | NpArchive _ => raise (AttributeError "shape")
  end.

(** [_categorical_prep(vol_data, nb_labels_reshape, keep_vol_size, patch_size)] *)
Definition _categorical_prep (vol_data : ndarray A) (nb_labels_reshape : Z)
           (keep_vol_size : bool) (patch_size : list nat) : Result (ndarray A) :=
  lpatch <-
    (if 1 <? nb_labels_reshape then
       let lpatch := to_categorical vol_data nb_labels_reshape in
       if keep_vol_size
       then reshape lpatch (patch_size ++ [Z.to_nat nb_labels_reshape])
       else ok lpatch
     else if nb_labels_reshape =? 1 then
       ok (expand_dims_last vol_data)
     else if nb_labels_reshape =? 0 then
       ok vol_data
     else raise (AssertionError "")) ;;
  ok (expand_dims_first lpatch).

(** *** [patch]: a resumable generator *)

Record PatchArgs : Type := mk_PatchArgs {
  pa_vol_data : ndarray A;
  pa_patch_size : option (list nat);
  pa_patch_stride : Stride;
  pa_nb_labels_reshape : Z;
  pa_keep_vol_size : bool;
  pa_batch_size : Z;
  pa_collapse_2d : option nat;
  pa_variable_batch_size : bool;
  pa_infinite : bool
}.

(** Where the generator is suspended: not started, at the handshake
    [batch_size = yield], at the [yield] inside the [for] loop (with the
    patches [gen] has not produced yet), at the trailing [yield] of the
    finite mode, or finished. *)
Inductive PatchPC : Type :=
| PcStart
| PcHandshake
| PcLoop (rest : list (ndarray A))
| PcFinal
| PcDone.

(** The local variables of a suspended [patch].  [pg_batch_size] is [None]
    when the consumer resumed a negotiated stream without a value. *)
Record PatchGen : Type := mk_PatchGen {
  pg_args : PatchArgs;
  pg_pc : PatchPC;
  pg_batch_size : option Z;
  pg_batch_idx : Z;
  pg_patch_data_batch : option (ndarray A)
}.

Definition patch (args : PatchArgs) : PatchGen :=
  mk_PatchGen args PcStart (Some (pa_batch_size args)) (-1) None.

(** [patch_size = vol_data.shape if patch_size is None else patch_size] *)
Definition eff_patch_size (args : PatchArgs) : list nat :=
  match pa_patch_size args with
  | None => shape (pa_vol_data args)
  | Some ps => ps
  end.

Inductive ForResult : Type :=
| ForYield (b : ndarray A) (g : PatchGen)
| ForRaised (e : PyExc)
| ForDone (g : PatchGen).

(** The body of [for lpatch in gen] up to the [yield]. *)
Definition prep_patch (args : PatchArgs) (raw : ndarray A) : Result (ndarray A) :=
  lpatch <- match pa_collapse_2d args with
            | Some ax => squeeze raw ax
            | None => ok raw
            end ;;
  _categorical_prep lpatch (pa_nb_labels_reshape args) (pa_keep_vol_size args)
                    (eff_patch_size args).

(** [for lpatch in gen: ...] over the patches still to come. *)
Fixpoint patch_for (g : PatchGen) (rest : list (ndarray A)) : ForResult :=
  match rest with
  | [] => ForDone g
  | raw :: rest' =>
      match prep_patch (pg_args g) raw with
      | inl e => ForRaised e
      | inr lpatch =>
          let stacked :=
            if pg_batch_idx g =? -1 then ok lpatch
            else match pg_patch_data_batch g with
                 | Some b => ok (vstack b lpatch)
                 | None => raise (UnboundLocalError "patch_data_batch")
                 end in
          match stacked with
          | inl e => ForRaised e
          | inr patch_data_batch =>
              let batch_idx := pg_batch_idx g + 1 in
              match pg_batch_size g with
              | None => ForRaised TypeError
              | Some batch_size =>
                  if batch_idx =? batch_size - 1 then
                    ForYield patch_data_batch
                             (mk_PatchGen (pg_args g) (PcLoop rest') (pg_batch_size g)
                                          (-1) (Some patch_data_batch))
                  else
                    patch_for (mk_PatchGen (pg_args g) (pg_pc g) (pg_batch_size g)
                                           batch_idx (Some patch_data_batch)) rest'
              end
          end
      end
  end.

Definition is_nil {X} (l : list X) : bool :=
  match l with [] => true | _ => false end.

Definition new_gen (args : PatchArgs) : list (ndarray A) :=
  patch_gen (pa_vol_data args) (eff_patch_size args) (pa_patch_stride args).

(** [while True: ...], entered with the rest of the current pass of [gen].
    A pass that ends without a [yield] in infinite mode starts the next
    pass, which costs one unit of [fuel]; [None] is fuel exhausted. *)
Fixpoint patch_while (fuel : nat) (g : PatchGen) (rest : list (ndarray A))
         (empty_gen : bool) : option (Outcome A PatchGen) :=
  match patch_for g rest with
  | ForYield b g' => Some (Yielded (Some b) g')
  | ForRaised e => Some (Raised e)
  | ForDone g' =>
      if empty_gen then Some (Raised (Exception_ "generator was empty"))
      else if negb (pa_infinite (pg_args g')) then
        if 0 <=? pg_batch_idx g' then
          match pg_patch_data_batch g' with
          | Some b => Some (Yielded (Some b)
                              (mk_PatchGen (pg_args g') PcFinal (pg_batch_size g')
                                           (pg_batch_idx g') (pg_patch_data_batch g')))
          | None => Some (Raised (UnboundLocalError "patch_data_batch"))
          end
        else Some Stopped
      else
        match fuel with
        | O => None
        | S f => let gen := new_gen (pg_args g') in
                 patch_while f g' gen (is_nil gen)
        end
  end.

Definition set_batch_size (g : PatchGen) (sent : option Z) : PatchGen :=
  mk_PatchGen (pg_args g) (pg_pc g) sent (pg_batch_idx g) (pg_patch_data_batch g).

(** [gen.send(sent)]; [next(gen)] is [gen.send(None)]. *)
Definition patch_send (fuel : nat) (sent : option Z) (g : PatchGen)
  : option (Outcome A PatchGen) :=
  let args := pg_args g in
  match pg_pc g with
  | PcStart =>
      match sent with
      | Some _ => Some (Raised TypeError)
      | None =>
          if negb (1 <=? pa_batch_size args)
          then Some (Raised (AssertionError "batch_size should be at least 1"))
          else if pa_variable_batch_size args
          then Some (Yielded None (mk_PatchGen args PcHandshake (pg_batch_size g)
                                               (pg_batch_idx g) (pg_patch_data_batch g)))
          else let gen := new_gen args in patch_while fuel g gen (is_nil gen)
      end
  | PcHandshake =>
      let gen := new_gen args in
      patch_while fuel (set_batch_size g sent) gen (is_nil gen)
  | PcLoop rest =>
      let g' := if pa_variable_batch_size args then set_batch_size g sent else g in
      patch_while fuel g' rest false
  | PcFinal => Some Stopped
  | PcDone => Some Stopped
  end.

(** [for item in gen]: the items until the generator stops ([None]) or
    raises. *)
Fixpoint gen_drain (fuel : nat) (g : PatchGen)
  : option (list (option (ndarray A)) * option PyExc) :=
  match fuel with
  | O => None
  | S f =>
      match patch_send f None g with
      | None => None
      | Some (Yielded v g') =>
          match gen_drain f g' with
          | None => None
          | Some (items, stop) => Some (v :: items, stop)
          end
      | Some (Raised e) => Some ([], Some e)
      | Some Stopped => Some ([], None)
      end
  end.

(** *** [_get_file_list] *)

Definition endswith (f suffix : string) : bool :=
  let n := String.length f in
  let m := String.length suffix in
  (m <=? n)%nat && String.eqb (substring (n - m) m f) suffix.

Fixpoint insert_sorted (x : string) (l : list string) : list string :=
  match l with
  | [] => [x]
  | y :: l' => if String.leb x y then x :: l else y :: insert_sorted x l'
  end.

(** [sorted(names)] *)
Definition sorted (l : list string) : list string :=
  fold_right insert_sorted [] l.

Definition _get_file_list (volpath : string) (ext : option string)
           (rand_seed_vol : option Z) : list string :=
  let files := filter (fun f => match ext with
                                | None => true
                                | Some e => endswith f e
                                end)
                      (sorted (os_listdir volpath)) in
  match rand_seed_vol with
  | Some seed => np_random_permutation seed files
  | None => files
  end.

(** [os.path.join(volpath, name)] *)
Definition path_join (volpath name : string) : string :=
  (volpath ++ "/" ++ name)%string.

(** *** [vol] *)

(** The arguments of [vol] that reach its body.  [expected_files] and
    [verbose] only print; [extract_slice] and [force_binary] are not
    used.  A given [patch_size] has an integer on every axis ([None] entries
    are handed to the absent [patchlib] and are left out). *)
Record VolArgs : Type := mk_VolArgs {
  va_volpath : string;
  va_ext : string;
  va_batch_size : Z;
  va_expected_nb_files : Z;
  va_data_proc_fn : option (ndarray A -> ndarray A);
  va_relabel : option (list A);
  va_nb_labels_reshape : Z;
  va_keep_vol_size : bool;
  va_name : string;
  va_nb_restart_cycle : option Z;
  va_patch_size : option (list nat);
  va_patch_stride : Stride;
  va_collapse_2d : option nat;
  va_nb_feats : Z;
  va_rand_seed_vol : option Z;
  va_yield_incomplete_final_batch : bool
}.

(** The local variables that live across iterations of [while 1]. *)
Record VolVars : Type := mk_VolVars {
  vv_fileidx : Z;
  vv_batch_idx : Z;
  vv_feat_idx : Z;
  vv_patch_size : option (list nat);
  vv_patch_stride : Stride;
  vv_vol_data_feats : option (ndarray A);
  vv_vol_data_batch : option (ndarray A)
}.

(** What the prologue fixes for the loop: the file list, the restart cycle
    and the initial variables. *)
Record VolLoop : Type := mk_VolLoop {
  vl_volfiles : list string;
  vl_nb_restart_cycle : Z;
  vl_vars : VolVars
}.

Definition load_array (volpath name ext : string) : Result (ndarray A) :=
  f <- _load_medical_volume (path_join volpath name) ext ;;
  as_array f.

Definition apply_proc (fn : option (ndarray A -> ndarray A)) (v : ndarray A)
  : ndarray A :=
  match fn with
  | Some f => f v
  | None => v
  end.

(** [for idx, val in np.ndenumerate(relabel):
       vol_data[resized_seg_data_fix == val] = idx] *)
Definition relabel_assign (resized_seg_data_fix cur : list A) (idx : nat) (val : A)
  : list A :=
  map (fun fc => if sample_eqb (fst fc) val then sample_of_nat idx else snd fc)
      (combine resized_seg_data_fix cur).

Definition relabel_vol (relabel : list A) (vol_data : ndarray A) : ndarray A :=
  let resized_seg_data_fix := data vol_data in
  mk_ndarray (shape vol_data)
    (fold_left (fun cur iv => relabel_assign resized_seg_data_fix cur (fst iv) (snd iv))
               (combine (seq 0 (length relabel)) relabel)
               (data vol_data)).

(** [np.prod(pl.gridsize(vol_data.shape, patch_size, patch_stride))] *)
Definition nb_patches (vsh psz : list nat) (st : Stride) : Z :=
  Z.of_nat (prod_shape (gridsize vsh psz st)).

(** The lines of [vol] before [while 1]. *)
Definition vol_init (args : VolArgs) : Result VolLoop :=
  let volfiles := _get_file_list (va_volpath args) (Some (va_ext args))
                                 (va_rand_seed_vol args) in
  let nb_files := Z.of_nat (length volfiles) in
  if negb (0 <? nb_files) then
    raise (AssertionError ("Could not find any files at " ++ va_volpath args
                           ++ " with extension " ++ va_ext args)%string)
  else
    name0 <- py_index volfiles 0 ;;
    vol_data <- load_array (va_volpath args) name0 (va_ext args) ;;
    let vol_data := apply_proc (va_data_proc_fn args) vol_data in
    let nb_patches_per_vol :=
      match va_patch_size args with
      | Some ps => nb_patches (shape vol_data) ps (va_patch_stride args)
      | None => 1
      end in
    let nb_restart_cycle :=
      match va_nb_restart_cycle args with
      | None => nb_files
      | Some c => c
      end in
    if negb (nb_restart_cycle <=? nb_files * nb_patches_per_vol) then
      raise (AssertionError (va_name args ++ " restart cycle ("
                             ++ str_of_Z nb_restart_cycle ++ ") too big ("
                             ++ str_of_Z (nb_files * nb_patches_per_vol) ++ ") in "
                             ++ va_volpath args)%string)
    else if (0 <=? va_expected_nb_files args)
            && negb (nb_files =? va_expected_nb_files args) then
      raise (AssertionError ("number of files do not match: "
                             ++ str_of_Z nb_files ++ ", "
                             ++ str_of_Z (va_expected_nb_files args))%string)
    else
      ok (mk_VolLoop volfiles nb_restart_cycle
                     (mk_VolVars (-1) (-1) 0 (va_patch_size args)
                                 (va_patch_stride args) None None)).

(** The body of [for lpatch in patch_gen]: the two assertions, the feature
    group, the batch; the second component is the yielded batch, if any. *)
Definition vol_body (args : VolArgs) (nb_restart_cycle : Z) (fname : string)
           (v : VolVars) (item : option (ndarray A))
  : Result (VolVars * option (ndarray A)) :=
  match item with
  | None => raise TypeError
  | Some lpatch =>
      if existsb isnan (data lpatch) then
        raise (AssertionError ("Found a nan for " ++ fname)%string)
      else if negb (forallb isfinite (data lpatch)) then
        raise (AssertionError ("Found a inf for " ++ fname)%string)
      else
        vol_data_feats <-
          (if np_mod (vv_feat_idx v) (va_nb_feats args) =? 0 then ok lpatch
           else match vv_vol_data_feats v with
                | Some f => ok (concatenate_last f lpatch)
                | None => raise (UnboundLocalError "vol_data_feats")
                end) ;;
        let feat_idx := vv_feat_idx v + 1 in
        if np_mod feat_idx (va_nb_feats args) =? 0 then
          vol_data_batch <-
            (if vv_batch_idx v =? -1 then ok vol_data_feats
             else match vv_vol_data_batch v with
                  | Some b => ok (vstack b vol_data_feats)
                  | None => raise (UnboundLocalError "vol_data_batch")
                  end) ;;
          let batch_idx := vv_batch_idx v + 1 in
          let batch_done := batch_idx =? va_batch_size args - 1 in
          let files_done := np_mod (vv_fileidx v + 1) nb_restart_cycle =? 0 in
          let final_batch := va_yield_incomplete_final_batch args && files_done in
          if batch_done || final_batch then
            ok (mk_VolVars (vv_fileidx v) (-1) feat_idx (vv_patch_size v)
                           (vv_patch_stride v) (Some vol_data_feats)
                           (Some vol_data_batch),
                Some vol_data_batch)
          else
            ok (mk_VolVars (vv_fileidx v) batch_idx feat_idx (vv_patch_size v)
                           (vv_patch_stride v) (Some vol_data_feats)
                           (Some vol_data_batch),
                None)
        else
          ok (mk_VolVars (vv_fileidx v) (vv_batch_idx v) feat_idx (vv_patch_size v)
                         (vv_patch_stride v) (Some vol_data_feats)
                         (vv_vol_data_batch v),
              None)
  end.

(** [for lpatch in patch_gen] over the items the patch generator yields:
    the batches yielded on the way, and the variables at the end or the
    exception that ended the loop. *)
Fixpoint vol_for (args : VolArgs) (nb_restart_cycle : Z) (fname : string)
         (v : VolVars) (items : list (option (ndarray A)))
  : list (ndarray A) * Result VolVars :=
  match items with
  | [] => ([], ok v)
  | item :: rest =>
      match vol_body args nb_restart_cycle fname v item with
      | inl e => ([], inl e)
      | inr (v', y) =>
          let (ys, r) := vol_for args nb_restart_cycle fname v' rest in
          (match y with Some b => b :: ys | None => ys end, r)
      end
  end.

(** The patch generator [vol] opens on a loaded volume. *)
Definition vol_patch_gen (args : VolArgs) (vol_data : ndarray A)
           (patch_size : list nat) (patch_stride : Stride) : PatchGen :=
  patch (mk_PatchArgs vol_data (Some patch_size) patch_stride
                      (va_nb_labels_reshape args) (va_keep_vol_size args)
                      1 (va_collapse_2d args) false false).

(** Loading and preparing the volume of the current file. *)
Definition vol_load (args : VolArgs) (volfiles : list string) (fileidx : Z)
  : Result (string * ndarray A) :=
  fname <- py_index volfiles fileidx ;;
  vol_data <- load_array (va_volpath args) fname (va_ext args) ;;
  let vol_data := apply_proc (va_data_proc_fn args) vol_data in
  let vol_data := match va_relabel args with
                  | Some relabel => relabel_vol relabel vol_data
                  | None => vol_data
                  end in
  ok (fname, vol_data).

(** The first half of an iteration of [while 1]: the next file index, the
    loaded volume, the patch size fixed on first use, and the items of the
    patch generator opened on the volume with how it ended.  [fuel] bounds
    the pulls from the patch generator; [None] is fuel exhausted. *)
Definition vol_open (fuel : nat) (args : VolArgs) (l : VolLoop)
  : option (Result (string * VolVars * list (option (ndarray A)) * option PyExc)) :=
  let v := vl_vars l in
  let fileidx := np_mod (vv_fileidx v + 1) (vl_nb_restart_cycle l) in
  match vol_load args (vl_volfiles l) fileidx with
  | inl e => Some (inl e)
  | inr (fname, vol_data) =>
      let patch_size := match vv_patch_size v with
                        | None => shape vol_data
                        | Some ps => ps
                        end in
      let patch_stride := match vv_patch_size v with
                          | None => StrideAxes (map (fun _ => 1%nat) (shape vol_data))
                          | Some _ => vv_patch_stride v
                          end in
      match gen_drain fuel (vol_patch_gen args vol_data patch_size patch_stride) with
      | None => None
      | Some (items, stop) =>
          Some (ok (fname,
                    mk_VolVars fileidx (vv_batch_idx v) (vv_feat_idx v)
                               (Some patch_size) patch_stride
                               (vv_vol_data_feats v) (vv_vol_data_batch v),
                    items, stop))
      end
  end.

(** One iteration of [while 1]: the batches it yields, and the variables
    after it or the exception it raises. *)
Definition vol_file (fuel : nat) (args : VolArgs) (l : VolLoop)
  : option (list (ndarray A) * Result VolVars) :=
  match vol_open fuel args l with
  | None => None
  | Some (inl e) => Some ([], inl e)
  | Some (inr (fname, v1, items, stop)) =>
      let (ys, r) := vol_for args (vl_nb_restart_cycle l) fname v1 items in
      Some (ys,
            v2 <- r ;;
            match stop with
            | Some e => raise e
            | None =>
                if is_nil items
                then raise (ValueError ["Patch generator was empty for file %s"; fname])
                else ok v2
            end)
  end.

(** [n] iterations of [while 1]. *)
Fixpoint vol_run (n fuel : nat) (args : VolArgs) (l : VolLoop)
  : option (list (ndarray A) * Result VolVars) :=
  match n with
  | O => Some ([], ok (vl_vars l))
  | S n' =>
      match vol_file fuel args l with
      | None => None
      | Some (ys, inl e) => Some (ys, inl e)
      | Some (ys, inr v) =>
          match vol_run n' fuel args (mk_VolLoop (vl_volfiles l) (vl_nb_restart_cycle l) v) with
          | None => None
          | Some (ys', r) => Some (ys ++ ys', r)
          end
      end
  end.

(** [vol(...)] observed over its first [n] files: everything it yields, in
    order, and whether it is still running. *)
Definition vol (args : VolArgs) (n fuel : nat)
  : option (list (ndarray A) * Result VolVars) :=
  match vol_init args with
  | inl e => Some ([], inl e)
  | inr l => vol_run n fuel args l
  end.

(** The patches pulled in each of the first [n] iterations, in order: the
    global generation order of the patches is their concatenation. *)
Fixpoint vol_patches (n fuel : nat) (args : VolArgs) (l : VolLoop)
  : list (list (option (ndarray A))) :=
  match n with
  | O => []
  | S n' =>
      match vol_open fuel args l, vol_file fuel args l with
      | Some (inr (_, _, items, _)), Some (_, inr v) =>
          items :: vol_patches n' fuel args
                               (mk_VolLoop (vl_volfiles l) (vl_nb_restart_cycle l) v)
      | Some (inr (_, _, items, _)), _ => [items]
      | _, _ => []
      end
  end.

(** *** Driving a negotiated [patch] stream as [vol_seg_prior] does *)

(** [gen.send(size)] for each size in turn, until the stream stops or
    raises. *)
Fixpoint send_each (fuel : nat) (sizes : list Z) (g : PatchGen)
  : option (list (Outcome A PatchGen)) :=
  match sizes with
  | [] => Some []
  | size :: rest =>
      match patch_send fuel (Some size) g with
      | None => None
      | Some (Yielded v g') =>
          match send_each fuel rest g' with
          | None => None
          | Some outs => Some (Yielded v g' :: outs)
          end
      | Some o => Some [o]
      end
  end.

(** [assert next(prior_gen) is None] followed by [prior_gen.send(size)] for
    each size. *)
Definition negotiate (fuel : nat) (args : PatchArgs) (sizes : list Z)
  : option (list (Outcome A PatchGen)) :=
  match patch_send fuel None (patch args) with
  | None => None
  | Some (Yielded None g) => send_each fuel sizes g
  | Some (Yielded (Some _) _) => Some [Raised (AssertionError "bad prior gen setup")]
  | Some o => Some [o]
  end.

(** The realized size of what a resumption gave, when it gave a batch. *)
Definition outcome_size (o : Outcome A PatchGen) : option nat :=
  match o with
  | Yielded (Some b) _ => Some (realized_size b)
  | _ => None
  end.

(** *** Reference descriptions used by the properties *)

(** [np.concatenate] along the last axis over a feature group, left to
    right. *)
Definition concat_feats (l : list (ndarray A)) : ndarray A :=
  match l with
  | [] => mk_ndarray [] []
  | p :: t => fold_left concatenate_last t p
  end.

(** [np.vstack] over the samples of a batch, in order. *)
Definition vstack_all (l : list (ndarray A)) : ndarray A :=
  match l with
  | [] => mk_ndarray [] []
  | p :: t => fold_left vstack t p
  end.

(** The [m]-th group of [k] consecutive patches of the sequence [g]. *)
Definition group_at (k : nat) (g : list (ndarray A)) (m : nat) : list (ndarray A) :=
  firstn k (skipn (m * k) g).

(** The complete samples of a patch sequence grouped by [k]: sample [m] is
    the concatenation of the patches [m*k, ..., m*k + k - 1]. *)
Definition samples (k : nat) (g : list (ndarray A)) : list (ndarray A) :=
  map (fun m => concat_feats (group_at k g m)) (seq 0 (length g / k)).

(** The patches among the items pulled from a patch generator. *)
Definition patches_of (items : list (option (ndarray A))) : list (ndarray A) :=
  flat_map (fun it => match it with Some p => [p] | None => [] end) items.

(** The feature variables of [vol] after the patches [g], in global
    generation order, have gone through the loop body: the counter is their
    number, and an unfinished group is the concatenation of its patches. *)
Definition feat_inv (k : nat) (g : list (ndarray A)) (v : VolVars) : Prop :=
  vv_feat_idx v = Z.of_nat (length g)
  /\ ((length g mod k)%nat <> 0%nat ->
      vv_vol_data_feats v = Some (concat_feats (skipn (length g / k * k) g))).

(** The batch variables of [vol] while the samples [pend] wait in the
    batch. *)
Definition batch_inv (pend : list (ndarray A)) (v : VolVars) : Prop :=
  vv_batch_idx v = Z.of_nat (length pend) - 1
  /\ (pend <> [] -> vv_vol_data_batch v = Some (vstack_all pend)).

(** Everything yielded so far, [ys], together with the waiting samples, is
    the sequence of complete samples of [g]: each yielded batch stacks a run
    of consecutive samples. *)
Definition vol_inv (k : nat) (g : list (ndarray A)) (ys : list (ndarray A))
           (v : VolVars) : Prop :=
  feat_inv k g v
  /\ exists groups pend,
      ys = map vstack_all groups
      /\ Forall (fun grp => grp <> []) groups
      /\ concat groups ++ pend = samples k g
      /\ batch_inv pend v.

(** A sample straddles the boundary of the patches [s, ..., s + n - 1] of one
    file: its index range holds a patch of the file and the patch just
    before or just after the file. *)
Definition straddles (k s n : nat) : Prop :=
  exists m i1 i2,
    (m * k <= i1 < m * k + k)%nat /\ (m * k <= i2 < m * k + k)%nat
    /\ (s <= i1 < s + n)%nat
    /\ ((i2 + 1)%nat = s \/ i2 = (s + n)%nat).

(** A bound on the pulls a finite stream still accepts before it stops. *)
Definition drain_measure (g : PatchGen) : nat :=
  match pg_pc g with
  | PcStart => length (new_gen (pg_args g)) + 3
  | PcHandshake => length (new_gen (pg_args g)) + 2
  | PcLoop rest => length rest + 2
  | PcFinal => 1
  | PcDone => 1
  end.


(** [np.prod(pl.gridsize(...))] for the first volume when a patch size is
    given, 1 otherwise: the patches per file of the restart-cycle check. *)
Definition patches_per_file (args : VolArgs) (vol_data : ndarray A) : Z :=
  match va_patch_size args with
  | Some ps => nb_patches (shape (apply_proc (va_data_proc_fn args) vol_data)) ps
                          (va_patch_stride args)
  | None => 1
  end.

(** Every patch still to come passes the squeeze and the categorical
    preparation. *)
Definition preps_ok (args : PatchArgs) (rest : list (ndarray A)) : Prop :=
  Forall (fun raw => exists l, prep_patch args raw = inr l) rest.

(** The batch under construction holds [c] patches. *)
Definition batch_ok (c : nat) (mb : option (ndarray A)) : Prop :=
  c = 0%nat \/ exists b, mb = Some b /\ realized_size b = c.

(** What [for item in gen] does with the outcome of one [next(gen)]. *)
Definition drain_after (f : nat) (o : option (Outcome A PatchGen))
  : option (list (option (ndarray A)) * option PyExc) :=
  match o with
  | None => None
  | Some (Yielded v g') =>
      match gen_drain f g' with
      | None => None
      | Some (items, stop) => Some (v :: items, stop)
      end
  | Some (Raised e) => Some ([], Some e)
  | Some Stopped => Some ([], None)
  end.

End Generators.

Arguments PatchArgs A : clear implicits.
Arguments PatchPC A : clear implicits.
Arguments PatchGen A : clear implicits.
Arguments ForResult A : clear implicits.
Arguments VolArgs A : clear implicits.
Arguments VolVars A : clear implicits.
Arguments VolLoop A : clear implicits.

(** ** Concrete worlds

    Integer-valued volumes stored as [.npz] archives in one directory, used to
    run the generators on explicit inputs. *)

Fixpoint fs_lookup {X} (files : list (string * X)) (path : string) : Result X :=
  match files with
  | [] => raise (IOError_ path)
  | (p, x) :: rest => if String.eqb p path then ok x else fs_lookup rest path
  end.

(** One-hot expansion of integer labels, [to_categorical(a, n)] *)
Definition one_hot (a : ndarray Z) (n : Z) : ndarray Z :=
  mk_ndarray (shape a ++ [Z.to_nat n])
             (flat_map (fun v => map (fun j => if Z.of_nat j =? v then 1 else 0)
                                     (seq 0 (Z.to_nat n)))
                       (data a)).

(** A directory [dir] holding the files [files] (path, content); integers are
    never not-a-number and always finite. *)
Definition ZWorld (dir : string) (files : list (string * NpFile Z)) : Externals Z := {|
  to_categorical := one_hot;
  isnan := fun _ => false;
  isfinite := fun _ => true;
  sample_eqb := Z.eqb;
  sample_of_nat := Z.of_nat;
  np_load := fs_lookup (map (fun nf => (path_join dir (fst nf), snd nf)) files);
  nib_load := fun path =>
    f <- fs_lookup (map (fun nf => (path_join dir (fst nf), snd nf)) files) path ;;
    match f with
    | NpArray a => ok a
    | NpArchive _ => raise (IOError_ path)
    end;
  os_listdir := fun d => if String.eqb d dir then map fst files else [];
  np_random_permutation := fun _ l => l
|}.

(** A volume of shape [sh] whose samples count up from [start]. *)
Definition ramp (sh : list nat) (start : Z) : ndarray Z :=
  mk_ndarray sh (map (fun i => start + Z.of_nat i) (seq 0 (prod_shape sh))).

Definition npz (a : ndarray Z) : NpFile Z := NpArchive [("vol_data", a)].

(** Three volumes of shape (8,8,8). *)
Definition three_volumes : list (string * NpFile Z) :=
  [("a.npz", npz (ramp [8;8;8] 0)); ("b.npz", npz (ramp [8;8;8] 1000));
   ("c.npz", npz (ramp [8;8;8] 2000))]%nat.

(** [vol(dir, patch_size=..., patch_stride=..., batch_size=..., nb_restart_cycle=...)]
    with every other argument at its default. *)
Definition vol_args (dir : string) (batch_size : Z) (nb_restart_cycle : option Z)
           (patch_size : option (list nat)) (patch_stride : Stride) (nb_feats : Z)
           (yield_incomplete_final_batch : bool) : VolArgs Z :=
  mk_VolArgs dir ".npz" batch_size (-1) None None 0 false "single_vol"
             nb_restart_cycle patch_size patch_stride None nb_feats None
             yield_incomplete_final_batch.

Definition sizes_of {A} (r : option (list (ndarray A) * Result (VolVars A))) : option (list nat) :=
  match r with
  | Some (ys, _) => Some (map realized_size ys)
  | None => None
  end.


(** A world with no files, for streams over in-memory volumes. *)
Definition ZMem : Externals Z := ZWorld "" [].

(** [patch(vol_data, patch_size, patch_stride=..., nb_labels_reshape=0,
    batch_size=..., variable_batch_size=..., infinite=...)] *)
Definition patch_args (vol_data : ndarray Z) (patch_size patch_stride : list nat)
           (batch_size : Z) (variable_batch_size infinite : bool) : PatchArgs Z :=
  mk_PatchArgs vol_data (Some patch_size) (StrideAxes patch_stride) 0 false
               batch_size None variable_batch_size infinite.

(** A (4,4) volume cut into four (2,2) patches, in batches of three. *)
Definition four_patches_by_three : PatchArgs Z :=
  patch_args (ramp [4;4]%nat 0) [2;2]%nat [2;2]%nat 3 false false.

(** One volume stored in each of the container formats. *)
Definition five_formats : list (string * NpFile Z) :=
  [("v.npz", npz (ramp [2;2] 0)); ("v.npy", NpArray (ramp [2;2] 10));
   ("v.nii", NpArray (ramp [2;2] 20)); ("v.nii.gz", NpArray (ramp [2;2] 30));
   ("v.mgz", NpArray (ramp [2;2] 40))]%nat.

(** A label volume with the values 0, 5 and 9. *)
Definition sparse_labels : ndarray Z := mk_ndarray [2;3]%nat [0; 5; 9; 9; 5; 0].


(** [vol] suspended before an iteration, with explicit variables. *)
Definition vol_loop_at (volfiles : list string) (nb_restart_cycle : Z)
           (fileidx : Z) (patch_size : option (list nat)) (patch_stride : Stride)
  : VolLoop Z :=
  mk_VolLoop volfiles nb_restart_cycle
             (mk_VolVars fileidx (-1) 0 patch_size patch_stride None None).


(** A directory of float-valued volumes: [np.isnan] and [np.isfinite] are the
    IEEE classifications. *)
Definition FloatWorld (dir : string) (files : list (string * NpFile float))
  : Externals float := {|
  to_categorical := fun a _ => a;
  isnan := PrimFloat.is_nan;
  isfinite := PrimFloat.is_finite;
  sample_eqb := PrimFloat.eqb;
  sample_of_nat := fun n => PrimFloat.of_uint63 (Uint63.of_Z (Z.of_nat n));
  np_load := fs_lookup (map (fun nf => (path_join dir (fst nf), snd nf)) files);
  nib_load := fun path => raise (IOError_ path);
  os_listdir := fun d => if String.eqb d dir then map fst files else [];
  np_random_permutation := fun _ l => l
|}.

(** A (2,2) volume whose second row holds a not-a-number. *)
Definition nan_volume : ndarray float :=
  mk_ndarray [2;2]%nat [1%float; 2%float; nan; 3%float].

Definition nan_files : list (string * NpFile float) :=
  [("a.npz", NpArchive [("vol_data", nan_volume)])].

(** Its two (1,2) patches as the patch generator yields them. *)
Definition clean_row : ndarray float := mk_ndarray [1;1;2]%nat [1%float; 2%float].
Definition nan_row : ndarray float := mk_ndarray [1;1;2]%nat [nan; 3%float].

Definition nan_args : VolArgs float :=
  mk_VolArgs "d" ".npz" 1 (-1) None None 0 false "single_vol"
             None (Some [1;2]%nat) (StrideAxes [1;2]%nat) None 1 None true.

Definition nan_loop : VolLoop float :=
  mk_VolLoop ["a.npz"] 1
             (mk_VolVars (-1) (-1) 0 (Some [1;2]%nat) (StrideAxes [1;2]%nat) None None).

(** A directory whose second volume is larger than the first. *)
Definition growing_volumes : list (string * NpFile Z) :=
  [("a.npz", npz (ramp [2;2] 0)); ("b.npz", npz (ramp [4;4] 100))]%nat.

(** [vol] over that directory with no patch size, before its first
    iteration. *)
Definition growing_args : VolArgs Z :=
  vol_args "d" 1 None None (StrideScalar 1) 1 true.

Definition growing_loop : VolLoop Z :=
  vol_loop_at ["a.npz"; "b.npz"] 2 (-1) None (StrideScalar 1).

(** The end-to-end scenario: three (8,8,8) volumes, (4,4,4) patches with
    stride (4,4,4), batch size 5, restart cycle 3, incomplete final batch
    yielded. *)
Definition scenario_args : VolArgs Z :=
  vol_args "d" 5 (Some 3) (Some [4;4;4]%nat) (StrideAxes [4;4;4]%nat) 1 true.

(** Two (3,2) volumes, three (1,2) patches each, grouped two by two. *)
Definition two_by_three : list (string * NpFile Z) :=
  [("a.npz", npz (ramp [3;2] 0)); ("b.npz", npz (ramp [3;2] 100))]%nat.

Definition pairs_args : VolArgs Z :=
  vol_args "d" 1 None (Some [1;2]%nat) (StrideAxes [1;2]%nat) 2 true.

Definition pairs_loop : VolLoop Z :=
  vol_loop_at ["a.npz"; "b.npz"] 2 (-1) (Some [1;2]%nat) (StrideAxes [1;2]%nat).

(** A (3,2) volume cut into three (1,2) patches by a negotiated stream. *)
Definition three_patches_negotiated (infinite : bool) : PatchArgs Z :=
  patch_args (ramp [3;2]%nat 0) [1;2]%nat [1;2]%nat 1 true infinite.

(** The realized sizes the finite fixed mode is expected to produce for [N]
    patches and batch size [B]: [N / B] full batches, then the remainder. *)
Definition batch_sizes (N B : nat) : list nat :=
  repeat B (N / B) ++ (if (N mod B =? 0)%nat then [] else [(N mod B)%nat]).

(** ** Further consumers and reference descriptions *)
Section Consumers.
Context {A : Type} `{Ext : Externals A}.

(** [next(gen)] repeated [n] times, until the stream stops or raises. *)
Fixpoint next_each (fuel n : nat) (g : PatchGen A)
  : option (list (Outcome A (PatchGen A))) :=
  match n with
  | O => Some []
  | S n' =>
      match patch_send fuel None g with
      | None => None
      | Some (Yielded v g') =>
          match next_each fuel n' g' with
          | None => None
          | Some outs => Some (Yielded v g' :: outs)
          end
      | Some o => Some [o]
      end
  end.

(** The samples of the batch a suspended [patch] is building: none right
    after a yield ([batch_idx == -1]). *)
Definition pending_data (g : PatchGen A) : list A :=
  if pg_batch_idx g =? -1 then []
  else match pg_patch_data_batch g with
       | Some b => data b
       | None => []
       end.

(** The raw patch [raw] is prepared into [l]. *)
Definition prepared (args : PatchArgs A) (raw l : ndarray A) : Prop :=
  prep_patch args raw = inr l.

End Consumers.

Section VolReference.
Context {A : Type} `{Ext : Externals A}.

(** The file names [vol] opens in its first [n] iterations, in order; the
    list ends with the file of the iteration that raised, if one did. *)
Fixpoint vol_opened (n fuel : nat) (args : VolArgs A) (l : VolLoop A) : list string :=
  match n with
  | O => []
  | S n' =>
      match vol_open fuel args l, vol_file fuel args l with
      | Some (inr (fname, _, _, _)), Some (_, inr v) =>
          fname :: vol_opened n' fuel args
                              (mk_VolLoop (vl_volfiles l) (vl_nb_restart_cycle l) v)
      | Some (inr (fname, _, _, _)), _ => [fname]
      | _, _ => []
      end
  end.

(** The batch under construction in [vol] for a batch size [B]: the counter
    is below [B - 1], and it is one less than the rows stacked so far. *)
Definition batch_count_inv (B : Z) (v : VolVars A) : Prop :=
  -1 <= vv_batch_idx v < B - 1
  /\ (vv_batch_idx v <> -1 ->
      exists b, vv_vol_data_batch v = Some b
                /\ Z.of_nat (realized_size b) = vv_batch_idx v + 1).

(** An item pulled from a patch generator that is one patch. *)
Definition unit_item (it : option (ndarray A)) : Prop :=
  exists p, it = Some p /\ realized_size p = 1%nat.

(** What a yielded batch of [vol] may hold for batch size [B]. *)
Definition batch_size_ok (B : Z) (incomplete : bool) (y : ndarray A) : Prop :=
  1 <= Z.of_nat (realized_size y) <= B
  /\ (incomplete = false -> Z.of_nat (realized_size y) = B).

End VolReference.

(** ** [vol_seg], [seg_seg] and [vol_seg_prior] *)
Section PairedGenerators.
Context {A : Type} `{Ext : Externals A}.

(** [x.astype('float16')] and [x.astype('int8')] on a batch. *)
Context (astype_float16 astype_int8 : ndarray A -> ndarray A).

(** The arguments of [vol_seg]: its own, and the keyword arguments it
    forwards to both calls of [vol] ([batch_size] to
    [yield_incomplete_final_batch]).  [verbose], [force_binary],
    [vol_subname] and [seg_subname] only reach prints and unused
    parameters. *)
Record VolSegArgs : Type := mk_VolSegArgs {
  vs_volpath : string;
  vs_segpath : string;
  vs_proc_vol_fn : option (ndarray A -> ndarray A);
  vs_proc_seg_fn : option (ndarray A -> ndarray A);
  vs_name : string;
  vs_ext : string;
  vs_nb_restart_cycle : option Z;
  vs_nb_labels_reshape : Z;
  vs_collapse_2d : option nat;
  vs_nb_input_feats : Z;
  vs_relabel : option (list A);
  vs_rand_seed_vol : option Z;
  vs_batch_size : Z;
  vs_expected_nb_files : Z;
  vs_keep_vol_size : bool;
  vs_patch_size : option (list nat);
  vs_patch_stride : Stride;
  vs_yield_incomplete_final_batch : bool
}.

(** [vol_seg(volpath, segpath)] with every other argument at its default. *)
Definition vol_seg_defaults (volpath segpath : string) : VolSegArgs :=
  mk_VolSegArgs volpath segpath None None "vol_seg" ".npz" None (-1) None 1 None None
                1 (-1) false None (StrideScalar 1) true.

(** [vol_gen = vol(volpath, **kwargs, ext=ext, nb_restart_cycle=...,
    collapse_2d=collapse_2d, relabel=None, data_proc_fn=proc_vol_fn,
    nb_labels_reshape=1, name=name+' vol', nb_feats=nb_input_feats,
    rand_seed_vol=rand_seed_vol)] *)
Definition vol_seg_vol_args (a : VolSegArgs) : VolArgs A :=
  mk_VolArgs (vs_volpath a) (vs_ext a) (vs_batch_size a) (vs_expected_nb_files a)
             (vs_proc_vol_fn a) None 1 (vs_keep_vol_size a)
             (vs_name a ++ " vol")%string (vs_nb_restart_cycle a)
             (vs_patch_size a) (vs_patch_stride a) (vs_collapse_2d a)
             (vs_nb_input_feats a) (vs_rand_seed_vol a)
             (vs_yield_incomplete_final_batch a).

(** [seg_gen = vol(segpath, **kwargs, ext=ext, nb_restart_cycle=...,
    relabel=relabel, rand_seed_vol=rand_seed_vol, data_proc_fn=proc_seg_fn,
    nb_labels_reshape=nb_labels_reshape, name=name+' seg')]: [collapse_2d]
    and [nb_feats] are not passed and keep the defaults of [vol]. *)
Definition vol_seg_seg_args (a : VolSegArgs) : VolArgs A :=
  mk_VolArgs (vs_segpath a) (vs_ext a) (vs_batch_size a) (vs_expected_nb_files a)
             (vs_proc_seg_fn a) (vs_relabel a) (vs_nb_labels_reshape a)
             (vs_keep_vol_size a)
             (vs_name a ++ " seg")%string (vs_nb_restart_cycle a)
             (vs_patch_size a) (vs_patch_stride a) None
             1 (vs_rand_seed_vol a)
             (vs_yield_incomplete_final_batch a).

(** The first pull of [vol_seg]: [next(vol_gen)], then [next(seg_gen)], then
    the pair.  Each stream is observed over its first [n] files; [None]
    means that this was not enough to decide the pull. *)
Definition vol_seg_first (a : VolSegArgs) (n fuel : nat)
  : option (Result (ndarray A * ndarray A)) :=
  match vol (vol_seg_vol_args a) n fuel with
  | None => None
  | Some (input_vol :: _, _) =>
      match vol (vol_seg_seg_args a) n fuel with
      | None => None
      | Some (output_vol :: _, _) =>
          Some (ok (astype_float16 input_vol, astype_int8 output_vol))
      | Some ([], inl e) => Some (raise e)
      | Some ([], inr _) => None
      end
  | Some ([], inl e) => Some (raise e)
  | Some ([], inr _) => None
  end.

(** The pairs [vol_seg] yields while each stream reads its first [n] files:
    the [i]-th pair couples the [i]-th batch of either stream. *)
Definition vol_seg_pairs (a : VolSegArgs) (n fuel : nat)
  : option (list (ndarray A * ndarray A)) :=
  match vol (vol_seg_vol_args a) n fuel, vol (vol_seg_seg_args a) n fuel with
  | Some (xs, _), Some (ys, _) =>
      Some (combine (map astype_float16 xs) (map astype_int8 ys))
  | _, _ => None
  end.

(** The body of the loop of [seg_seg] on the batch [input_vol] (already
    cast): [vol_size = np.prod(input_vol.shape[1:-1])], then the reshape to
    [(input_vol.shape[0], vol_size, input_vol.shape[-1])].  [np.prod] of an
    empty slice is the float [1.0], which [np.reshape] refuses as a
    dimension. *)
Definition seg_seg_pair (input_vol : ndarray A) : Result (ndarray A * ndarray A) :=
  let middle := tl (removelast (shape input_vol)) in
  n <- py_index (shape input_vol) 0 ;;
  c <- py_index (shape input_vol) (-1) ;;
  match middle with
  | [] => raise TypeError
  | _ :: _ =>
      output_vol <- reshape input_vol [n; prod_shape middle; c] ;;
      ok (input_vol, output_vol)
  end.

(** The prior generator [vol_seg_prior] opens on a prior volume read from
    file, without [force_binary] and [extract_slice]: the number of
    channels, the assertion on the four axes, the default patch size, the
    comparison of [len(patch_size)] with [len(patch_stride)], and the
    arguments of [patch].  (The ['location'] prior is built from a name
    that is bound nowhere in the module and is left out.) *)
Definition vol_seg_prior_patch_args (prior_vol : ndarray A)
           (patch_size : option (list nat)) (patch_stride : Stride)
           (batch_size : Z) (collapse_2d : option nat) : Result (PatchArgs A) :=
  nb_channels <- py_index (shape prior_vol) (-1) ;;
  if negb (ndim prior_vol =? 4)%nat then
    raise (AssertionError "prior is the wrong size")
  else
    let patch_size := match patch_size with
                      | None => firstn 3 (shape prior_vol)
                      | Some ps => ps
                      end in
    match patch_stride with
    | StrideScalar _ => raise TypeError
    | StrideAxes st =>
        if negb (length patch_size =? length st)%nat then raise (AssertionError "")
        else ok (mk_PatchArgs prior_vol (Some (patch_size ++ [nb_channels]))
                              (StrideAxes (st ++ [nb_channels])) 0 false
                              batch_size collapse_2d true true)
    end.

(** The loop of [vol_seg_prior] over the pairs it pulls from [vol_seg]:
    after the handshake, [prior_gen.send(output_vol.shape[0])] for each
    pair. *)
Definition vol_seg_prior_batches (fuel : nat) (prior_args : PatchArgs A)
           (pairs : list (ndarray A * ndarray A))
  : option (list (Outcome A (PatchGen A))) :=
  negotiate fuel prior_args (map (fun p => Z.of_nat (realized_size (snd p))) pairs).

End PairedGenerators.

Arguments VolSegArgs A : clear implicits.

(** ** [img_seg] *)
Section ImageGenerators.

(** The file names the inner generator [imggen] of [img_seg] opens in its
    first [n] pulls, from the index [idx], as long as indexing the file list
    succeeds: [idx = np.mod(idx+1, nb_restart_cycle)], then [files[idx]].
    (Reading the image, taking its first channel and the reshape are left
    to the image library.) *)
Fixpoint imggen_from (files : list string) (nb_restart_cycle : Z) (idx : Z) (n : nat)
  : list (Result string) :=
  match n with
  | O => []
  | S n' =>
      let idx := np_mod (idx + 1) nb_restart_cycle in
      match py_index files idx with
      | inl e => [inl e]
      | inr f => inr f :: imggen_from files nb_restart_cycle idx n'
      end
  end.

(** [imggen(path, ext, nb_restart_cycle)] over the listed [files]:
    [nb_restart_cycle] defaults to their number. *)
Definition imggen (files : list string) (nb_restart_cycle : option Z) (n : nat)
  : list (Result string) :=
  imggen_from files
              (match nb_restart_cycle with
               | None => Z.of_nat (length files)
               | Some c => c
               end)
              (-1) n.

(** [img_gen = imggen(volpath, ext, nb_restart_cycle)] and
    [seg_gen = imggen(segpath, ext)]: the names either stream opens in its
    first [n] pulls. *)
Definition img_seg_opened (img_files seg_files : list string)
           (nb_restart_cycle : option Z) (n : nat)
  : list (Result string) * list (Result string) :=
  (imggen img_files nb_restart_cycle n, imggen seg_files None n).

End ImageGenerators.

(** ** Further example data *)

(** A (2,2) volume cut into two (1,2) patches with [nb_labels_reshape=-1]. *)
Definition negative_labels_patch : PatchArgs Z :=
  mk_PatchArgs (ramp [2;2]%nat 0) (Some [1;2]%nat) (StrideAxes [1;2]%nat) (-1) false
               1 None false false.

(** A (4,4) volume cut into four (2,2) patches, in batches of three, without
    end. *)
Definition four_patches_infinite : PatchArgs Z :=
  patch_args (ramp [4;4]%nat 0) [2;2]%nat [2;2]%nat 3 false true.

(** The four patches of [four_patches_by_three] as [patch] prepares them. *)
Definition four_prepared : list (ndarray Z) :=
  [mk_ndarray [1;2;2]%nat [0; 1; 4; 5]; mk_ndarray [1;2;2]%nat [2; 3; 6; 7];
   mk_ndarray [1;2;2]%nat [8; 9; 12; 13]; mk_ndarray [1;2;2]%nat [10; 11; 14; 15]].

(** [vol] over the two (3,2) volumes with a restart cycle of 3: two files,
    three patches each, so the cycle passes the check of the prologue. *)
Definition beyond_args : VolArgs Z :=
  vol_args "d" 1 (Some 3) (Some [1;2]%nat) (StrideAxes [1;2]%nat) 1 true.

Definition beyond_loop : VolLoop Z :=
  vol_loop_at ["a.npz"; "b.npz"] 3 (-1) (Some [1;2]%nat) (StrideAxes [1;2]%nat).

(** [vol] over the two (3,2) volumes in batches of two patches, complete
    batches only. *)
Definition full_batches_args : VolArgs Z :=
  vol_args "d" 2 None (Some [1;2]%nat) (StrideAxes [1;2]%nat) 1 false.

(** [vol] asked for [.mgz] files in a directory of [.npz] files. *)
Definition mgz_args : VolArgs Z :=
  mk_VolArgs "d" ".mgz" 1 (-1) None None 0 false "single_vol" None None
             (StrideScalar 1) None 1 None true.

(** A prior of shape (2,2,1,2): two channels over a (2,2,1) volume. *)
Definition prior_volume : ndarray Z := ramp [2;2;1;2]%nat 0.

(** Two pairs whose segmentation batches have two rows and one row. *)
Definition prior_pairs : list (ndarray Z * ndarray Z) :=
  [(ramp [2;2;2;1]%nat 0, ramp [2;2;2;1]%nat 0);
   (ramp [1;2;2;1]%nat 0, ramp [1;2;2;1]%nat 0)].

(** [vol] over the two (3,2) volumes when three files are expected. *)
Definition expecting_three_args : VolArgs Z :=
  mk_VolArgs "d" ".npz" 1 3 None None 0 false "single_vol" None
             (Some [1;2]%nat) (StrideAxes [1;2]%nat) None 1 None true.

(** [vol] over the two (3,2) volumes with a restart cycle of one file and
    batches of five. *)
Definition one_file_cycle_args : VolArgs Z :=
  vol_args "d" 5 (Some 1) (Some [1;2]%nat) (StrideAxes [1;2]%nat) 1 true.

Definition one_file_cycle_loop : VolLoop Z :=
  vol_loop_at ["a.npz"; "b.npz"] 1 (-1) (Some [1;2]%nat) (StrideAxes [1;2]%nat).

(** [vol] over the two (3,2) volumes with [batch_size=0], complete batches
    only. *)
Definition zero_batch_args : VolArgs Z :=
  vol_args "d" 0 None (Some [1;2]%nat) (StrideAxes [1;2]%nat) 1 false.

(** ** Worlds and data for the relabelling, empty grids and feature groups *)

(** A directory of 8-bit volumes: an index written into a volume is reduced
    modulo 256, as the conversion to an unsigned 8-bit sample does. *)
Definition ByteWorld (dir : string) (files : list (string * NpFile Z)) : Externals Z := {|
  to_categorical := one_hot;
  isnan := fun _ => false;
  isfinite := fun _ => true;
  sample_eqb := Z.eqb;
  sample_of_nat := fun n => Z.of_nat n mod 256;
  np_load := fs_lookup (map (fun nf => (path_join dir (fst nf), snd nf)) files);
  nib_load := fun path => raise (IOError_ path);
  os_listdir := fun d => if String.eqb d dir then map fst files else [];
  np_random_permutation := fun _ l => l
|}.

(** [vol(dir, relabel=...)] with every other argument at its default. *)
Definition relabel_args (dir : string) (relabel : list Z) : VolArgs Z :=
  mk_VolArgs dir ".npz" 1 (-1) None (Some relabel) 0 false "single_vol" None None
             (StrideScalar 1) None 1 None true.

(** A directory holding the label volume with the values 0, 5 and 9. *)
Definition sparse_dir : list (string * NpFile Z) := [("s.npz", npz sparse_labels)].

(** A relabel array of 257 distinct entries whose last entry, at index 256,
    is the label 7. *)
Definition wide_relabel : list Z :=
  map (fun i => 1000 + Z.of_nat i) (seq 0 256) ++ [7].

(** A directory holding one 8-bit volume with the single label 7. *)
Definition seven_dir : list (string * NpFile Z) :=
  [("s.npz", npz (mk_ndarray [1]%nat [7]))].



(** One (3,2) volume, three (1,2) patches, grouped two by two. *)
Definition one_by_three : list (string * NpFile Z) :=
  [("a.npz", npz (ramp [3;2] 0))]%nat.

(** Row [r] of [da] followed by row [r] of [db], for each of [R] rows of
    widths [la] and [lb]: what joining two arrays along their last axis
    means for their samples in row-major order. *)
Definition join_rows {A} (R la lb : nat) (da db : list A) : list A :=
  flat_map (fun r => firstn la (skipn (r * la) da) ++ firstn lb (skipn (r * lb) db))
           (seq 0 R).

(** [vol] over the one (3,2) volume, before its first iteration. *)
Definition single_loop : VolLoop Z :=
  vol_loop_at ["a.npz"] 1 (-1) (Some [1;2]%nat) (StrideAxes [1;2]%nat).


(** * Properties *)

(** ** The [patch] generator *)
Section PatchProperties.
Context {A : Type} `{Ext : Externals A}.

Lemma prep_patch_size args raw l :
  prep_patch args raw = inr l -> realized_size l = 1%nat.
Proof.
  unfold prep_patch, _categorical_prep, bind.
  destruct (match pa_collapse_2d args with
            | Some ax => squeeze raw ax
            | None => ok raw
            end) as [e|x]; [discriminate|].
  match goal with
  | |- match ?c with _ => _ end = _ -> _ => destruct c as [e|y]; [discriminate|]
  end.
  intros H; inversion H; reflexivity.
Qed.

Lemma vstack_size (a b : ndarray A) :
  realized_size (vstack a b) = (realized_size a + realized_size b)%nat.
Proof. reflexivity. Qed.

Lemma preps_ok_skipn args n rest :
  preps_ok args rest -> preps_ok args (skipn n rest).
Proof.
  unfold preps_ok. revert rest. induction n; intros rest H; simpl; auto.
  destruct rest; auto. inversion H; subst. auto.
Qed.

(** The [for] loop from a batch holding [c] patches and a target size [s]:
    either the patches run out first, or the batch is yielded with exactly
    [s] patches. *)
Lemma patch_for_spec rest :
  forall g c s,
    pg_batch_size g = Some s ->
    pg_batch_idx g = Z.of_nat c - 1 ->
    batch_ok c (pg_patch_data_batch g) ->
    preps_ok (pg_args g) rest ->
    Z.of_nat c < s ->
    if Z.of_nat (c + length rest) <? s
    then exists g', patch_for g rest = ForDone g'
                    /\ pg_args g' = pg_args g
                    /\ pg_batch_size g' = Some s
                    /\ pg_batch_idx g' = Z.of_nat (c + length rest) - 1
                    /\ batch_ok (c + length rest) (pg_patch_data_batch g')
    else exists b, patch_for g rest
                   = ForYield b (mk_PatchGen (pg_args g)
                                             (PcLoop (skipn (Z.to_nat s - c) rest))
                                             (Some s) (-1) (Some b))
                   /\ realized_size b = Z.to_nat s.
Proof.
  induction rest as [|raw rest IH]; intros g c s Hs Hidx Hb Hp Hlt.
  - simpl. rewrite Nat.add_0_r.
    destruct (Z.ltb_spec (Z.of_nat c) s); [|lia].
    exists g. repeat split; auto.
  - inversion Hp as [|? ? [l Hl] Hp']; subst.
    simpl patch_for. rewrite Hl. pose proof (prep_patch_size _ _ _ Hl) as Hsz.
    assert (Hst : exists pb,
               (if pg_batch_idx g =? -1 then ok l
                else match pg_patch_data_batch g with
                     | Some b => ok (vstack b l)
                     | None => raise (UnboundLocalError "patch_data_batch")
                     end) = inr pb /\ realized_size pb = S c).
    { destruct (Z.eqb_spec (pg_batch_idx g) (-1)) as [E|E].
      - exists l. split; auto. assert (c = 0%nat) by lia. subst. auto.
      - destruct Hb as [->|[b [Hb1 Hb2]]]; [simpl in Hidx; lia|].
        rewrite Hb1. exists (vstack b l). split; auto.
        rewrite vstack_size. lia. }
    destruct Hst as [pb [-> Hpb]]. rewrite Hs, Hidx.
    replace (Z.of_nat c - 1 + 1) with (Z.of_nat c) by lia.
    destruct (Z.eqb_spec (Z.of_nat c) (s - 1)) as [E|E].
    + destruct (Z.ltb_spec (Z.of_nat (c + length (raw :: rest))) s);
        [simpl in *; lia|].
      exists pb. split; [|lia].
      replace (Z.to_nat s - c)%nat with 1%nat by lia. reflexivity.
    + specialize (IH (mk_PatchGen (pg_args g) (pg_pc g) (Some s) (Z.of_nat c)
                                  (Some pb)) (S c) s).
      assert (Hlt' : Z.of_nat (S c) < s) by lia.
      assert (Hi' : Z.of_nat c = Z.of_nat (S c) - 1) by lia.
      specialize (IH eq_refl Hi' (or_intror (ex_intro _ pb (conj eq_refl Hpb)))
                     Hp' Hlt').
      cbn [pg_args pg_pc pg_batch_size pg_batch_idx pg_patch_data_batch] in IH.
      replace (c + length (raw :: rest))%nat with (S (c + length rest))
        by (simpl; lia).
      change (S c + length rest)%nat with (S (c + length rest)) in IH.
      destruct (Z.of_nat (S (c + length rest)) <? s).
      * destruct IH as [g' [H1 [H2 [H3 [H4 H5]]]]].
        exists g'. repeat split; auto.
      * destruct IH as [b [H1 H2]]. exists b. split; auto.
        rewrite H1.
        replace (Z.to_nat s - c)%nat with (S (Z.to_nat s - S c)) by lia.
        reflexivity.
Qed.

(** Resuming with an empty batch and at least [B] patches left in the pass
    yields a batch of exactly [B] patches. *)
Lemma resume_full fuel g rest B empty_gen :
  pg_batch_size g = Some B -> 1 <= B -> pg_batch_idx g = -1 ->
  preps_ok (pg_args g) rest ->
  B <= Z.of_nat (length rest) ->
  exists b, patch_while fuel g rest empty_gen
            = Some (Yielded (Some b)
                      (mk_PatchGen (pg_args g) (PcLoop (skipn (Z.to_nat B) rest))
                                   (Some B) (-1) (Some b)))
            /\ realized_size b = Z.to_nat B.
Proof.
  intros Hs HB Hidx Hp Hlen.
  pose proof (patch_for_spec rest g 0%nat B Hs Hidx (or_introl eq_refl) Hp
                             ltac:(lia)) as H.
  destruct (Z.ltb_spec (Z.of_nat (0 + length rest)) B); [simpl in *; lia|].
  destruct H as [b [H1 H2]]. exists b. split; auto.
  destruct fuel; simpl; rewrite H1; rewrite Nat.sub_0_r; reflexivity.
Qed.

(** In finite mode, resuming with an empty batch and fewer than [B] patches
    left yields them as the trailing batch, or stops when none is left. *)
Lemma resume_partial fuel g rest B :
  pa_infinite (pg_args g) = false ->
  pg_batch_size g = Some B -> pg_batch_idx g = -1 ->
  preps_ok (pg_args g) rest ->
  Z.of_nat (length rest) < B ->
  match rest with
  | [] => patch_while fuel g rest false = Some Stopped
  | _ => exists b g', patch_while fuel g rest false = Some (Yielded (Some b) g')
                      /\ pg_pc g' = PcFinal
                      /\ realized_size b = length rest
  end.
Proof.
  intros Hinf Hs Hidx Hp Hlen.
  pose proof (patch_for_spec rest g 0%nat B Hs Hidx (or_introl eq_refl) Hp
                             ltac:(lia)) as H.
  destruct (Z.ltb_spec (Z.of_nat (0 + length rest)) B); [|simpl in *; lia].
  destruct H as [g' [H1 [H2 [H3 [H4 H5]]]]].
  assert (Hw : patch_while fuel g rest false
               = if 0 <=? pg_batch_idx g' then
                   match pg_patch_data_batch g' with
                   | Some b => Some (Yielded (Some b)
                                       (mk_PatchGen (pg_args g') PcFinal (pg_batch_size g')
                                                    (pg_batch_idx g') (pg_patch_data_batch g')))
                   | None => Some (Raised (UnboundLocalError "patch_data_batch"))
                   end
                 else Some Stopped).
  { destruct fuel; simpl; rewrite H1, H2, Hinf; reflexivity. }
  rewrite Hw, H4. destruct rest as [|raw rest'].
  - reflexivity.
  - destruct (Z.leb_spec 0 (Z.of_nat (0 + length (raw :: rest')) - 1));
      [|cbn [length Nat.add] in *; lia].
    destruct H5 as [H5|[b [H5 H6]]]; [simpl in H5; lia|].
    rewrite H5. eexists; eexists; split; [reflexivity|]. split; auto.
Qed.

Lemma batch_sizes_full N B :
  (1 <= B)%nat -> (B <= N)%nat -> batch_sizes N B = B :: batch_sizes (N - B) B.
Proof.
  intros HB HN. unfold batch_sizes.
  remember (N - B)%nat as M eqn:HM.
  assert (HNM : N = (M + 1 * B)%nat) by lia.
  rewrite HNM. rewrite Nat.div_add by lia. rewrite Nat.Div0.mod_add.
  rewrite Nat.add_1_r. simpl repeat.
  replace (M + 1 * B - B)%nat with M by lia.
  replace ((M + 1 * B - B) / B)%nat with (M / B)%nat by (f_equal; lia).
  reflexivity.
Qed.

Lemma batch_sizes_partial N B :
  (0 < N)%nat -> (N < B)%nat -> batch_sizes N B = [N].
Proof.
  intros H0 HN. unfold batch_sizes.
  rewrite Nat.div_small, Nat.mod_small by lia.
  destruct (Nat.eqb_spec N 0); [lia|]. reflexivity.
Qed.

Lemma batch_sizes_none B : (1 <= B)%nat -> batch_sizes 0 B = [].
Proof.
  intros HB. unfold batch_sizes.
  rewrite Nat.Div0.div_0_l, Nat.Div0.mod_0_l. reflexivity.
Qed.

Lemma batch_sizes_length N B :
  (1 <= B)%nat -> length (batch_sizes N B) = ((N + B - 1) / B)%nat.
Proof.
  intros HB. unfold batch_sizes. rewrite length_app, repeat_length.
  pose proof (Nat.div_mod_eq N B) as HN.
  pose proof (Nat.mod_upper_bound N B ltac:(lia)) as Hr.
  remember (N / B)%nat as q. remember (N mod B)%nat as r.
  destruct (Nat.eqb_spec r 0) as [E|E]; simpl length.
  - apply Nat.div_unique with (r := (B - 1)%nat); nia.
  - apply Nat.div_unique with (r := (r - 1)%nat); nia.
Qed.

Lemma gen_drain_S f g : gen_drain (S f) g = drain_after f (patch_send f None g).
Proof. reflexivity. Qed.

(** Draining a finite fixed-size stream from an empty batch: the remaining
    patches leave in batches of [B], the remainder last, then the stream
    stops. *)
Lemma drain_finite n :
  forall rest f g B,
    (length rest <= n)%nat ->
    pa_infinite (pg_args g) = false ->
    pa_variable_batch_size (pg_args g) = false ->
    pg_batch_size g = Some B -> 1 <= B -> pg_batch_idx g = -1 ->
    preps_ok (pg_args g) rest ->
    (n + 1 <= f)%nat ->
    exists items,
      drain_after f (patch_while f g rest false) = Some (map Some items, None)
      /\ map realized_size items = batch_sizes (length rest) (Z.to_nat B).
Proof.
  induction n as [|n IH]; intros rest f g B Hlen Hinf Hvar Hs HB Hidx Hp Hf.
  - destruct rest; [|simpl in Hlen; lia].
    pose proof (resume_partial f g [] B Hinf Hs Hidx Hp ltac:(simpl; lia)) as H.
    simpl in H. rewrite H. exists []. split; [reflexivity|].
    simpl length. rewrite batch_sizes_none by lia. reflexivity.
  - destruct (Z.le_gt_cases B (Z.of_nat (length rest))) as [Hfull|Hpart].
    + destruct (resume_full f g rest B false Hs HB Hidx Hp Hfull) as [b [Hw Hb]].
      rewrite Hw. unfold drain_after.
      destruct f as [|f']; [lia|]. rewrite gen_drain_S.
      unfold patch_send. cbn [pg_pc pg_args]. rewrite Hvar.
      specialize (IH (skipn (Z.to_nat B) rest) f'
                     (mk_PatchGen (pg_args g) (PcLoop (skipn (Z.to_nat B) rest))
                                  (Some B) (-1) (Some b)) B).
      cbn [pg_args pg_batch_size pg_batch_idx] in IH.
      assert (Hl : length (skipn (Z.to_nat B) rest) = (length rest - Z.to_nat B)%nat)
        by apply length_skipn.
      destruct IH as [items [Hd Hsz]]; auto; try lia.
      { apply preps_ok_skipn; auto. }
      rewrite Hd. exists (b :: items). split; [reflexivity|].
      simpl map. rewrite Hsz, Hb, Hl.
      symmetry. apply batch_sizes_full; lia.
    + pose proof (resume_partial f g rest B Hinf Hs Hidx Hp Hpart) as H.
      destruct rest as [|raw rest'].
      * rewrite H. exists []. split; [reflexivity|].
        simpl length. rewrite batch_sizes_none by lia. reflexivity.
      * destruct H as [b [g' [Hw [Hpc Hb]]]]. rewrite Hw. unfold drain_after.
        destruct f as [|f']; [lia|]. rewrite gen_drain_S.
        unfold patch_send. rewrite Hpc. simpl drain_after.
        exists [b]. split; [reflexivity|].
        simpl map. rewrite Hb. symmetry.
        apply batch_sizes_partial; cbn [length] in *; lia.
Qed.

(** C3 (amended).  A finite fixed-size patch stream over a grid of [N >= 1]
    patches that all pass the preparation, with batch size [B >= 1], yields
    exactly [ceil(N/B)] batches, the first [floor(N/B)] of realized size [B]
    and, when [N mod B <> 0], a last one of realized size [N mod B]; then
    it stops. *)
Theorem patch_finite_batches (args : PatchArgs A) (fuel : nat) :
  pa_variable_batch_size args = false ->
  pa_infinite args = false ->
  1 <= pa_batch_size args ->
  (1 <= length (new_gen args))%nat ->
  preps_ok args (new_gen args) ->
  (length (new_gen args) + 3 <= fuel)%nat ->
  let N := length (new_gen args) in
  let B := Z.to_nat (pa_batch_size args) in
  exists batches,
    gen_drain fuel (patch args) = Some (map Some batches, None)
    /\ map realized_size batches
       = repeat B (N / B) ++ (if (N mod B =? 0)%nat then [] else [(N mod B)%nat])
    /\ length batches = ((N + B - 1) / B)%nat.
Proof.
  intros Hvar Hinf HB HN Hp Hf N B.
  destruct fuel as [|f]; [lia|]. rewrite gen_drain_S.
  unfold patch_send. cbn [patch pg_pc pg_args].
  destruct (Z.leb_spec 1 (pa_batch_size args)); [|lia]. cbn [negb].
  rewrite Hvar.
  assert (Hnil : is_nil (new_gen args) = false)
    by (destruct (new_gen args); [simpl in HN; lia|reflexivity]).
  rewrite Hnil.
  destruct (drain_finite (length (new_gen args)) (new_gen args) f (patch args)
                         (pa_batch_size args)) as [items [Hd Hsz]];
    auto; try lia.
  exists items. split; [exact Hd|]. split; [exact Hsz|].
  rewrite <- (length_map realized_size), Hsz.
  apply batch_sizes_length. subst B. lia.
Qed.

(** In infinite mode a pass that starts with [c < s] patches in the batch
    reaches the size [s], restarting the grid as often as needed. *)
Lemma pass_infinite fuel :
  forall g c s,
    pa_infinite (pg_args g) = true ->
    pg_batch_size g = Some s ->
    pg_batch_idx g = Z.of_nat c - 1 ->
    batch_ok c (pg_patch_data_batch g) ->
    preps_ok (pg_args g) (new_gen (pg_args g)) ->
    (1 <= length (new_gen (pg_args g)))%nat ->
    Z.of_nat c < s ->
    s - Z.of_nat c <= Z.of_nat fuel ->
    exists b rest',
      patch_while fuel g (new_gen (pg_args g)) false
      = Some (Yielded (Some b)
                (mk_PatchGen (pg_args g) (PcLoop rest') (Some s) (-1) (Some b)))
      /\ realized_size b = Z.to_nat s
      /\ preps_ok (pg_args g) rest'.
Proof.
  induction fuel as [|f IH]; intros g c s Hinf Hs Hidx Hb Hp HN Hlt Hf; [lia|].
  pose proof (patch_for_spec (new_gen (pg_args g)) g c s Hs Hidx Hb Hp Hlt) as H.
  destruct (Z.ltb_spec (Z.of_nat (c + length (new_gen (pg_args g)))) s) as [Hshort|Hfull].
  - destruct H as [g' [H1 [H2 [H3 [H4 H5]]]]].
    assert (Hw : patch_while (S f) g (new_gen (pg_args g)) false
                 = patch_while f g' (new_gen (pg_args g')) false).
    { simpl. rewrite H1, H2, Hinf. cbn [negb].
      destruct (new_gen (pg_args g)); [simpl in HN; lia|reflexivity]. }
    rewrite Hw. rewrite <- H2 in *.
    apply (IH g' (c + length (new_gen (pg_args g')))%nat s); auto; lia.
  - destruct H as [b [H1 H2]].
    exists b, (skipn (Z.to_nat s - c) (new_gen (pg_args g))).
    split; [|split; auto using preps_ok_skipn].
    simpl. rewrite H1. reflexivity.
Qed.

(** Resuming an infinite stream in the middle of a pass with an empty batch
    and a target size [s >= 1]. *)
Lemma resume_infinite fuel g rest s :
  pa_infinite (pg_args g) = true ->
  pg_batch_size g = Some s ->
  pg_batch_idx g = -1 ->
  preps_ok (pg_args g) rest ->
  preps_ok (pg_args g) (new_gen (pg_args g)) ->
  (1 <= length (new_gen (pg_args g)))%nat ->
  1 <= s < Z.of_nat fuel ->
  exists b rest',
    patch_while fuel g rest false
    = Some (Yielded (Some b)
              (mk_PatchGen (pg_args g) (PcLoop rest') (Some s) (-1) (Some b)))
    /\ realized_size b = Z.to_nat s
    /\ preps_ok (pg_args g) rest'.
Proof.
  intros Hinf Hs Hidx Hp Hpg HN Hf.
  pose proof (patch_for_spec rest g 0%nat s Hs Hidx (or_introl eq_refl) Hp
                             ltac:(lia)) as H.
  destruct (Z.ltb_spec (Z.of_nat (0 + length rest)) s) as [Hshort|Hfull].
  - destruct H as [g' [H1 [H2 [H3 [H4 H5]]]]].
    destruct fuel as [|f]; [simpl in Hf; lia|].
    assert (Hw : patch_while (S f) g rest false
                 = patch_while f g' (new_gen (pg_args g')) false).
    { simpl. rewrite H1, H2, Hinf. cbn [negb].
      destruct (new_gen (pg_args g)); [simpl in HN; lia|reflexivity]. }
    rewrite Hw. rewrite <- H2 in *.
    apply (pass_infinite f g' (0 + length rest)%nat s); auto; lia.
  - destruct H as [b [H1 H2]].
    exists b, (skipn (Z.to_nat s - 0) rest).
    split; [|split; auto using preps_ok_skipn].
    destruct fuel; simpl; rewrite H1; reflexivity.
Qed.

(** After the handshake, or after any yielded batch, each size sent to an
    infinite negotiated stream comes back as a batch of that size. *)
Lemma send_each_infinite fuel sizes :
  forall g,
    pa_variable_batch_size (pg_args g) = true ->
    pa_infinite (pg_args g) = true ->
    pg_batch_idx g = -1 ->
    (pg_pc g = PcHandshake
     \/ exists rest, pg_pc g = PcLoop rest /\ preps_ok (pg_args g) rest) ->
    preps_ok (pg_args g) (new_gen (pg_args g)) ->
    (1 <= length (new_gen (pg_args g)))%nat ->
    Forall (fun s => 1 <= s < Z.of_nat fuel) sizes ->
    exists outs,
      send_each fuel sizes g = Some outs
      /\ map outcome_size outs = map (fun s => Some (Z.to_nat s)) sizes.
Proof.
  induction sizes as [|s sizes IH]; intros g Hvar Hinf Hidx Hpc Hp HN Hsz.
  - exists []. split; reflexivity.
  - inversion Hsz as [|? ? Hs Hsz']; subst.
    assert (Hstep : exists b rest',
               patch_send fuel (Some s) g
               = Some (Yielded (Some b)
                         (mk_PatchGen (pg_args g) (PcLoop rest') (Some s) (-1) (Some b)))
               /\ realized_size b = Z.to_nat s
               /\ preps_ok (pg_args g) rest').
    { unfold patch_send. destruct Hpc as [Hpc|[rest [Hpc Hrest]]]; rewrite Hpc.
      - assert (Hnil : is_nil (new_gen (pg_args g)) = false)
          by (destruct (new_gen (pg_args g)); [simpl in HN; lia|reflexivity]).
        rewrite Hnil.
        apply (pass_infinite fuel (set_batch_size g (Some s)) 0%nat s);
          simpl; auto; try lia. left; reflexivity.
      - rewrite Hvar.
        apply (resume_infinite fuel (set_batch_size g (Some s)) rest s);
          simpl; auto. }
    destruct Hstep as [b [rest' [Hstep [Hb Hrest']]]].
    simpl send_each. rewrite Hstep.
    destruct (IH (mk_PatchGen (pg_args g) (PcLoop rest') (Some s) (-1) (Some b)))
      as [outs [Ho Hm]]; simpl; auto.
    { right. exists rest'. auto. }
    rewrite Ho. eexists. split; [reflexivity|].
    simpl. rewrite Hb, Hm. reflexivity.
Qed.

End PatchProperties.

(** ** Fuel: finite streams stop, and more fuel never changes a result *)
Section FuelProperties.
Context {A : Type} `{Ext : Externals A}.

Lemma patch_for_shape rest :
  forall g : PatchGen A,
    match patch_for g rest with
    | ForYield _ g' =>
        pg_args g' = pg_args g
        /\ exists rest', pg_pc g' = PcLoop rest' /\ (length rest' < length rest)%nat
    | ForRaised _ => True
    | ForDone g' => pg_args g' = pg_args g
    end.
Proof.
  induction rest as [|raw rest IH]; intros g; simpl; auto.
  destruct (prep_patch (pg_args g) raw) as [e|lpatch]; auto.
  match goal with
  | |- context [match ?s with inl _ => _ | inr _ => _ end] =>
      destruct s as [e|pb]; auto
  end.
  destruct (pg_batch_size g) as [bs|]; auto.
  destruct (pg_batch_idx g + 1 =? bs - 1).
  - simpl. split; auto. exists rest. split; auto.
  - specialize (IH (mk_PatchGen (pg_args g) (pg_pc g) (Some bs)
                                (pg_batch_idx g + 1) (Some pb))).
    destruct (patch_for _ rest) as [b g'|e|g']; auto.
    simpl in IH. destruct IH as [H1 [rest' [H2 H3]]].
    split; auto. exists rest'. split; auto.
Qed.

(** A pass of a finite stream always ends: in a yield that leaves fewer
    patches, in an exception, or in the end of the stream. *)
Lemma patch_while_finite fuel (g : PatchGen A) rest empty_gen :
  pa_infinite (pg_args g) = false ->
  exists o,
    patch_while fuel g rest empty_gen = Some o
    /\ match o with
       | Yielded _ g' =>
           pg_args g' = pg_args g
           /\ (pg_pc g' = PcFinal
               \/ exists rest', pg_pc g' = PcLoop rest'
                                /\ (length rest' < length rest)%nat)
       | _ => True
       end.
Proof.
  intros Hinf. pose proof (patch_for_shape rest g) as Hs.
  assert (Hw : patch_while fuel g rest empty_gen
               = match patch_for g rest with
                 | ForYield b g' => Some (Yielded (Some b) g')
                 | ForRaised e => Some (Raised e)
                 | ForDone g' =>
                     if empty_gen then Some (Raised (Exception_ "generator was empty"))
                     else if 0 <=? pg_batch_idx g' then
                            match pg_patch_data_batch g' with
                            | Some b =>
                                Some (Yielded (Some b)
                                        (mk_PatchGen (pg_args g') PcFinal
                                                     (pg_batch_size g') (pg_batch_idx g')
                                                     (pg_patch_data_batch g')))
                            | None => Some (Raised (UnboundLocalError "patch_data_batch"))
                            end
                          else Some Stopped
                 end).
  { destruct fuel; simpl; destruct (patch_for g rest) as [b g'|e|g']; auto;
      rewrite Hs, Hinf; reflexivity. }
  rewrite Hw. destruct (patch_for g rest) as [b g'|e|g'].
  - eexists. split; [reflexivity|]. destruct Hs as [H1 H2]. split; auto.
  - eexists. split; [reflexivity|]. exact I.
  - destruct empty_gen; [eexists; split; [reflexivity|exact I]|].
    destruct (0 <=? pg_batch_idx g'); [|eexists; split; [reflexivity|exact I]].
    destruct (pg_patch_data_batch g');
      eexists; (split; [reflexivity|]); simpl; auto.
Qed.

(** Draining a finite stream with enough fuel gives its items and its
    end. *)
Lemma gen_drain_finite_total n :
  forall (g : PatchGen A) fuel,
    pa_infinite (pg_args g) = false ->
    (drain_measure g <= n)%nat -> (n <= fuel)%nat ->
    exists r, gen_drain fuel g = Some r.
Proof.
  induction n as [|n IH]; intros g fuel Hinf Hm Hf.
  - unfold drain_measure in Hm. destruct (pg_pc g); lia.
  - destruct fuel as [|f]; [lia|]. rewrite gen_drain_S.
    assert (Hstep : forall g0 rest e,
               pg_args g0 = pg_args g -> (length rest + 1 <= n)%nat ->
               exists r, drain_after f (patch_while f g0 rest e) = Some r).
    { intros g0 rest e Ha Hl.
      destruct (patch_while_finite f g0 rest e) as [o [Ho Hsh]];
        [rewrite Ha; exact Hinf|].
      rewrite Ho. destruct o as [v g'|e'|]; simpl; eauto.
      destruct Hsh as [Ha' Hpc].
      destruct (IH g' f) as [[items stop] Hr]; try lia.
      - rewrite Ha', Ha. exact Hinf.
      - unfold drain_measure. destruct Hpc as [->|[rest' [-> Hlt]]]; lia.
      - rewrite Hr. eauto. }
    unfold patch_send. unfold drain_measure in Hm.
    destruct (pg_pc g) as [| |rest| |] eqn:Hpc.
    + destruct (negb (1 <=? pa_batch_size (pg_args g))); [simpl; eauto|].
      destruct (pa_variable_batch_size (pg_args g)).
      * simpl. destruct (IH (mk_PatchGen (pg_args g) PcHandshake (pg_batch_size g)
                                         (pg_batch_idx g) (pg_patch_data_batch g)) f)
          as [[items stop] Hr]; auto; try lia.
        { unfold drain_measure. simpl. lia. }
        rewrite Hr. eauto.
      * apply Hstep; auto. lia.
    + apply Hstep; auto. lia.
    + apply Hstep; [destruct (pa_variable_batch_size (pg_args g)); reflexivity|lia].
    + simpl. eauto.
    + simpl. eauto.
Qed.

Lemma patch_while_mono f :
  forall f' (g : PatchGen A) rest e o,
    patch_while f g rest e = Some o -> (f <= f')%nat ->
    patch_while f' g rest e = Some o.
Proof.
  induction f as [|f IH]; intros f' g rest e o H Hle.
  - destruct f' as [|f']; [exact H|].
    simpl in *. destruct (patch_for g rest) as [b g'|e'|g']; auto.
    destruct e; auto. destruct (negb (pa_infinite (pg_args g'))); auto.
    discriminate.
  - destruct f' as [|f']; [lia|].
    simpl in *. destruct (patch_for g rest) as [b g'|e'|g']; auto.
    destruct e; auto. destruct (negb (pa_infinite (pg_args g'))); auto.
    apply IH; auto. lia.
Qed.

Lemma patch_send_mono f f' sent (g : PatchGen A) o :
  patch_send f sent g = Some o -> (f <= f')%nat -> patch_send f' sent g = Some o.
Proof.
  unfold patch_send. intros H Hle.
  destruct (pg_pc g); auto.
  - destruct sent; auto.
    destruct (negb (1 <=? pa_batch_size (pg_args g))); auto.
    destruct (pa_variable_batch_size (pg_args g)); auto.
    eapply patch_while_mono; eauto.
  - eapply patch_while_mono; eauto.
  - eapply patch_while_mono; eauto.
Qed.

Lemma gen_drain_mono f :
  forall f' (g : PatchGen A) r,
    gen_drain f g = Some r -> (f <= f')%nat -> gen_drain f' g = Some r.
Proof.
  induction f as [|f IH]; intros f' g r H Hle; [discriminate|].
  destruct f' as [|f']; [lia|].
  rewrite gen_drain_S in *.
  destruct (patch_send f None g) as [o|] eqn:Hs; [|discriminate].
  rewrite (patch_send_mono f f' None g o Hs) by lia.
  destruct o as [v g'|e|]; simpl in *; auto.
  destruct (gen_drain f g') as [[items stop]|] eqn:Hd; [|discriminate].
  rewrite (IH f' g' _ Hd) by lia. exact H.
Qed.

Lemma vol_file_mono f f' (args : VolArgs A) l r :
  vol_file f args l = Some r -> (f <= f')%nat -> vol_file f' args l = Some r.
Proof.
  unfold vol_file, vol_open. intros H Hle.
  destruct (vol_load args (vl_volfiles l)
                     (np_mod (vv_fileidx (vl_vars l) + 1) (vl_nb_restart_cycle l)))
    as [e|[fname vol_data]]; auto.
  match type of H with
  | context [gen_drain f ?gg] =>
      destruct (gen_drain f gg) as [[items stop]|] eqn:Hd; [|discriminate];
        rewrite (gen_drain_mono f f' gg _ Hd Hle)
  end.
  exact H.
Qed.

Lemma vol_run_mono n :
  forall f f' (args : VolArgs A) l r,
    vol_run n f args l = Some r -> (f <= f')%nat -> vol_run n f' args l = Some r.
Proof.
  induction n as [|n IH]; intros f f' args l r H Hle; [exact H|].
  simpl in *.
  destruct (vol_file f args l) as [[ys [e|v]]|] eqn:Hf; try discriminate.
  - rewrite (vol_file_mono f f' args l _ Hf Hle). exact H.
  - rewrite (vol_file_mono f f' args l _ Hf Hle).
    destruct (vol_run n f args (mk_VolLoop (vl_volfiles l) (vl_nb_restart_cycle l) v))
      as [[ys' r']|] eqn:Hr; [|discriminate].
    rewrite (IH f f' args _ _ Hr Hle). exact H.
Qed.

(** One iteration of [vol] always ends, given enough fuel. *)
Lemma vol_file_total (args : VolArgs A) l :
  exists fuel r, vol_file fuel args l = Some r.
Proof.
  unfold vol_file, vol_open.
  destruct (vol_load args (vl_volfiles l)
                     (np_mod (vv_fileidx (vl_vars l) + 1) (vl_nb_restart_cycle l)))
    as [e|[fname vol_data]]; [exists 0%nat; eauto|].
  match goal with
  | |- context [gen_drain _ ?gg] =>
      destruct (gen_drain_finite_total (drain_measure gg) gg (drain_measure gg))
        as [[items stop] Hd]; auto; exists (drain_measure gg); rewrite Hd
  end.
  cbn [ok].
  match goal with
  | |- context [vol_for ?a ?c ?n ?v ?i] => destruct (vol_for a c n v i)
  end.
  eauto.
Qed.

(** Any number of iterations of [vol] ends, given enough fuel: in the
    variables after them or in the exception that stopped the stream. *)
Lemma vol_run_total n :
  forall (args : VolArgs A) l, exists fuel r, vol_run n fuel args l = Some r.
Proof.
  induction n as [|n IH]; intros args l; [exists 0%nat; simpl; eauto|].
  destruct (vol_file_total args l) as [f1 [[ys [e|v]] Hf]].
  - exists f1. simpl. rewrite Hf. eauto.
  - destruct (IH args (mk_VolLoop (vl_volfiles l) (vl_nb_restart_cycle l) v))
      as [f2 [[ys' r'] Hr]].
    exists (Nat.max f1 f2). simpl.
    rewrite (vol_file_mono f1 _ args l _ Hf) by lia.
    rewrite (vol_run_mono n f2 _ args _ _ Hr) by lia. eauto.
Qed.

End FuelProperties.

(** ** The loader and the relabelling *)
Section VolumeProperties.
Context {A : Type} `{Ext : Externals A}.

(** C8.  [_load_medical_volume] hands back what the reader of the format
    gives, so it loads the npz archive (its [vol_data] entry), the raw npy
    array (extension token [npy]), NIfTI plain and compressed and MGZ
    whenever the reader succeeds, and raises [ValueError] for every other
    extension. *)
Theorem load_medical_volume_formats (filename : string) :
  (forall entries v,
      np_load filename = inr (NpArchive entries) ->
      archive_get entries "vol_data" = inr v ->
      _load_medical_volume filename ".npz" = inr v)
  /\ (forall f, np_load filename = inr f ->
                _load_medical_volume filename "npy" = inr f)
  /\ (forall v, nib_load filename = inr v ->
                _load_medical_volume filename ".nii" = inr (NpArray v)
                /\ _load_medical_volume filename ".nii.gz" = inr (NpArray v)
                /\ _load_medical_volume filename ".mgz" = inr (NpArray v))
  /\ (forall ext,
         ext <> ".npz" -> ext <> "npy" -> ext <> ".mgz" -> ext <> ".nii" ->
         ext <> ".nii.gz" ->
         _load_medical_volume filename ext
         = inl (ValueError [("Unexpected extension " ++ ext)%string])).
Proof.
  repeat split.
  - intros entries v H1 H2. unfold _load_medical_volume. simpl.
    rewrite H1. simpl. exact H2.
  - intros f H. unfold _load_medical_volume. simpl. exact H.
  - unfold _load_medical_volume. simpl. rewrite H. reflexivity.
  - unfold _load_medical_volume. simpl. rewrite H. reflexivity.
  - unfold _load_medical_volume. simpl. rewrite H. reflexivity.
  - intros ext H1 H2 H3 H4 H5. unfold _load_medical_volume.
    apply String.eqb_neq in H1, H2, H3, H4, H5.
    rewrite H1, H2, H3, H4, H5. reflexivity.
Qed.

(** The relabelling seen from one voxel: the assignments of the loop, in
    order, each comparing with the value the voxel had in the copy. *)
Lemma combine_map_r {X Y Z'} (h : X * Y -> Z') (l : list X) :
  forall l' : list Y,
    combine l (map h (combine l l')) = map (fun p => (fst p, h p)) (combine l l').
Proof.
  induction l as [|x l IH]; intros [|y l']; simpl; auto.
  rewrite IH. reflexivity.
Qed.

Lemma map_snd_combine {X Y} (l : list X) :
  forall l' : list Y, length l = length l' -> map snd (combine l l') = l'.
Proof.
  induction l as [|x l IH]; intros [|y l'] H; simpl in *; try discriminate; auto.
  rewrite IH; auto.
Qed.

Lemma relabel_fold (enum : list (nat * A)) (fix_ : list A) :
  forall cur,
    length fix_ = length cur ->
    fold_left (fun cur iv => relabel_assign fix_ cur (fst iv) (snd iv)) enum cur
    = map (fun fc => fold_left (fun c iv => if sample_eqb (fst fc) (snd iv)
                                            then sample_of_nat (fst iv) else c)
                               enum (snd fc))
          (combine fix_ cur).
Proof.
  induction enum as [|iv enum IH]; intros cur Hlen; simpl.
  - symmetry. apply map_snd_combine. exact Hlen.
  - rewrite IH.
    + unfold relabel_assign. rewrite combine_map_r, map_map. reflexivity.
    + unfold relabel_assign. rewrite length_map, length_combine. lia.
Qed.

Lemma relabel_voxel_miss (relabel : list A) (v : A) :
  (forall x y, sample_eqb x y = true <-> x = y) ->
  ~ In v relabel ->
  forall j c,
    fold_left (fun c iv => if sample_eqb v (snd iv) then sample_of_nat (fst iv) else c)
              (combine (seq j (length relabel)) relabel) c = c.
Proof.
  intros Heq. induction relabel as [|val rl IH]; intros Hin j c; simpl; auto.
  destruct (sample_eqb v val) eqn:E.
  - apply Heq in E. subst. exfalso. apply Hin. left. reflexivity.
  - apply IH. intros H. apply Hin. right. exact H.
Qed.

Lemma relabel_voxel_hit (relabel : list A) (v : A) :
  (forall x y, sample_eqb x y = true <-> x = y) ->
  NoDup relabel ->
  forall k j c,
    nth_error relabel k = Some v ->
    fold_left (fun c iv => if sample_eqb v (snd iv) then sample_of_nat (fst iv) else c)
              (combine (seq j (length relabel)) relabel) c
    = sample_of_nat (j + k).
Proof.
  intros Heq. induction relabel as [|val rl IH]; intros Hnd k j c Hk.
  - destruct k; discriminate.
  - inversion Hnd as [|? ? Hnotin Hnd']; subst. simpl.
    destruct k as [|k]; simpl in Hk.
    + inversion Hk; subst.
      assert (E : sample_eqb v v = true) by (apply Heq; reflexivity).
      rewrite E. rewrite relabel_voxel_miss by auto. f_equal. lia.
    + assert (E : sample_eqb v val = false).
      { destruct (sample_eqb v val) eqn:E; auto. apply Heq in E. subst.
        exfalso. apply Hnotin. eapply nth_error_In. exact Hk. }
      rewrite E. rewrite (IH Hnd' k (S j) c Hk). f_equal. lia.
Qed.

Lemma nth_error_combine_self {X} (l : list X) :
  forall i v, nth_error l i = Some v -> nth_error (combine l l) i = Some (v, v).
Proof.
  induction l as [|x l IH]; intros [|i] v H; simpl in *; try discriminate.
  - inversion H; reflexivity.
  - apply IH; exact H.
Qed.

(** The relabelling loop on one volume, for a relabel array of distinct
    entries: shape and size are kept, a voxel equal to entry [k] becomes
    [k] converted to a sample, any other voxel is unchanged. *)
Lemma relabel_vol_spec (relabel : list A) (vol_data : ndarray A) :
  (forall x y, sample_eqb x y = true <-> x = y) ->
  NoDup relabel ->
  shape (relabel_vol relabel vol_data) = shape vol_data
  /\ length (data (relabel_vol relabel vol_data)) = length (data vol_data)
  /\ forall i v,
      nth_error (data vol_data) i = Some v ->
      (forall k, nth_error relabel k = Some v ->
                 nth_error (data (relabel_vol relabel vol_data)) i
                 = Some (sample_of_nat k))
      /\ (~ In v relabel ->
          nth_error (data (relabel_vol relabel vol_data)) i = Some v).
Proof.
  intros Heq Hnd. unfold relabel_vol. cbn [shape data].
  rewrite relabel_fold by reflexivity.
  split; [reflexivity|]. split.
  - rewrite length_map, length_combine. lia.
  - intros i v Hi. rewrite nth_error_map.
    rewrite (nth_error_combine_self _ _ _ Hi). cbn [option_map fst snd].
    split.
    + intros k Hk. f_equal. apply (relabel_voxel_hit relabel v Heq Hnd k 0 v Hk).
    + intros Hin. f_equal. apply relabel_voxel_miss; auto.
Qed.

End VolumeProperties.

(** ** Empty grids and the restart-cycle check *)
Section GridProperties.
Context {A : Type} `{Ext : Externals A}.




(** C7.  When the restart cycle exceeds the number of files times the
    patches per file, the first pull of [vol] fails the restart-cycle
    assertion: the prologue raises, and nothing is ever yielded. *)
Theorem vol_restart_cycle_too_big (args : VolArgs A) name0 rest vol_data c
        (n fuel : nat) :
  _get_file_list (va_volpath args) (Some (va_ext args)) (va_rand_seed_vol args)
  = name0 :: rest ->
  load_array (va_volpath args) name0 (va_ext args) = inr vol_data ->
  va_nb_restart_cycle args = Some c ->
  Z.of_nat (length (name0 :: rest)) * patches_per_file args vol_data < c ->
  exists msg,
    vol_init args = inl (AssertionError msg)
    /\ vol args n fuel = Some ([], inl (AssertionError msg))
    /\ msg = (va_name args ++ " restart cycle (" ++ str_of_Z c ++ ") too big ("
              ++ str_of_Z (Z.of_nat (length (name0 :: rest))
                           * patches_per_file args vol_data)
              ++ ") in " ++ va_volpath args)%string.
Proof.
  intros Hfiles Hload Hc Hlt.
  assert (Hinit : vol_init args
                  = inl (AssertionError
                           (va_name args ++ " restart cycle (" ++ str_of_Z c
                            ++ ") too big ("
                            ++ str_of_Z (Z.of_nat (length (name0 :: rest))
                                         * patches_per_file args vol_data)
                            ++ ") in " ++ va_volpath args)%string)).
  { unfold vol_init. rewrite Hfiles.
    destruct (Z.ltb_spec 0 (Z.of_nat (length (name0 :: rest))));
      [|cbn [length] in *; lia].
    cbn [negb].
    assert (Hidx : py_index (name0 :: rest) 0 = inr name0).
    { unfold py_index. cbn [Z.ltb Z.compare].
      destruct (Z.leb_spec (Z.of_nat (length (name0 :: rest))) 0);
        [cbn [length] in *; lia|].
      reflexivity. }
    rewrite Hidx. cbn [bind]. rewrite Hload. cbn [bind]. rewrite Hc.
    fold (patches_per_file args vol_data).
    destruct (Z.leb_spec c (Z.of_nat (length (name0 :: rest))
                            * patches_per_file args vol_data)); [lia|].
    reflexivity. }
  eexists. split; [exact Hinit|]. split; [|reflexivity].
  unfold vol. rewrite Hinit. reflexivity.
Qed.

End GridProperties.

(** ** The loop of [vol] *)
Section VolLoopProperties.
Context {A : Type} `{Ext : Externals A}.

Lemma vol_for_app (args : VolArgs A) c fname pre :
  forall v rest,
    vol_for args c fname v (pre ++ rest)
    = match vol_for args c fname v pre with
      | (ys, inl e) => (ys, inl e)
      | (ys, inr v') =>
          let (ys', r) := vol_for args c fname v' rest in (ys ++ ys', r)
      end.
Proof.
  induction pre as [|item pre IH]; intros v rest.
  - simpl. destruct (vol_for args c fname v rest). reflexivity.
  - simpl. destruct (vol_body args c fname v item) as [e|[v1 y]]; [reflexivity|].
    rewrite IH. destruct (vol_for args c fname v1 pre) as [ys [e|v2]];
      [reflexivity|].
    destruct (vol_for args c fname v2 rest) as [ys' r].
    destruct y; reflexivity.
Qed.

(** The file name an iteration works on is the entry of the file list at the
    next index. *)
Lemma vol_open_fname fuel (args : VolArgs A) l fname v1 items stop :
  vol_open fuel args l = Some (inr (fname, v1, items, stop)) ->
  py_index (vl_volfiles l)
           (np_mod (vv_fileidx (vl_vars l) + 1) (vl_nb_restart_cycle l))
  = inr fname.
Proof.
  unfold vol_open, vol_load, bind. intros H.
  destruct (py_index (vl_volfiles l)
                     (np_mod (vv_fileidx (vl_vars l) + 1) (vl_nb_restart_cycle l)))
    as [e|nm]; [discriminate|].
  destruct (load_array (va_volpath args) nm (va_ext args)) as [e|vd];
    [discriminate|].
  cbn [ok] in H.
  match type of H with
  | match ?d with _ => _ end = _ => destruct d as [[its st]|]; [|discriminate]
  end.
  inversion H; subst. reflexivity.
Qed.

(** C4.  When a patch pulled from the volume of the current file holds a
    not-a-number or an infinite sample, the iteration of [vol] ends in an
    [AssertionError] whose message names that file; the batches yielded in
    the iteration are those completed by the patches before it, so no
    yielded batch contains the patch. *)
Theorem vol_nan_inf_fails fuel (args : VolArgs A) (l : VolLoop A)
        fname v1 items stop pre lpatch post ys v' :
  vol_open fuel args l = Some (inr (fname, v1, items, stop)) ->
  items = pre ++ Some lpatch :: post ->
  vol_for args (vl_nb_restart_cycle l) fname v1 pre = (ys, inr v') ->
  existsb isnan (data lpatch) = true \/ forallb isfinite (data lpatch) = false ->
  py_index (vl_volfiles l)
           (np_mod (vv_fileidx (vl_vars l) + 1) (vl_nb_restart_cycle l))
  = inr fname
  /\ vol_file fuel args l
     = Some (ys, inl (AssertionError
                        (if existsb isnan (data lpatch)
                         then ("Found a nan for " ++ fname)%string
                         else ("Found a inf for " ++ fname)%string))).
Proof.
  intros Hopen Hitems Hpre Hbad. split; [eapply vol_open_fname; eauto|].
  unfold vol_file. rewrite Hopen, Hitems, vol_for_app, Hpre.
  assert (Hb : vol_for args (vl_nb_restart_cycle l) fname v' (Some lpatch :: post)
               = ([], inl (AssertionError
                             (if existsb isnan (data lpatch)
                              then ("Found a nan for " ++ fname)%string
                              else ("Found a inf for " ++ fname)%string)))).
  { simpl. destruct (existsb isnan (data lpatch)); [reflexivity|].
    destruct Hbad as [Hbad|Hbad]; [discriminate|]. rewrite Hbad. reflexivity. }
  rewrite Hb. rewrite app_nil_r. reflexivity.
Qed.

Lemma vol_for_keeps_patch_size (args : VolArgs A) c fname items :
  forall v ys v',
    vol_for args c fname v items = (ys, inr v') ->
    vv_patch_size v' = vv_patch_size v
    /\ vv_patch_stride v' = vv_patch_stride v
    /\ vv_fileidx v' = vv_fileidx v.
Proof.
  induction items as [|item items IH]; intros v ys v' H; simpl in H.
  - inversion H; subst. auto.
  - destruct (vol_body args c fname v item) as [e|[v1 y]] eqn:Hb; [discriminate|].
    destruct (vol_for args c fname v1 items) as [ys1 r] eqn:Hf.
    assert (Hr : r = inr v') by (destruct y; inversion H; reflexivity).
    subst r. destruct (IH _ _ _ Hf) as [H1 [H2 H3]].
    rewrite H1, H2, H3. clear - Hb.
    unfold vol_body in Hb. destruct item as [lp|]; [|discriminate].
    destruct (existsb isnan (data lp)); [discriminate|].
    destruct (negb (forallb isfinite (data lp))); [discriminate|].
    unfold bind in Hb.
    repeat match type of Hb with
           | context [match ?c with _ => _ end] =>
               destruct c eqn:?; try discriminate
           end;
      inversion Hb; subst; auto.
Qed.

Lemma vol_file_sets_patch_size fuel (args : VolArgs A) (l : VolLoop A) ys v' :
  vol_file fuel args l = Some (ys, inr v') ->
  exists fname vol_data,
    vol_load args (vl_volfiles l)
             (np_mod (vv_fileidx (vl_vars l) + 1) (vl_nb_restart_cycle l))
    = inr (fname, vol_data)
    /\ vv_patch_size v'
       = Some (match vv_patch_size (vl_vars l) with
               | None => shape vol_data
               | Some ps => ps
               end)
    /\ vv_patch_stride v'
       = match vv_patch_size (vl_vars l) with
         | None => StrideAxes (map (fun _ => 1%nat) (shape vol_data))
         | Some _ => vv_patch_stride (vl_vars l)
         end.
Proof.
  unfold vol_file, vol_open. intros H.
  destruct (vol_load args (vl_volfiles l)
                     (np_mod (vv_fileidx (vl_vars l) + 1) (vl_nb_restart_cycle l)))
    as [e|[fname vol_data]]; [discriminate|].
  exists fname, vol_data. split; [reflexivity|].
  match type of H with
  | context [gen_drain ?f ?g] => destruct (gen_drain f g) as [[items stop]|];
                                 [|discriminate]
  end.
  cbn [ok] in H.
  match type of H with
  | context [vol_for ?a ?c ?n ?v ?i] =>
      destruct (vol_for a c n v i) as [ys1 [e|v2]] eqn:Hf
  end; [discriminate|].
  assert (Hv : v2 = v').
  { cbn [bind] in H. destruct stop; [discriminate|].
    destruct (is_nil items); [discriminate|]. inversion H; reflexivity. }
  subst v2. destruct (vol_for_keeps_patch_size _ _ _ _ _ _ _ Hf) as [H1 [H2 _]].
  rewrite H1, H2. split; reflexivity.
Qed.

Lemma vol_run_keeps_patch_size n :
  forall fuel (args : VolArgs A) (l : VolLoop A) ys v' ps,
    vv_patch_size (vl_vars l) = Some ps ->
    vol_run n fuel args l = Some (ys, inr v') ->
    vv_patch_size v' = Some ps
    /\ vv_patch_stride v' = vv_patch_stride (vl_vars l).
Proof.
  induction n as [|n IH]; intros fuel args l ys v' ps Hps H; simpl in H.
  - inversion H; subst. auto.
  - destruct (vol_file fuel args l) as [[ys1 [e|v1]]|] eqn:Hf; try discriminate.
    destruct (vol_run n fuel args
                      (mk_VolLoop (vl_volfiles l) (vl_nb_restart_cycle l) v1))
      as [[ys2 r]|] eqn:Hr; [|discriminate].
    inversion H; subst.
    destruct (vol_file_sets_patch_size _ _ _ _ _ Hf) as [fn [vd [_ [H1 H2]]]].
    rewrite Hps in H1, H2.
    destruct (IH fuel args
                 (mk_VolLoop (vl_volfiles l) (vl_nb_restart_cycle l) v1)
                 ys2 v' ps H1 Hr) as [H3 H4].
    cbn [vl_vars] in H4.
    split; congruence.
Qed.

End VolLoopProperties.

(** ** Feature groups across files *)
Section FeatureProperties.
Context {A : Type} `{Ext : Externals A}.

Lemma np_mod_nat (a k : nat) :
  (1 <= k)%nat -> np_mod (Z.of_nat a) (Z.of_nat k) = Z.of_nat (a mod k).
Proof.
  intros Hk. unfold np_mod.
  destruct (Z.eqb_spec (Z.of_nat k) 0); [lia|].
  symmetry. apply Nat2Z.inj_mod.
Qed.

Lemma div_succ_same (a k : nat) :
  (1 <= k)%nat -> (S a mod k)%nat <> 0%nat -> (S a / k = a / k)%nat.
Proof.
  intros Hk Hr.
  pose proof (Nat.div_mod_eq (S a) k) as H1.
  pose proof (Nat.mod_upper_bound (S a) k ltac:(lia)) as H2.
  apply Nat.div_unique with (r := (S a mod k - 1)%nat); nia.
Qed.

Lemma div_succ_next (a k : nat) :
  (1 <= k)%nat -> (S a mod k)%nat = 0%nat ->
  (S a / k = S (a / k))%nat /\ (S a = S (a / k) * k)%nat.
Proof.
  intros Hk Hr.
  pose proof (Nat.div_mod_eq (S a) k) as H1. rewrite Hr in H1.
  assert (Hq : (1 <= S a / k)%nat) by nia.
  assert (Ha : (a / k = S a / k - 1)%nat).
  { symmetry. apply Nat.div_unique with (r := (k - 1)%nat); nia. }
  split; nia.
Qed.

Lemma div_mul_le (a k : nat) : (a / k * k <= a)%nat.
Proof.
  destruct k; [simpl; lia|].
  pose proof (Nat.div_mod_eq a (S k)). nia.
Qed.

Lemma div_mul_exact (a k : nat) :
  (a mod k)%nat = 0%nat -> (a / k * k)%nat = a.
Proof.
  intros H. pose proof (Nat.div_mod_eq a k) as H1. rewrite H in H1. nia.
Qed.

Lemma div_mul_lt (a k : nat) :
  (a mod k)%nat <> 0%nat -> (a / k * k < a)%nat.
Proof.
  intros H. pose proof (Nat.div_mod_eq a k) as H1. nia.
Qed.

Lemma concat_feats_snoc (X : list (ndarray A)) p :
  X <> [] -> concat_feats (X ++ [p]) = concatenate_last (concat_feats X) p.
Proof.
  destruct X as [|x X]; [congruence|]. intros _. simpl.
  rewrite fold_left_app. reflexivity.
Qed.

Lemma vstack_all_snoc (X : list (ndarray A)) s :
  X <> [] -> vstack_all (X ++ [s]) = vstack (vstack_all X) s.
Proof.
  destruct X as [|x X]; [congruence|]. intros _. simpl.
  rewrite fold_left_app. reflexivity.
Qed.

Lemma group_at_snoc_old k (g : list (ndarray A)) p m :
  (m * k + k <= length g)%nat -> group_at k (g ++ [p]) m = group_at k g m.
Proof.
  intros H. unfold group_at. rewrite skipn_app.
  replace (m * k - length g)%nat with 0%nat by lia. simpl skipn.
  rewrite firstn_app, length_skipn.
  replace (k - (length g - m * k))%nat with 0%nat by lia.
  simpl. apply app_nil_r.
Qed.

(** One more patch adds a sample exactly when it completes a group. *)
Lemma samples_snoc k (g : list (ndarray A)) p :
  (1 <= k)%nat ->
  samples k (g ++ [p])
  = samples k g
    ++ (if (S (length g) mod k =? 0)%nat
        then [concat_feats (group_at k (g ++ [p]) (length g / k))]
        else []).
Proof.
  intros Hk. unfold samples. rewrite length_app. simpl length.
  rewrite Nat.add_1_r.
  assert (Hold : map (fun m => concat_feats (group_at k (g ++ [p]) m))
                     (seq 0 (length g / k))
                 = map (fun m => concat_feats (group_at k g m))
                       (seq 0 (length g / k))).
  { apply map_ext_in. intros m Hm. apply in_seq in Hm.
    rewrite group_at_snoc_old; [reflexivity|].
    pose proof (div_mul_le (length g) k). nia. }
  destruct (Nat.eqb_spec (S (length g) mod k) 0) as [E|E].
  - destruct (div_succ_next (length g) k Hk E) as [Hq _].
    rewrite Hq, seq_S, map_app, Hold. reflexivity.
  - rewrite (div_succ_same (length g) k Hk E), Hold, app_nil_r. reflexivity.
Qed.

(** The feature group after one more patch. *)
Lemma feat_step k (g : list (ndarray A)) (v : VolVars A) p :
  (1 <= k)%nat -> feat_inv k g v ->
  (if np_mod (vv_feat_idx v) (Z.of_nat k) =? 0 then ok p
   else match vv_vol_data_feats v with
        | Some f => ok (concatenate_last f p)
        | None => raise (UnboundLocalError "vol_data_feats")
        end)
  = inr (concat_feats (skipn (length g / k * k) (g ++ [p]))).
Proof.
  intros Hk [Hidx Hf]. rewrite Hidx, np_mod_nat by exact Hk.
  rewrite skipn_app.
  replace (length g / k * k - length g)%nat with 0%nat
    by (pose proof (div_mul_le (length g) k); lia).
  simpl (skipn 0 [p]).
  destruct (Nat.eq_dec (length g mod k) 0) as [E|E].
  - rewrite E. simpl (Z.of_nat 0 =? 0).
    rewrite (div_mul_exact _ _ E), skipn_all. reflexivity.
  - destruct (Z.eqb_spec (Z.of_nat (length g mod k)) 0); [lia|].
    rewrite (Hf E). unfold ok. f_equal. symmetry. apply concat_feats_snoc.
    intros Hnil. apply (f_equal (@length _)) in Hnil.
    rewrite length_skipn in Hnil. simpl in Hnil.
    pose proof (div_mul_lt _ _ E). lia.
Qed.

(** The batch after one more sample. *)
Lemma batch_step (pend : list (ndarray A)) (v : VolVars A) s :
  batch_inv pend v ->
  (if vv_batch_idx v =? -1 then ok s
   else match vv_vol_data_batch v with
        | Some b => ok (vstack b s)
        | None => raise (UnboundLocalError "vol_data_batch")
        end)
  = inr (vstack_all (pend ++ [s])).
Proof.
  intros [Hidx Hb]. rewrite Hidx. destruct pend as [|x pend].
  - reflexivity.
  - destruct (Z.eqb_spec (Z.of_nat (length (x :: pend)) - 1) (-1));
      [cbn [length] in *; lia|].
    rewrite Hb by discriminate. unfold ok. f_equal. symmetry.
    apply vstack_all_snoc. discriminate.
Qed.

(** A complete group is the whole tail after the earlier groups. *)
Lemma group_complete k (g : list (ndarray A)) p :
  (1 <= k)%nat -> (S (length g) mod k)%nat = 0%nat ->
  group_at k (g ++ [p]) (length g / k) = skipn (length g / k * k) (g ++ [p]).
Proof.
  intros Hk E. unfold group_at. apply firstn_all2.
  rewrite length_skipn, length_app. simpl length.
  destruct (div_succ_next (length g) k Hk E) as [_ H]. nia.
Qed.

(** The loop body keeps the invariant: the patch joins the global sequence,
    and what is yielded is the stack of the waiting samples. *)
Lemma vol_body_inv (args : VolArgs A) c fname v p v' y k g ys0 :
  va_nb_feats args = Z.of_nat k -> (1 <= k)%nat ->
  vol_inv k g ys0 v ->
  vol_body args c fname v (Some p) = inr (v', y) ->
  vol_inv k (g ++ [p]) (ys0 ++ match y with Some b => [b] | None => [] end) v'.
Proof.
  intros Hnf Hk [Hfeat [groups [pend [Hys [Hne [Hcat Hbatch]]]]]] H.
  unfold vol_body in H.
  destruct (existsb isnan (data p)); [discriminate|].
  destruct (negb (forallb isfinite (data p))); [discriminate|].
  rewrite Hnf in H. rewrite (feat_step k g v p Hk Hfeat) in H. cbn [bind] in H.
  destruct Hfeat as [Hidx Hf]. rewrite Hidx in H.
  replace (Z.of_nat (length g) + 1) with (Z.of_nat (S (length g))) in H by lia.
  rewrite np_mod_nat in H by exact Hk.
  pose proof (samples_snoc k g p Hk) as Hsn.
  destruct (Nat.eq_dec (S (length g) mod k) 0) as [E|E].
  - rewrite E in H, Hsn. simpl (Z.of_nat 0 =? 0) in H. simpl (0 =? 0)%nat in Hsn.
    rewrite (batch_step pend v _ Hbatch) in H. cbn [bind] in H.
    rewrite <- (group_complete k g p Hk E) in H.
    set (s := concat_feats (group_at k (g ++ [p]) (length g / k))) in *.
    assert (Hfi : forall v0 : VolVars A,
               vv_feat_idx v0 = Z.of_nat (S (length g)) -> feat_inv k (g ++ [p]) v0).
    { intros v0 H0. split.
      - rewrite H0, length_app. simpl. f_equal. lia.
      - rewrite length_app. simpl length. rewrite Nat.add_1_r. congruence. }
    destruct ((vv_batch_idx v + 1 =? va_batch_size args - 1)
              || va_yield_incomplete_final_batch args
                 && (np_mod (vv_fileidx v + 1) c =? 0)).
    + inversion H; subst v' y. split; [apply Hfi; reflexivity|].
      exists (groups ++ [pend ++ [s]]), []. repeat split.
      * rewrite map_app, Hys. reflexivity.
      * apply Forall_app. split; auto. constructor; auto.
        destruct pend; discriminate.
      * rewrite concat_app, app_nil_r. simpl. rewrite app_nil_r.
        rewrite app_assoc, Hcat, Hsn. reflexivity.
      * intros Hc. congruence.
    + inversion H; subst v' y. split; [apply Hfi; reflexivity|].
      exists groups, (pend ++ [s]). repeat split.
      * rewrite app_nil_r. exact Hys.
      * exact Hne.
      * rewrite app_assoc, Hcat, Hsn. reflexivity.
      * destruct Hbatch as [Hb1 _]. cbn [vv_batch_idx]. rewrite Hb1, length_app.
        simpl length. lia.
  - destruct (Z.eqb_spec (Z.of_nat (S (length g) mod k)) 0); [lia|].
    destruct (Nat.eqb_spec (S (length g) mod k) 0); [lia|].
    inversion H; subst v' y. rewrite app_nil_r in Hsn. split.
    + split.
      * cbn [vv_feat_idx]. rewrite length_app. simpl. f_equal. lia.
      * intros _. cbn [vv_vol_data_feats]. rewrite length_app. simpl length.
        rewrite Nat.add_1_r, (div_succ_same _ _ Hk E). reflexivity.
    + exists groups, pend. repeat split.
      * rewrite app_nil_r. exact Hys.
      * exact Hne.
      * rewrite Hcat, Hsn. reflexivity.
      * destruct Hbatch as [Hb1 _]. exact Hb1.
      * destruct Hbatch as [_ Hb2]. exact Hb2.
Qed.

Lemma vol_for_inv (args : VolArgs A) c fname k items :
  va_nb_feats args = Z.of_nat k -> (1 <= k)%nat ->
  forall v ys v' g ys0,
    vol_inv k g ys0 v ->
    vol_for args c fname v items = (ys, inr v') ->
    vol_inv k (g ++ patches_of items) (ys0 ++ ys) v'.
Proof.
  intros Hnf Hk. induction items as [|item items IH]; intros v ys v' g ys0 Hinv H.
  - simpl in H. inversion H; subst. simpl. rewrite !app_nil_r. exact Hinv.
  - simpl in H.
    destruct (vol_body args c fname v item) as [e|[v1 y]] eqn:Hb; [discriminate|].
    destruct item as [p|]; [|simpl in Hb; discriminate].
    destruct (vol_for args c fname v1 items) as [ys1 r] eqn:Hf.
    assert (Hr : r = inr v') by (destruct y; inversion H; reflexivity).
    subst r.
    pose proof (vol_body_inv args c fname v p v1 y k g ys0 Hnf Hk Hinv Hb) as H1.
    pose proof (IH _ _ _ _ _ H1 Hf) as H2.
    simpl patches_of.
    replace (g ++ p :: patches_of items) with ((g ++ [p]) ++ patches_of items)
      by (rewrite <- app_assoc; reflexivity).
    replace (ys0 ++ ys)
      with ((ys0 ++ match y with Some b => [b] | None => [] end) ++ ys1);
      [exact H2|].
    rewrite <- app_assoc. destruct y; inversion H; reflexivity.
Qed.

(** The invariant only reads the feature and batch variables. *)
Lemma vol_inv_ext k g ys (v w : VolVars A) :
  vv_feat_idx w = vv_feat_idx v ->
  vv_vol_data_feats w = vv_vol_data_feats v ->
  vv_batch_idx w = vv_batch_idx v ->
  vv_vol_data_batch w = vv_vol_data_batch v ->
  vol_inv k g ys v -> vol_inv k g ys w.
Proof.
  intros H1 H2 H3 H4 [[Hf1 Hf2] [groups [pend [Hys [Hne [Hcat [Hb1 Hb2]]]]]]].
  split.
  - split; [congruence|]. intros Hm. rewrite H2. auto.
  - exists groups, pend. split; [exact Hys|]. split; [exact Hne|].
    split; [exact Hcat|]. split; [congruence|].
    intros Hp. rewrite H4. auto.
Qed.

Lemma vol_file_inv fuel (args : VolArgs A) (l : VolLoop A) k ys v' g ys0 :
  va_nb_feats args = Z.of_nat k -> (1 <= k)%nat ->
  vol_inv k g ys0 (vl_vars l) ->
  vol_file fuel args l = Some (ys, inr v') ->
  exists fname v1 items stop,
    vol_open fuel args l = Some (inr (fname, v1, items, stop))
    /\ vol_inv k (g ++ patches_of items) (ys0 ++ ys) v'.
Proof.
  intros Hnf Hk Hinv H. unfold vol_file in H.
  destruct (vol_open fuel args l) as [[e|[[[fname v1] items] stop]]|] eqn:Ho;
    try discriminate.
  exists fname, v1, items, stop. split; [reflexivity|].
  destruct (vol_for args (vl_nb_restart_cycle l) fname v1 items) as [ys1 [e|v2]] eqn:Hf;
    [discriminate|].
  assert (Hv : ys1 = ys /\ v2 = v').
  { cbn [bind] in H. destruct stop; [discriminate|].
    destruct (is_nil items); [discriminate|]. inversion H; auto. }
  destruct Hv; subst.
  apply (vol_for_inv args (vl_nb_restart_cycle l) fname k items Hnf Hk v1); auto.
  unfold vol_open in Ho.
  destruct (vol_load args (vl_volfiles l)
                     (np_mod (vv_fileidx (vl_vars l) + 1) (vl_nb_restart_cycle l)))
    as [e|[fn vd]]; [discriminate|].
  match type of Ho with
  | context [gen_drain ?f ?gg] => destruct (gen_drain f gg) as [[its st]|];
                                  [|discriminate]
  end.
  inversion Ho; subst. apply (vol_inv_ext k g ys0 (vl_vars l)); auto.
Qed.

Lemma vol_run_inv n :
  forall fuel (args : VolArgs A) (l : VolLoop A) k ys v' g ys0,
    va_nb_feats args = Z.of_nat k -> (1 <= k)%nat ->
    vol_inv k g ys0 (vl_vars l) ->
    vol_run n fuel args l = Some (ys, inr v') ->
    length (vol_patches n fuel args l) = n
    /\ vol_inv k (g ++ concat (map patches_of (vol_patches n fuel args l)))
               (ys0 ++ ys) v'.
Proof.
  induction n as [|n IH]; intros fuel args l k ys v' g ys0 Hnf Hk Hinv H.
  - simpl in H. inversion H; subst. simpl. rewrite !app_nil_r. auto.
  - simpl in H.
    destruct (vol_file fuel args l) as [[ys1 [e|v1]]|] eqn:Hf; try discriminate.
    destruct (vol_run n fuel args
                      (mk_VolLoop (vl_volfiles l) (vl_nb_restart_cycle l) v1))
      as [[ys2 r]|] eqn:Hr; [|discriminate].
    inversion H; subst.
    destruct (vol_file_inv fuel args l k ys1 v1 g ys0 Hnf Hk Hinv Hf)
      as [fname [v1' [items [stop [Ho H1]]]]].
    destruct (IH fuel args
                 (mk_VolLoop (vl_volfiles l) (vl_nb_restart_cycle l) v1)
                 k ys2 v' (g ++ patches_of items) (ys0 ++ ys1) Hnf Hk H1 Hr)
      as [Hlen H2].
    simpl vol_patches. rewrite Ho, Hf. simpl. split; [f_equal; exact Hlen|].
    rewrite !app_assoc. rewrite <- !app_assoc in H2. rewrite <- !app_assoc.
    exact H2.
Qed.

(** A file whose number of patches is not a multiple of [k] has a sample
    that straddles one of its two boundaries. *)
Lemma straddles_boundary (k s n : nat) :
  (1 <= k)%nat -> (n mod k)%nat <> 0%nat -> straddles k s n.
Proof.
  intros Hk Hn.
  assert (H1 : (1 <= n)%nat).
  { destruct n; [rewrite Nat.Div0.mod_0_l in Hn; congruence|lia]. }
  destruct (Nat.eq_dec (s mod k) 0) as [E|E].
  - assert (He : ((s + n) mod k)%nat <> 0%nat).
    { rewrite Nat.Div0.add_mod, E, Nat.add_0_l, Nat.Div0.mod_mod. exact Hn. }
    pose proof (Nat.div_mod_eq (s + n) k) as Hd.
    pose proof (Nat.mod_upper_bound (s + n) k ltac:(lia)) as Hu.
    exists ((s + n) / k)%nat, (s + n - 1)%nat, (s + n)%nat.
    repeat split; nia.
  - pose proof (Nat.div_mod_eq s k) as Hd.
    pose proof (Nat.mod_upper_bound s k ltac:(lia)) as Hu.
    exists (s / k)%nat, s, (s - 1)%nat.
    repeat split; nia.
Qed.

Lemma next_file_differs (x c : Z) : 2 <= c -> np_mod (x + 1) c <> x.
Proof.
  intros Hc. unfold np_mod. destruct (Z.eqb_spec c 0); [lia|].
  intros H. pose proof (Z.mod_pos_bound (x + 1) c ltac:(lia)) as Hb.
  destruct (Z.eq_dec x (c - 1)) as [E|E].
  - subst x. replace (c - 1 + 1) with c in H by lia.
    rewrite Z.mod_same in H by lia. lia.
  - rewrite Z.mod_small in H by lia. lia.
Qed.

End FeatureProperties.

(** The relabel scenario: the values 0, 5 and 9 under the array [0, 5, 9]
    (old value 0 to index 0, 5 to 1, 9 to 2) become 0, 1 and 2. *)
Lemma relabel_sparse_labels :
  relabel_vol (Ext := ZMem) [0; 5; 9] sparse_labels
  = mk_ndarray [2;3]%nat [0; 1; 2; 2; 1; 0].
Proof. reflexivity. Qed.

Lemma load_medical_volume_formats_witness :
  _load_medical_volume (Ext := ZWorld "d" five_formats) "d/v.npz" ".npz"
  = inr (NpArray (ramp [2;2]%nat 0))
  /\ _load_medical_volume (Ext := ZWorld "d" five_formats) "d/v.npy" "npy"
     = inr (NpArray (ramp [2;2]%nat 10))
  /\ _load_medical_volume (Ext := ZWorld "d" five_formats) "d/v.nii" ".nii"
     = inr (NpArray (ramp [2;2]%nat 20))
  /\ _load_medical_volume (Ext := ZWorld "d" five_formats) "d/v.npy" ".npy"
     = inl (ValueError ["Unexpected extension .npy"]).
Proof.
  split; [|split; [|split]].
  - apply (proj1 (load_medical_volume_formats (Ext := ZWorld "d" five_formats)
                                              "d/v.npz")
                 [("vol_data", ramp [2;2]%nat 0)]); reflexivity.
  - apply (proj1 (proj2 (load_medical_volume_formats (Ext := ZWorld "d" five_formats)
                                                     "d/v.npy")));
      reflexivity.
  - apply (proj1 (proj2 (proj2 (load_medical_volume_formats
                                  (Ext := ZWorld "d" five_formats) "d/v.nii"))));
      reflexivity.
  - apply (proj2 (proj2 (proj2 (load_medical_volume_formats
                                  (Ext := ZWorld "d" five_formats) "d/v.npy"))));
      discriminate.
Defined.


Lemma vol_restart_cycle_too_big_witness :
  exists msg,
    vol_init (Ext := ZWorld "d" three_volumes)
             (vol_args "d" 5 (Some 25) (Some [4;4;4]%nat) (StrideAxes [4;4;4]%nat) 1 true)
    = inl (AssertionError msg)
    /\ vol (Ext := ZWorld "d" three_volumes)
           (vol_args "d" 5 (Some 25) (Some [4;4;4]%nat) (StrideAxes [4;4;4]%nat) 1 true)
           3 20
       = Some ([], inl (AssertionError msg))
    /\ msg = "single_vol restart cycle (25) too big (24) in d".
Proof.
  apply (vol_restart_cycle_too_big
           (Ext := ZWorld "d" three_volumes)
           (vol_args "d" 5 (Some 25) (Some [4;4;4]%nat) (StrideAxes [4;4;4]%nat) 1 true)
           "a.npz" ["b.npz"; "c.npz"] (ramp [8;8;8]%nat 0) 25 3 20).
  - reflexivity.
  - reflexivity.
  - reflexivity.
  - vm_compute. reflexivity.
Defined.

Lemma vol_nan_inf_fails_witness :
  py_index ["a.npz"] (np_mod (-1 + 1) 1) = inr "a.npz"
  /\ vol_file (Ext := FloatWorld "d" nan_files) 5 nan_args nan_loop
     = Some ([clean_row], inl (AssertionError "Found a nan for a.npz")).
Proof.
  apply (vol_nan_inf_fails
           (Ext := FloatWorld "d" nan_files) 5 nan_args nan_loop "a.npz"
           (mk_VolVars 0 (-1) 0 (Some [1;2]%nat) (StrideAxes [1;2]%nat) None None)
           [Some clean_row; Some nan_row] None
           [Some clean_row] nan_row [] [clean_row]
           (mk_VolVars 0 (-1) 1 (Some [1;2]%nat) (StrideAxes [1;2]%nat)
                       (Some clean_row) (Some clean_row))).
  - vm_compute. reflexivity.
  - reflexivity.
  - vm_compute. reflexivity.
  - left. vm_compute. reflexivity.
Defined.

(** With no patch size and a second volume of shape (4,4) after a first of
    shape (2,2), the second file is cut into nine (2,2) patches. *)
Lemma growing_volumes_shapes :
  option_map (fun r => map (@shape Z) (fst r))
             (vol (Ext := ZWorld "d" growing_volumes) growing_args 2 20)
  = Some (repeat [1;2;2]%nat 10).
Proof. vm_compute. reflexivity. Qed.

(** C1.  On the end-to-end scenario each volume has 8 patches, and one cycle
    of [vol] yields batches of realized sizes 5, 5, 5, 2 and then seven
    batches of size 1: while the last file of the cycle is open every
    completed sample is flushed at once.  The next cycle repeats the same
    sequence. *)
Theorem vol_scenario_sizes :
  nb_patches [8;8;8]%nat [4;4;4]%nat (StrideAxes [4;4;4]%nat) = 8
  /\ sizes_of (vol (Ext := ZWorld "d" three_volumes) scenario_args 3 20)
     = Some [5; 5; 5; 2; 1; 1; 1; 1; 1; 1; 1]%nat
  /\ sizes_of (vol (Ext := ZWorld "d" three_volumes) scenario_args 6 20)
     = Some ([5; 5; 5; 2; 1; 1; 1; 1; 1; 1; 1]
             ++ [5; 5; 5; 2; 1; 1; 1; 1; 1; 1; 1])%nat.
Proof.
  split; [reflexivity|]. split; vm_compute; reflexivity.
Qed.

(** With two files of three patches and groups of two, the second sample is
    made of the last patch of the first file and the first patch of the
    second. *)
Lemma feature_groups_cross_files :
  option_map (fun r => map (@data Z) (fst r))
             (vol (Ext := ZWorld "d" two_by_three) pairs_args 2 20)
  = Some [[0; 1; 2; 3]; [4; 5; 100; 101]; [102; 103; 104; 105]].
Proof. vm_compute. reflexivity. Qed.

Lemma patch_finite_batches_witness :
  exists batches,
    gen_drain (Ext := ZMem) 7 (patch four_patches_by_three)
    = Some (map Some batches, None)
    /\ map realized_size batches = [3; 1]%nat
    /\ length batches = 2%nat.
Proof.
  apply (patch_finite_batches (Ext := ZMem) four_patches_by_three 7).
  - reflexivity.
  - reflexivity.
  - vm_compute. discriminate.
  - vm_compute. lia.
  - unfold preps_ok. vm_compute.
    repeat (constructor; [eexists; reflexivity|]). constructor.
  - vm_compute. lia.
Defined.


(** * Further properties of the generators *)

(** ** The file list *)
Section FileListProperties.
Context {A : Type} `{Ext : Externals A}.

Lemma string_compare_trans_le (a : string) :
  forall b c,
    String.compare a b <> Gt -> String.compare b c <> Gt -> String.compare a c <> Gt.
Proof.
  induction a as [|x a IH]; intros [|y b] [|z c]; simpl; try congruence.
  change (Ascii.compare x y) with (N.compare (N_of_ascii x) (N_of_ascii y)).
  change (Ascii.compare y z) with (N.compare (N_of_ascii y) (N_of_ascii z)).
  change (Ascii.compare x z) with (N.compare (N_of_ascii x) (N_of_ascii z)).
  destruct (N.compare_spec (N_of_ascii x) (N_of_ascii y)) as [Hxy|Hxy|Hxy];
    destruct (N.compare_spec (N_of_ascii y) (N_of_ascii z)) as [Hyz|Hyz|Hyz];
    destruct (N.compare_spec (N_of_ascii x) (N_of_ascii z)) as [Hxz|Hxz|Hxz];
    try congruence; try lia.
  apply IH.
Qed.

Lemma string_leb_trans (a b c : string) :
  String.leb a b = true -> String.leb b c = true -> String.leb a c = true.
Proof.
  unfold String.leb. intros Hab Hbc.
  pose proof (string_compare_trans_le a b c) as H.
  destruct (String.compare a b); destruct (String.compare b c);
    destruct (String.compare a c); try reflexivity; try discriminate;
    exfalso; apply H; congruence.
Qed.

Lemma insert_sorted_perm x l : Permutation (x :: l) (insert_sorted x l).
Proof.
  induction l as [|y l IH]; simpl; auto.
  destruct (String.leb x y); auto.
  eapply perm_trans; [apply perm_swap|]. auto.
Qed.

Lemma sorted_perm l : Permutation l (sorted l).
Proof.
  induction l as [|x l IH]; simpl; auto.
  eapply perm_trans; [|apply insert_sorted_perm]. auto.
Qed.

Lemma insert_sorted_strongly x l :
  StronglySorted (fun a b => String.leb a b = true) l ->
  StronglySorted (fun a b => String.leb a b = true) (insert_sorted x l).
Proof.
  induction 1 as [|y l Hs IH Hy]; simpl.
  - constructor; constructor.
  - destruct (String.leb x y) eqn:Hxy.
    + constructor; [constructor; assumption|].
      constructor; [assumption|].
      eapply Forall_impl; [|exact Hy].
      intros z Hz. eapply string_leb_trans; eauto.
    + constructor; [assumption|].
      assert (Hyx : String.leb y x = true).
      { destruct (String.leb_total x y) as [H|H]; congruence. }
      eapply Permutation_Forall; [apply insert_sorted_perm|].
      constructor; assumption.
Qed.

Lemma sorted_strongly l :
  StronglySorted (fun a b => String.leb a b = true) (sorted l).
Proof.
  induction l as [|x l IH]; simpl; [constructor|].
  apply insert_sorted_strongly, IH.
Qed.

Lemma filter_strongly {X} (R : X -> X -> Prop) (p : X -> bool) l :
  StronglySorted R l -> StronglySorted R (filter p l).
Proof.
  induction 1 as [|y l Hs IH Hy]; simpl; [constructor|].
  destruct (p y); [|assumption].
  constructor; [assumption|].
  rewrite Forall_forall in *. intros z Hz.
  apply filter_In in Hz. apply Hy, Hz.
Qed.

Lemma filter_perm {X} (p : X -> bool) (l l' : list X) :
  Permutation l l' -> Permutation (filter p l) (filter p l').
Proof.
  induction 1 as [|x l l' _ IH|x y l|l l' l'' _ IH1 _ IH2]; simpl.
  - constructor.
  - destruct (p x); auto.
  - destruct (p x), (p y); auto. apply perm_swap.
  - eapply perm_trans; eauto.
Qed.

Lemma substring_full (s : string) : substring 0 (String.length s) s = s.
Proof. induction s as [|c s IH]; simpl; [reflexivity|]. now rewrite IH. Qed.

Lemma substring_suffix (pre s : string) :
  substring (String.length pre) (String.length s) (pre ++ s) = s.
Proof.
  induction pre as [|c pre IH]; simpl; [apply substring_full|].
  exact IH.
Qed.

Lemma string_length_app (a b : string) :
  String.length (a ++ b) = (String.length a + String.length b)%nat.
Proof. induction a as [|c a IH]; simpl; [reflexivity|]. now rewrite IH. Qed.

Lemma substring_split (f : string) :
  forall k, (k <= String.length f)%nat ->
            f = (substring 0 k f ++ substring k (String.length f - k) f)%string.
Proof.
  induction f as [|c f IH]; intros [|k] Hk; simpl in *; try lia.
  - reflexivity.
  - now rewrite substring_full.
  - now rewrite <- IH by lia.
Qed.

Lemma endswith_spec (f suffix : string) :
  endswith f suffix = true <-> exists pre, f = (pre ++ suffix)%string.
Proof.
  unfold endswith. split.
  - intros H. apply andb_prop in H. destruct H as [Hle Heq].
    apply Nat.leb_le in Hle. apply String.eqb_eq in Heq.
    exists (substring 0 (String.length f - String.length suffix) f).
    rewrite <- Heq at 2.
    pose proof (substring_split f (String.length f - String.length suffix)) as Hs.
    replace (String.length f - (String.length f - String.length suffix))%nat
      with (String.length suffix) in Hs by lia.
    apply Hs. lia.
  - intros [pre ->]. rewrite string_length_app.
    apply andb_true_intro. split; [apply Nat.leb_le; lia|].
    replace (String.length pre + String.length suffix - String.length suffix)%nat
      with (String.length pre) by lia.
    rewrite substring_suffix. apply String.eqb_refl.
Qed.

(** X1. Without a random seed [_get_file_list] returns the names of the
    listing that end with the extension (all of them when no extension is
    given), each as often as the listing has it, in ascending order. *)
Theorem get_file_list_sorted_matching (volpath : string) (ext : option string) :
  let files := _get_file_list volpath ext None in
  StronglySorted (fun a b => String.leb a b = true) files
  /\ Permutation files
                 (filter (fun f => match ext with
                                   | None => true
                                   | Some e => endswith f e
                                   end)
                         (os_listdir volpath))
  /\ forall f, In f files
               <-> In f (os_listdir volpath)
                   /\ match ext with
                      | None => True
                      | Some e => exists pre, f = (pre ++ e)%string
                      end.
Proof.
  unfold _get_file_list. cbv zeta. split; [|split].
  - apply filter_strongly, sorted_strongly.
  - apply filter_perm, Permutation_sym, sorted_perm.
  - intros f. rewrite filter_In.
    assert (Hm : (match ext with
                  | None => true
                  | Some e => endswith f e
                  end) = true
                 <-> match ext with
                     | None => True
                     | Some e => exists pre, f = (pre ++ e)%string
                     end).
    { destruct ext as [e|]; [apply endswith_spec|]. split; auto. }
    rewrite Hm.
    split; intros [Hin Hpre]; split; auto.
    + eapply Permutation_in; [apply Permutation_sym, sorted_perm|exact Hin].
    + eapply Permutation_in; [apply sorted_perm|exact Hin].
Qed.

End FileListProperties.

(** ** Error paths and unchecked sizes of [patch] *)
Section PatchErrorProperties.
Context {A : Type} `{Ext : Externals A}.

Lemma categorical_prep_negative (vol_data : ndarray A) nb keep ps :
  nb < 0 -> _categorical_prep vol_data nb keep ps = inl (AssertionError "").
Proof.
  intros H. unfold _categorical_prep.
  destruct (Z.ltb_spec 1 nb); [lia|].
  destruct (Z.eqb_spec nb 1); [lia|].
  destruct (Z.eqb_spec nb 0); [lia|]. reflexivity.
Qed.

Lemma prep_patch_negative (args : PatchArgs A) raw :
  pa_nb_labels_reshape args < 0 ->
  (forall ax, pa_collapse_2d args = Some ax -> exists sq, squeeze raw ax = inr sq) ->
  prep_patch args raw = inl (AssertionError "").
Proof.
  intros Hnb Hsq. unfold prep_patch.
  destruct (pa_collapse_2d args) as [ax|].
  - destruct (Hsq ax eq_refl) as [sq ->]. cbn [bind].
    apply categorical_prep_negative, Hnb.
  - cbn [bind ok]. apply categorical_prep_negative, Hnb.
Qed.

Lemma prep_patch_plain (args : PatchArgs A) raw :
  pa_collapse_2d args = None ->
  pa_nb_labels_reshape args = 0 ->
  prep_patch args raw = inr (expand_dims_first raw).
Proof.
  intros Hc Hnb. unfold prep_patch, _categorical_prep. rewrite Hc, Hnb. reflexivity.
Qed.

Lemma patch_while_first_fails fuel (g : PatchGen A) raw rest e empty_gen :
  prep_patch (pg_args g) raw = inl e ->
  patch_while fuel g (raw :: rest) empty_gen = Some (Raised e).
Proof.
  intros H. destruct fuel; cbn [patch_while patch_for]; rewrite H; reflexivity.
Qed.

Lemma patch_first_next (args : PatchArgs A) fuel :
  1 <= pa_batch_size args ->
  patch_send fuel None (patch args)
  = if pa_variable_batch_size args
    then Some (Yielded None (mk_PatchGen args PcHandshake (Some (pa_batch_size args))
                                         (-1) None))
    else patch_while fuel (patch args) (new_gen args) (is_nil (new_gen args)).
Proof.
  intros HB. unfold patch_send. cbn [patch pg_pc pg_args pg_batch_size pg_batch_idx
                                           pg_patch_data_batch].
  destruct (Z.leb_spec 1 (pa_batch_size args)); [|lia]. reflexivity.
Qed.

(** X2. A negative [nb_labels_reshape] fails the assertion of
    [_categorical_prep] on the first patch: the first pull of a fixed-size
    patch stream raises [AssertionError] and the stream yields nothing. *)
Theorem patch_negative_labels_raises (args : PatchArgs A) (fuel : nat) raw rest :
  pa_nb_labels_reshape args < 0 ->
  1 <= pa_batch_size args ->
  pa_variable_batch_size args = false ->
  new_gen args = raw :: rest ->
  (forall ax, pa_collapse_2d args = Some ax -> exists sq, squeeze raw ax = inr sq) ->
  patch_send fuel None (patch args) = Some (Raised (AssertionError ""))
  /\ gen_drain (S fuel) (patch args) = Some ([], Some (AssertionError "")).
Proof.
  intros Hnb HB Hvar Hgen Hsq.
  assert (H : patch_send fuel None (patch args) = Some (Raised (AssertionError ""))).
  { rewrite patch_first_next by exact HB. rewrite Hvar, Hgen.
    apply patch_while_first_fails. apply prep_patch_negative; assumption. }
  split; [exact H|]. rewrite gen_drain_S, H. reflexivity.
Qed.

(** X3. Resuming a negotiated stream with [next()] after the handshake
    leaves the batch size unset: the first patch of a non-empty grid raises
    [TypeError] at the comparison with [batch_size - 1], and no batch is
    yielded. *)
Theorem negotiated_next_raises_type_error (args : PatchArgs A) (fuel : nat)
        raw rest l :
  pa_variable_batch_size args = true ->
  1 <= pa_batch_size args ->
  new_gen args = raw :: rest ->
  prep_patch args raw = inr l ->
  exists g,
    patch_send fuel None (patch args) = Some (Yielded None g)
    /\ patch_send fuel None g = Some (Raised TypeError).
Proof.
  intros Hvar HB Hgen Hl. eexists. split.
  - rewrite patch_first_next by exact HB. rewrite Hvar. reflexivity.
  - unfold patch_send. cbn [pg_pc pg_args]. rewrite Hgen.
    destruct fuel; cbn [patch_while patch_for set_batch_size pg_args pg_batch_idx
                                    pg_batch_size pg_patch_data_batch];
      rewrite Hl; reflexivity.
Qed.

(** The [for] loop with a target size the batch has already passed: the
    comparison with [batch_size - 1] never holds, every patch is stacked
    and nothing is yielded. *)
Lemma patch_for_overrun rest :
  forall (g : PatchGen A) c s,
    pg_batch_size g = Some s ->
    pg_batch_idx g = Z.of_nat c - 1 ->
    batch_ok c (pg_patch_data_batch g) ->
    preps_ok (pg_args g) rest ->
    s <= Z.of_nat c ->
    exists g', patch_for g rest = ForDone g'
               /\ pg_args g' = pg_args g
               /\ pg_batch_size g' = Some s
               /\ pg_batch_idx g' = Z.of_nat (c + length rest) - 1
               /\ batch_ok (c + length rest) (pg_patch_data_batch g').
Proof.
  induction rest as [|raw rest IH]; intros g c s Hs Hidx Hb Hp Hle.
  - simpl. rewrite Nat.add_0_r. exists g. repeat split; auto.
  - inversion Hp as [|? ? [l Hl] Hp']; subst.
    simpl patch_for. rewrite Hl. pose proof (prep_patch_size _ _ _ Hl) as Hsz.
    assert (Hst : exists pb,
               (if pg_batch_idx g =? -1 then ok l
                else match pg_patch_data_batch g with
                     | Some b => ok (vstack b l)
                     | None => raise (UnboundLocalError "patch_data_batch")
                     end) = inr pb /\ realized_size pb = S c).
    { destruct (Z.eqb_spec (pg_batch_idx g) (-1)) as [E|E].
      - exists l. split; auto. assert (c = 0%nat) by lia. subst. auto.
      - destruct Hb as [->|[b [Hb1 Hb2]]]; [simpl in Hidx; lia|].
        rewrite Hb1. exists (vstack b l). split; auto.
        rewrite vstack_size. lia. }
    destruct Hst as [pb [-> Hpb]]. rewrite Hs, Hidx.
    replace (Z.of_nat c - 1 + 1) with (Z.of_nat c) by lia.
    destruct (Z.eqb_spec (Z.of_nat c) (s - 1)) as [E|E]; [lia|].
    specialize (IH (mk_PatchGen (pg_args g) (pg_pc g) (Some s) (Z.of_nat c)
                                (Some pb)) (S c) s).
    assert (Hle' : s <= Z.of_nat (S c)) by lia.
    assert (Hi' : Z.of_nat c = Z.of_nat (S c) - 1) by lia.
    specialize (IH eq_refl Hi' (or_intror (ex_intro _ pb (conj eq_refl Hpb)))
                   Hp' Hle').
    cbn [pg_args pg_pc pg_batch_size pg_batch_idx pg_patch_data_batch] in IH.
    replace (c + length (raw :: rest))%nat with (S c + length rest)%nat
      by (simpl; lia).
    exact IH.
Qed.

(** X4. The assertion [batch_size >= 1] covers the argument only: over a
    non-empty grid whose patches all pass the preparation, a size below 1
    sent to a finite negotiated stream is accepted, no batch is ever
    complete, and the whole grid of [N] patches comes back as the one
    trailing batch, after which the stream has stopped. *)
Theorem negotiated_nonpositive_size_finite (args : PatchArgs A) (fuel : nat) (s : Z) :
  pa_variable_batch_size args = true ->
  pa_infinite args = false ->
  1 <= pa_batch_size args ->
  (1 <= length (new_gen args))%nat ->
  preps_ok args (new_gen args) ->
  s <= 0 ->
  exists g b g',
    patch_send fuel None (patch args) = Some (Yielded None g)
    /\ patch_send fuel (Some s) g = Some (Yielded (Some b) g')
    /\ realized_size b = length (new_gen args)
    /\ forall sent, patch_send fuel sent g' = Some Stopped.
Proof.
  intros Hvar Hinf HB HN Hp Hs.
  set (g := mk_PatchGen args PcHandshake (Some (pa_batch_size args)) (-1) None).
  destruct (patch_for_overrun (new_gen args) (set_batch_size g (Some s)) 0%nat s)
    as [g' [H1 [H2 [H3 [H4 H5]]]]]; simpl; auto; try lia.
  { left; reflexivity. }
  cbn [set_batch_size pg_args g] in H2.
  destruct H5 as [H5|[b [H5 H6]]]; [simpl in H5; lia|].
  exists g, b, (mk_PatchGen (pg_args g') PcFinal (pg_batch_size g')
                            (pg_batch_idx g') (pg_patch_data_batch g')).
  split; [|split; [|split]].
  - rewrite patch_first_next by exact HB. rewrite Hvar. reflexivity.
  - unfold patch_send. cbn [pg_pc pg_args g].
    assert (Hnil : is_nil (new_gen args) = false)
      by (destruct (new_gen args); [simpl in HN; lia|reflexivity]).
    rewrite Hnil.
    destruct fuel; cbn [patch_while]; rewrite H1, H2, Hinf, H4; cbn [negb];
      (destruct (Z.leb_spec 0 (Z.of_nat (0 + length (new_gen args)) - 1));
       [|simpl in *; lia]); rewrite H5; reflexivity.
  - exact H6.
  - intros sent. reflexivity.
Qed.

(** An infinite stream whose target size is already passed starts pass
    after pass without yielding. *)
Lemma overrun_diverges fuel :
  forall (g : PatchGen A) c s rest,
    pa_infinite (pg_args g) = true ->
    pg_batch_size g = Some s ->
    pg_batch_idx g = Z.of_nat c - 1 ->
    batch_ok c (pg_patch_data_batch g) ->
    preps_ok (pg_args g) rest ->
    preps_ok (pg_args g) (new_gen (pg_args g)) ->
    (1 <= length (new_gen (pg_args g)))%nat ->
    s <= Z.of_nat c ->
    patch_while fuel g rest false = None.
Proof.
  induction fuel as [|f IH]; intros g c s rest Hinf Hs Hidx Hb Hp Hpg HN Hle;
    destruct (patch_for_overrun rest g c s Hs Hidx Hb Hp Hle)
    as [g' [H1 [H2 [H3 [H4 H5]]]]];
    cbn [patch_while]; rewrite H1, H2, Hinf; cbn [negb]; [reflexivity|].
  assert (Hnil : is_nil (new_gen (pg_args g)) = false)
    by (destruct (new_gen (pg_args g)); [simpl in HN; lia|reflexivity]).
  rewrite Hnil. rewrite <- H2 in *.
  apply (IH g' (c + length rest)%nat s); auto. lia.
Qed.

(** X5. Over a non-empty grid whose patches all pass the preparation, a
    size below 1 sent to an infinite negotiated stream is never answered:
    whatever the bound on the passes over the grid, the resume is still
    running, stacking patches without yielding. *)
Theorem negotiated_nonpositive_size_diverges (args : PatchArgs A) (s : Z) :
  pa_variable_batch_size args = true ->
  pa_infinite args = true ->
  1 <= pa_batch_size args ->
  (1 <= length (new_gen args))%nat ->
  preps_ok args (new_gen args) ->
  s <= 0 ->
  exists g,
    (forall fuel, patch_send fuel None (patch args) = Some (Yielded None g))
    /\ forall fuel, patch_send fuel (Some s) g = None.
Proof.
  intros Hvar Hinf HB HN Hp Hs.
  exists (mk_PatchGen args PcHandshake (Some (pa_batch_size args)) (-1) None).
  split; intros fuel.
  - rewrite patch_first_next by exact HB. rewrite Hvar. reflexivity.
  - unfold patch_send. cbn [pg_pc pg_args].
    assert (Hnil : is_nil (new_gen args) = false)
      by (destruct (new_gen args); [simpl in HN; lia|reflexivity]).
    rewrite Hnil.
    apply (overrun_diverges fuel _ 0%nat s); simpl; auto; try lia.
    left; reflexivity.
Qed.

End PatchErrorProperties.

(** ** What the batches of [patch] hold *)
Section PatchContentProperties.
Context {A : Type} `{Ext : Externals A}.

Lemma patch_while_finite_eq fuel (g : PatchGen A) rest :
  pa_infinite (pg_args g) = false ->
  patch_while fuel g rest false
  = match patch_for g rest with
    | ForYield b g' => Some (Yielded (Some b) g')
    | ForRaised e => Some (Raised e)
    | ForDone g' =>
        if 0 <=? pg_batch_idx g' then
          match pg_patch_data_batch g' with
          | Some b => Some (Yielded (Some b)
                              (mk_PatchGen (pg_args g') PcFinal (pg_batch_size g')
                                           (pg_batch_idx g') (pg_patch_data_batch g')))
          | None => Some (Raised (UnboundLocalError "patch_data_batch"))
          end
        else Some Stopped
    end.
Proof.
  intros Hinf. pose proof (patch_for_shape rest g) as Hsh.
  destruct fuel; cbn [patch_while]; destruct (patch_for g rest) as [b g'|e|g'];
    try reflexivity; rewrite Hsh, Hinf; reflexivity.
Qed.

(** The [for] loop keeps every prepared patch, in order: a yielded batch is
    the pending samples followed by the patches consumed so far, and a loop
    that runs out leaves all of them pending. *)
Lemma patch_for_data rest :
  forall preps (g : PatchGen A) s,
    Forall2 (prepared (pg_args g)) rest preps ->
    pg_batch_size g = Some s ->
    -1 <= pg_batch_idx g ->
    (pg_batch_idx g <> -1 -> exists b, pg_patch_data_batch g = Some b) ->
    match patch_for g rest with
    | ForYield b g' =>
        exists pre post rest',
          preps = pre ++ post
          /\ Forall2 (prepared (pg_args g)) rest' post
          /\ g' = mk_PatchGen (pg_args g) (PcLoop rest') (Some s) (-1) (Some b)
          /\ data b = pending_data g ++ concat (map data pre)
          /\ (length rest' < length rest)%nat
    | ForRaised _ => False
    | ForDone g' =>
        pg_args g' = pg_args g
        /\ pending_data g' = pending_data g ++ concat (map data preps)
        /\ (rest = [] -> g' = g)
        /\ (rest <> [] ->
            0 <= pg_batch_idx g' /\ exists b, pg_patch_data_batch g' = Some b)
    end.
Proof.
  induction rest as [|raw rest IH]; intros preps g s Hp Hs Hidx Hb.
  - inversion Hp; subst. simpl. rewrite app_nil_r. repeat split; auto.
    congruence.
  - inversion Hp as [|? l ? preps' Hl Hp']; subst. unfold prepared in Hl.
    cbn [patch_for]. rewrite Hl.
    assert (Hst : exists pb,
               (if pg_batch_idx g =? -1 then ok l
                else match pg_patch_data_batch g with
                     | Some b => ok (vstack b l)
                     | None => raise (UnboundLocalError "patch_data_batch")
                     end) = inr pb /\ data pb = pending_data g ++ data l).
    { unfold pending_data. destruct (Z.eqb_spec (pg_batch_idx g) (-1)) as [E|E].
      - exists l. split; reflexivity.
      - destruct (Hb E) as [b ->]. exists (vstack b l). split; reflexivity. }
    destruct Hst as [pb [-> Hpb]]. rewrite Hs.
    destruct (Z.eqb_spec (pg_batch_idx g + 1) (s - 1)) as [E|E].
    + exists [l], preps', rest.
      split; [reflexivity|]. split; [exact Hp'|]. split; [reflexivity|].
      split; [|simpl; lia].
      simpl. rewrite app_nil_r. exact Hpb.
    + specialize (IH preps' (mk_PatchGen (pg_args g) (pg_pc g) (Some s)
                                         (pg_batch_idx g + 1) (Some pb)) s).
      cbn [pg_args pg_pc pg_batch_size pg_batch_idx pg_patch_data_batch] in IH.
      specialize (IH Hp' eq_refl ltac:(lia) ltac:(intros _; eexists; reflexivity)).
      assert (Hpd : pending_data (mk_PatchGen (pg_args g) (pg_pc g) (Some s)
                                              (pg_batch_idx g + 1) (Some pb))
                    = pending_data g ++ data l).
      { unfold pending_data at 1.
        cbn [pg_batch_idx pg_patch_data_batch].
        destruct (Z.eqb_spec (pg_batch_idx g + 1) (-1)); [lia|]. exact Hpb. }
      rewrite Hpd in IH.
      destruct (patch_for _ rest) as [b g'|e|g'].
      * destruct IH as [pre [post [rest' [H1 [H2 [H3 [H4 H5]]]]]]].
        exists (l :: pre), post, rest'.
        split; [simpl; rewrite H1; reflexivity|]. split; [exact H2|].
        split; [exact H3|]. split; [|simpl; lia].
        rewrite H4. simpl. rewrite <- app_assoc. reflexivity.
      * exact IH.
      * destruct IH as [H1 [H2 [H3 H4]]].
        split; [exact H1|]. split; [|split].
        -- rewrite H2. simpl. rewrite <- app_assoc. reflexivity.
        -- intros H; discriminate.
        -- intros _. destruct rest as [|r rest'].
           ++ rewrite H3 by reflexivity.
              cbn [pg_batch_idx pg_patch_data_batch].
              split; [lia|eexists; reflexivity].
           ++ apply H4. discriminate.
Qed.

(** Draining a finite fixed-size stream from an empty batch hands out the
    prepared patches that are left, in order and once each. *)
Lemma drain_data n :
  forall rest preps f (g : PatchGen A) s,
    (length rest <= n)%nat ->
    pa_infinite (pg_args g) = false ->
    pa_variable_batch_size (pg_args g) = false ->
    pg_batch_size g = Some s -> pg_batch_idx g = -1 ->
    Forall2 (prepared (pg_args g)) rest preps ->
    (n + 2 <= f)%nat ->
    exists items,
      drain_after f (patch_while f g rest false) = Some (map Some items, None)
      /\ concat (map data items) = concat (map data preps).
Proof.
  induction n as [|n IH]; intros rest preps f g s Hlen Hinf Hvar Hs Hidx Hp Hf;
    rewrite patch_while_finite_eq by exact Hinf;
    pose proof (patch_for_data rest preps g s Hp Hs ltac:(lia)
                               ltac:(intros H; contradiction)) as H;
    assert (Hpd : pending_data g = [])
      by (unfold pending_data; rewrite Hidx; reflexivity);
    rewrite Hpd in H; cbn [app] in H.
  - destruct rest; [|simpl in Hlen; lia]. inversion Hp; subst.
    cbn [patch_for]. rewrite Hidx. simpl. exists []. split; reflexivity.
  - destruct (patch_for g rest) as [b g'|e|g']; [| contradiction |].
    + destruct H as [pre [post [rest' [H1 [H2 [H3 [H4 H5]]]]]]].
      unfold drain_after. destruct f as [|f']; [lia|]. rewrite gen_drain_S.
      subst g'. unfold patch_send. cbn [pg_pc pg_args]. rewrite Hvar.
      destruct (IH rest' post f'
                   (mk_PatchGen (pg_args g) (PcLoop rest') (Some s) (-1) (Some b)) s)
        as [items [Hd Hc]]; cbn [pg_args pg_batch_size pg_batch_idx]; auto; try lia.
      rewrite Hd. exists (b :: items). split; [reflexivity|].
      simpl. rewrite Hc, H4, H1, map_app, concat_app. reflexivity.
    + destruct H as [H1 [H2 [H3 H4]]].
      destruct rest as [|raw rest'].
      * rewrite (H3 eq_refl), Hidx. inversion Hp; subst.
        simpl. exists []. split; reflexivity.
      * destruct H4 as [H4 [b H5]]; [discriminate|].
        destruct (Z.leb_spec 0 (pg_batch_idx g')); [|lia].
        rewrite H5. unfold drain_after.
        destruct f as [|f']; [lia|]. rewrite gen_drain_S.
        unfold patch_send. cbn [pg_pc drain_after].
        exists [b]. split; [reflexivity|].
        simpl. rewrite app_nil_r. rewrite <- H2.
        unfold pending_data. destruct (Z.eqb_spec (pg_batch_idx g') (-1)); [lia|].
        rewrite H5. reflexivity.
Qed.

(** X6. A finite fixed-size patch stream hands out every prepared patch of
    the grid exactly once and in grid order: the samples of the yielded
    batches, in order, are the samples of the prepared patches, in order. *)
Theorem patch_yields_every_patch_once (args : PatchArgs A) (fuel : nat) preps :
  pa_variable_batch_size args = false ->
  pa_infinite args = false ->
  1 <= pa_batch_size args ->
  (1 <= length (new_gen args))%nat ->
  Forall2 (prepared args) (new_gen args) preps ->
  (length (new_gen args) + 3 <= fuel)%nat ->
  exists batches,
    gen_drain fuel (patch args) = Some (map Some batches, None)
    /\ concat (map data batches) = concat (map data preps).
Proof.
  intros Hvar Hinf HB HN Hp Hf.
  destruct fuel as [|f]; [lia|]. rewrite gen_drain_S.
  rewrite patch_first_next by exact HB. rewrite Hvar.
  assert (Hnil : is_nil (new_gen args) = false)
    by (destruct (new_gen args); [simpl in HN; lia|reflexivity]).
  rewrite Hnil.
  apply (drain_data (length (new_gen args)) (new_gen args) preps f (patch args)
                    (pa_batch_size args)); auto; lia.
Qed.

(** After a yield, each further pull of an infinite fixed-size stream
    gives a batch of the fixed size. *)
Lemma next_each_infinite fuel n :
  forall (g : PatchGen A) rest B,
    pa_variable_batch_size (pg_args g) = false ->
    pa_infinite (pg_args g) = true ->
    pg_batch_size g = Some B ->
    pg_batch_idx g = -1 ->
    pg_pc g = PcLoop rest ->
    preps_ok (pg_args g) rest ->
    preps_ok (pg_args g) (new_gen (pg_args g)) ->
    (1 <= length (new_gen (pg_args g)))%nat ->
    1 <= B < Z.of_nat fuel ->
    exists outs,
      next_each fuel n g = Some outs
      /\ map outcome_size outs = repeat (Some (Z.to_nat B)) n.
Proof.
  induction n as [|n IH]; intros g rest B Hvar Hinf Hs Hidx Hpc Hrest Hp HN HB.
  - exists []. split; reflexivity.
  - destruct (resume_infinite fuel g rest B Hinf Hs Hidx Hrest Hp HN HB)
      as [b [rest' [Hw [Hb Hrest']]]].
    cbn [next_each]. unfold patch_send. rewrite Hpc, Hvar, Hw.
    destruct (IH (mk_PatchGen (pg_args g) (PcLoop rest') (Some B) (-1) (Some b))
                 rest' B) as [outs [Ho Hm]]; cbn [pg_args pg_pc pg_batch_size
                                                   pg_batch_idx]; auto.
    rewrite Ho. eexists. split; [reflexivity|].
    simpl. rewrite Hb, Hm. reflexivity.
Qed.

(** X7. An infinite fixed-size patch stream over a non-empty grid whose
    patches all pass the preparation never stops: each of any number of
    pulls gives a batch of exactly [batch_size] patches, the grid being
    restarted in the middle of a batch when it runs out. *)
Theorem patch_infinite_batches (args : PatchArgs A) (fuel n : nat) :
  pa_variable_batch_size args = false ->
  pa_infinite args = true ->
  1 <= pa_batch_size args < Z.of_nat fuel ->
  (1 <= length (new_gen args))%nat ->
  preps_ok args (new_gen args) ->
  exists outs,
    next_each fuel n (patch args) = Some outs
    /\ map outcome_size outs = repeat (Some (Z.to_nat (pa_batch_size args))) n.
Proof.
  intros Hvar Hinf HB HN Hp.
  destruct n as [|n]; [exists []; split; reflexivity|].
  cbn [next_each]. rewrite patch_first_next by lia. rewrite Hvar.
  assert (Hnil : is_nil (new_gen args) = false)
    by (destruct (new_gen args); [simpl in HN; lia|reflexivity]).
  rewrite Hnil.
  destruct (pass_infinite fuel (patch args) 0%nat (pa_batch_size args))
    as [b [rest' [Hw [Hb Hrest']]]]; cbn [patch pg_args pg_batch_size pg_batch_idx
                                                pg_patch_data_batch]; auto; try lia.
  { left; reflexivity. }
  cbn [patch pg_args] in Hw. rewrite Hw.
  destruct (next_each_infinite fuel n
              (mk_PatchGen args (PcLoop rest') (Some (pa_batch_size args)) (-1) (Some b))
              rest' (pa_batch_size args))
    as [outs [Ho Hm]]; cbn [pg_args pg_pc pg_batch_size pg_batch_idx]; auto.
  rewrite Ho. eexists. split; [reflexivity|].
  simpl. rewrite Hb, Hm. reflexivity.
Qed.

End PatchContentProperties.

(** ** The file cycle of [vol] *)
Section VolCycleProperties.
Context {A : Type} `{Ext : Externals A}.

Lemma np_mod_add_l (a b c : Z) : np_mod (np_mod a c + b) c = np_mod (a + b) c.
Proof.
  unfold np_mod. destruct (Z.eqb_spec c 0); [reflexivity|].
  apply Z.add_mod_idemp_l. assumption.
Qed.

(** What opening a file does to the variables: only the file index and the
    patch geometry change. *)
Lemma vol_open_vars fuel (args : VolArgs A) l fname v1 items stop :
  vol_open fuel args l = Some (inr (fname, v1, items, stop)) ->
  vv_fileidx v1 = np_mod (vv_fileidx (vl_vars l) + 1) (vl_nb_restart_cycle l)
  /\ vv_batch_idx v1 = vv_batch_idx (vl_vars l)
  /\ vv_feat_idx v1 = vv_feat_idx (vl_vars l)
  /\ vv_vol_data_batch v1 = vv_vol_data_batch (vl_vars l)
  /\ vv_vol_data_feats v1 = vv_vol_data_feats (vl_vars l)
  /\ exists vol_data ps st,
      gen_drain fuel (vol_patch_gen args vol_data ps st) = Some (items, stop).
Proof.
  unfold vol_open. intros H.
  destruct (vol_load args (vl_volfiles l)
                     (np_mod (vv_fileidx (vl_vars l) + 1) (vl_nb_restart_cycle l)))
    as [e|[fn vd]]; [discriminate|].
  match type of H with
  | context [gen_drain ?f ?g] => destruct (gen_drain f g) as [[its st]|] eqn:Hd;
                                 [|discriminate]
  end.
  cbn [ok] in H. inversion H; subst. cbn.
  repeat split; try reflexivity. eauto.
Qed.

(** A successful iteration went through [vol_open] and the [for] loop. *)
Lemma vol_file_ok fuel (args : VolArgs A) l ys v' :
  vol_file fuel args l = Some (ys, inr v') ->
  exists fname v1 items,
    vol_open fuel args l = Some (inr (fname, v1, items, None))
    /\ vol_for args (vl_nb_restart_cycle l) fname v1 items = (ys, inr v').
Proof.
  unfold vol_file. intros H.
  destruct (vol_open fuel args l) as [[e|[[[fname v1] items] stop]]|];
    try discriminate.
  destruct (vol_for args (vl_nb_restart_cycle l) fname v1 items) as [ys1 [e|v2]]
    eqn:Hfor; [discriminate|].
  cbn [bind] in H. destruct stop; [discriminate|].
  destruct (is_nil items); [discriminate|]. inversion H; subst.
  exists fname, v1, items. split; [reflexivity|exact Hfor].
Qed.

Lemma vol_file_fileidx fuel (args : VolArgs A) l ys v' :
  vol_file fuel args l = Some (ys, inr v') ->
  vv_fileidx v' = np_mod (vv_fileidx (vl_vars l) + 1) (vl_nb_restart_cycle l).
Proof.
  intros H. destruct (vol_file_ok _ _ _ _ _ H) as [fname [v1 [items [Ho Hf]]]].
  destruct (vol_open_vars _ _ _ _ _ _ _ Ho) as [H1 _].
  destruct (vol_for_keeps_patch_size _ _ _ _ _ _ _ Hf) as [_ [_ H2]].
  congruence.
Qed.

Lemma vol_run_fileidx n :
  forall fuel (args : VolArgs A) l ys v',
    vol_run (S n) fuel args l = Some (ys, inr v') ->
    vv_fileidx v'
    = np_mod (vv_fileidx (vl_vars l) + 1 + Z.of_nat n) (vl_nb_restart_cycle l).
Proof.
  induction n as [|n IH]; intros fuel args l ys v' H;
    cbn [vol_run] in H;
    destruct (vol_file fuel args l) as [[ys1 [e|v1]]|] eqn:Hf; try discriminate;
    pose proof (vol_file_fileidx _ _ _ _ _ Hf) as Hi.
  - inversion H; subst. rewrite Z.add_0_r. exact Hi.
  - match type of H with
    | context [match ?r with _ => _ end] => destruct r as [[ys2 r2]|] eqn:Hr
    end; [|discriminate].
    inversion H; subst.
    change (match vol_file fuel args
                    (mk_VolLoop (vl_volfiles l) (vl_nb_restart_cycle l) v1) with
            | Some (ys, inl e) => Some (ys, inl e)
            | Some (ys, inr v) =>
                match vol_run n fuel args
                        (mk_VolLoop (vl_volfiles l) (vl_nb_restart_cycle l) v) with
                | Some (ys', r) => Some (ys ++ ys', r)
                | None => None
                end
            | None => None
            end)
      with (vol_run (S n) fuel args
                    (mk_VolLoop (vl_volfiles l) (vl_nb_restart_cycle l) v1)) in Hr.
    rewrite (IH _ _ _ _ _ Hr). cbn [vl_vars vl_nb_restart_cycle].
    rewrite Hi, <- Z.add_assoc, np_mod_add_l. f_equal. lia.
Qed.

Lemma vol_opened_length n :
  forall fuel (args : VolArgs A) l ys v',
    vol_run n fuel args l = Some (ys, inr v') ->
    length (vol_opened n fuel args l) = n.
Proof.
  induction n as [|n IH]; intros fuel args l ys v' H; [reflexivity|].
  cbn [vol_run vol_opened] in *.
  destruct (vol_file fuel args l) as [[ys1 [e|v1]]|] eqn:Hf; try discriminate.
  destruct (vol_file_ok _ _ _ _ _ Hf) as [fname [v0 [items [Ho _]]]].
  rewrite Ho.
  match type of H with
  | context [match ?r with _ => _ end] => destruct r as [[ys2 r2]|] eqn:Hr
  end; [|discriminate].
  inversion H; subst. simpl. rewrite (IH _ _ _ _ _ Hr). reflexivity.
Qed.

(** The name opened in iteration [j] is the entry of the file list at the
    cycle position of that iteration. *)
Lemma vol_opened_nth n :
  forall fuel (args : VolArgs A) l j fname,
    nth_error (vol_opened n fuel args l) j = Some fname ->
    py_index (vl_volfiles l)
             (np_mod (vv_fileidx (vl_vars l) + 1 + Z.of_nat j) (vl_nb_restart_cycle l))
    = inr fname.
Proof.
  induction n as [|n IH]; intros fuel args l j fname H; cbn [vol_opened] in H.
  - destruct j; discriminate.
  - destruct (vol_open fuel args l) as [[e|[[[fn v0] items] stop]]|] eqn:Ho;
      try (destruct j; discriminate).
    assert (H0 : py_index (vl_volfiles l)
                          (np_mod (vv_fileidx (vl_vars l) + 1 + 0)
                                  (vl_nb_restart_cycle l)) = inr fn).
    { rewrite Z.add_0_r. eapply vol_open_fname; eauto. }
    destruct (vol_file fuel args l) as [[ys1 [e|v1]]|] eqn:Hf.
    + destruct j as [|[|j]]; try discriminate. inversion H; subst. exact H0.
    + destruct j as [|j]; simpl in H.
      * inversion H; subst. exact H0.
      * specialize (IH _ _ _ _ _ H).
        cbn [vl_vars vl_volfiles vl_nb_restart_cycle] in IH.
        rewrite (vol_file_fileidx _ _ _ _ _ Hf) in IH.
        rewrite <- Z.add_assoc, np_mod_add_l in IH.
        rewrite <- IH. f_equal. f_equal. lia.
    + destruct j as [|[|j]]; try discriminate. inversion H; subst. exact H0.
Qed.

(** X8. The file cycle: as long as the iterations succeed, iteration [j]
    (from 0) of [vol] opens the entry of the file list at index
    [(fileidx0 + 1 + j) mod nb_restart_cycle], that is [j mod
    nb_restart_cycle] from the start, and the variables end on the index of
    the last one; with a restart cycle of at least 1 every index used lies
    below [nb_restart_cycle]. *)
Theorem vol_file_cycle (n : nat) :
  forall fuel (args : VolArgs A) (l : VolLoop A) ys v',
    vol_run n fuel args l = Some (ys, inr v') ->
    length (vol_opened n fuel args l) = n
    /\ (forall j fname,
           nth_error (vol_opened n fuel args l) j = Some fname ->
           py_index (vl_volfiles l)
                    (np_mod (vv_fileidx (vl_vars l) + 1 + Z.of_nat j)
                            (vl_nb_restart_cycle l))
           = inr fname)
    /\ ((1 <= n)%nat ->
        vv_fileidx v' = np_mod (vv_fileidx (vl_vars l) + Z.of_nat n)
                               (vl_nb_restart_cycle l))
    /\ (1 <= vl_nb_restart_cycle l ->
        forall j fname,
          nth_error (vol_opened n fuel args l) j = Some fname ->
          exists i, 0 <= i < vl_nb_restart_cycle l
                    /\ py_index (vl_volfiles l) i = inr fname).
Proof.
  intros fuel args l ys v' H.
  split; [eapply vol_opened_length; exact H|].
  split; [intros j fname Hj; eapply vol_opened_nth; exact Hj|]. split.
  - intros Hn. destruct n as [|n]; [lia|].
    rewrite (vol_run_fileidx n _ _ _ _ _ H). f_equal. lia.
  - intros Hc j fname Hj. eexists. split; [|eapply vol_opened_nth; exact Hj].
    unfold np_mod. destruct (Z.eqb_spec (vl_nb_restart_cycle l) 0); [lia|].
    apply Z.mod_pos_bound. lia.
Qed.

Lemma vol_run_last n :
  forall fuel (args : VolArgs A) l ys v,
    vol_run n fuel args l = Some (ys, inr v) ->
    vol_run (S n) fuel args l
    = match vol_file fuel args
                     (mk_VolLoop (vl_volfiles l) (vl_nb_restart_cycle l) v) with
      | None => None
      | Some (ys', r) => Some (ys ++ ys', r)
      end.
Proof.
  induction n as [|n IH]; intros fuel args l ys v H.
  - cbn [vol_run] in *. inversion H; subst. destruct l as [fs c v]. cbn.
    destruct (vol_file fuel args (mk_VolLoop fs c v)) as [[ys1 [e|v1]]|];
      try reflexivity.
    rewrite app_nil_r. reflexivity.
  - remember (S n) as m. cbn [vol_run]. subst m.
    cbn [vol_run] in H.
    destruct (vol_file fuel args l) as [[ys1 [e|v1]]|] eqn:Hf; try discriminate.
    match type of H with
    | context [match ?r with _ => _ end] => destruct r as [[ys2 r2]|] eqn:Hr
    end; [|discriminate].
    inversion H; subst.
    rewrite (IH _ _ _ _ _ Hr). cbn [vl_volfiles vl_nb_restart_cycle].
    destruct (vol_file fuel args (mk_VolLoop (vl_volfiles l) (vl_nb_restart_cycle l) v))
      as [[ys3 r3]|]; [|reflexivity].
    rewrite app_assoc. reflexivity.
Qed.

(** X9. The restart-cycle assertion admits a cycle longer than the file
    list when a file has several patches; the loop then indexes the file
    list with the cycle position, so once every file has been read the
    next iteration raises [IndexError] without yielding. *)
Theorem vol_cycle_beyond_files (fuel : nat) (args : VolArgs A) (l : VolLoop A) ys v' :
  vv_fileidx (vl_vars l) = -1 ->
  Z.of_nat (length (vl_volfiles l)) < vl_nb_restart_cycle l ->
  vol_run (length (vl_volfiles l)) fuel args l = Some (ys, inr v') ->
  vol_run (S (length (vl_volfiles l))) fuel args l = Some (ys, inl IndexError).
Proof.
  intros Hx Hc Hrun. rewrite (vol_run_last _ _ _ _ _ _ Hrun).
  assert (Hidx : np_mod (vv_fileidx v' + 1) (vl_nb_restart_cycle l)
                 = Z.of_nat (length (vl_volfiles l))).
  { destruct (length (vl_volfiles l)) as [|n] eqn:Hn.
    - cbn [vol_run] in Hrun. inversion Hrun; subst. rewrite Hx.
      unfold np_mod. destruct (Z.eqb_spec (vl_nb_restart_cycle l) 0); [lia|].
      simpl. apply Z.mod_0_l. assumption.
    - rewrite (vol_run_fileidx n _ _ _ _ _ Hrun), Hx, np_mod_add_l.
      replace (-1 + 1 + Z.of_nat n + 1) with (Z.of_nat (S n)) by lia.
      unfold np_mod. destruct (Z.eqb_spec (vl_nb_restart_cycle l) 0); [lia|].
      apply Z.mod_small. lia. }
  unfold vol_file, vol_open, vol_load.
  cbn [vl_vars vl_volfiles vl_nb_restart_cycle]. rewrite Hidx.
  assert (Hpy : py_index (vl_volfiles l) (Z.of_nat (length (vl_volfiles l)))
                = inl IndexError).
  { unfold py_index.
    destruct (Z.ltb_spec (Z.of_nat (length (vl_volfiles l))) 0); [lia|].
    destruct (Z.leb_spec (Z.of_nat (length (vl_volfiles l)))
                         (Z.of_nat (length (vl_volfiles l)))); [|lia].
    rewrite orb_true_r. reflexivity. }
  rewrite Hpy. cbn [bind]. rewrite app_nil_r. reflexivity.
Qed.

End VolCycleProperties.

(** ** The batches of [vol] *)
Section VolBatchProperties.
Context {A : Type} `{Ext : Externals A}.

(** A finite stream with batch size 1 resumed with an empty batch yields one
    prepared patch and stays in that state. *)
Lemma patch_while_unit fuel (g : PatchGen A) rest empty_gen :
  pa_infinite (pg_args g) = false ->
  pg_batch_size g = Some 1 ->
  pg_batch_idx g = -1 ->
  match patch_while fuel g rest empty_gen with
  | Some (Yielded v g') =>
      unit_item v
      /\ pg_args g' = pg_args g /\ pg_batch_size g' = Some 1
      /\ pg_batch_idx g' = -1 /\ exists rest', pg_pc g' = PcLoop rest'
  | _ => True
  end.
Proof.
  intros Hinf Hs Hidx.
  destruct rest as [|raw rest].
  - destruct fuel; cbn [patch_while patch_for]; destruct empty_gen; auto;
      rewrite Hinf, Hidx; cbn; auto.
  - destruct fuel; cbn [patch_while patch_for];
      destruct (prep_patch (pg_args g) raw) as [e|lp] eqn:Hl; auto;
      rewrite Hidx, Hs; cbn;
      (repeat split; eauto); exists lp; split; auto;
      eapply prep_patch_size; eauto.
Qed.

Lemma drain_unit_items f :
  forall (g : PatchGen A) items stop,
    pa_variable_batch_size (pg_args g) = false ->
    pa_infinite (pg_args g) = false ->
    pg_batch_size g = Some 1 ->
    pg_batch_idx g = -1 ->
    pg_pc g <> PcHandshake ->
    gen_drain f g = Some (items, stop) ->
    Forall unit_item items.
Proof.
  induction f as [|f IH]; intros g items stop Hvar Hinf Hs Hidx Hpc H;
    [discriminate|].
  rewrite gen_drain_S in H.
  assert (Hstep : match patch_send f None g with
                  | Some (Yielded v g') =>
                      unit_item v
                      /\ pg_args g' = pg_args g /\ pg_batch_size g' = Some 1
                      /\ pg_batch_idx g' = -1 /\ exists rest', pg_pc g' = PcLoop rest'
                  | _ => True
                  end).
  { unfold patch_send. destruct (pg_pc g) as [| |rest| |]; auto.
    - destruct (negb (1 <=? pa_batch_size (pg_args g))); auto.
      rewrite Hvar. apply patch_while_unit; auto.
    - contradiction.
    - rewrite Hvar. apply patch_while_unit; auto. }
  destruct (patch_send f None g) as [[v g'|e|]|]; cbn [drain_after] in H;
    try discriminate.
  - destruct Hstep as [Hv [Ha [Hs' [Hi' [rest' Hpc']]]]].
    destruct (gen_drain f g') as [[items' stop']|] eqn:Hd; [|discriminate].
    inversion H; subst. constructor; [exact Hv|].
    eapply (IH g'); eauto; try congruence.
  - inversion H; subst. constructor.
  - inversion H; subst. constructor.
Qed.

Lemma np_mod_1 (a : Z) : np_mod a 1 = 0.
Proof. unfold np_mod. simpl. apply Z.mod_1_r. Qed.

(** The loop body on one patch when features are not grouped: the row
    count of the batch follows the counter, and a yielded batch holds
    between 1 and [batch_size] rows. *)
Lemma vol_body_batch_size (args : VolArgs A) c fname v item v' y :
  va_nb_feats args = 1 ->
  1 <= va_batch_size args ->
  batch_count_inv (va_batch_size args) v ->
  unit_item item ->
  vol_body args c fname v item = inr (v', y) ->
  batch_count_inv (va_batch_size args) v'
  /\ match y with
     | Some b => batch_size_ok (va_batch_size args)
                               (va_yield_incomplete_final_batch args) b
     | None => True
     end.
Proof.
  intros Hk HB [Hrange Hrows] [p [-> Hp]] H. unfold vol_body in H.
  destruct (existsb isnan (data p)); [discriminate|].
  destruct (negb (forallb isfinite (data p))); [discriminate|].
  rewrite Hk, !np_mod_1 in H. cbn [Z.eqb bind ok] in H.
  assert (Hst : exists b,
             (if vv_batch_idx v =? -1 then ok p
              else match vv_vol_data_batch v with
                   | Some b => ok (vstack b p)
                   | None => raise (UnboundLocalError "vol_data_batch")
                   end) = inr b
             /\ Z.of_nat (realized_size b) = vv_batch_idx v + 2).
  { destruct (Z.eqb_spec (vv_batch_idx v) (-1)) as [E|E].
    - exists p. split; [reflexivity|]. rewrite Hp, E. reflexivity.
    - destruct (Hrows E) as [b [-> Hb]]. exists (vstack b p).
      split; [reflexivity|]. rewrite vstack_size, Hp. lia. }
  destruct Hst as [b [Hst Hb]]. rewrite Hst in H. cbn [bind] in H. unfold ok in H.
  destruct (Z.eqb_spec (vv_batch_idx v + 1) (va_batch_size args - 1)) as [E|E];
    cbn [orb] in H.
  - inversion H; subst.
    unfold batch_count_inv, batch_size_ok; cbn [vv_batch_idx vv_vol_data_batch].
    split.
    + split; [lia|]. intros F; contradiction.
    + split; [lia|]. intros _. lia.
  - destruct (va_yield_incomplete_final_batch args
              && (np_mod (vv_fileidx v + 1) c =? 0)) eqn:Hfinal;
      inversion H; subst;
      unfold batch_count_inv, batch_size_ok; cbn [vv_batch_idx vv_vol_data_batch].
    + split.
      * split; [lia|]. intros F; contradiction.
      * split; [lia|]. intros Hinc. rewrite Hinc in Hfinal. discriminate.
    + split; [|exact I]. split; [lia|].
      intros _. exists b. split; [reflexivity|]. lia.
Qed.

Lemma vol_for_batch_size (args : VolArgs A) c fname items :
  forall v ys r,
    va_nb_feats args = 1 ->
    1 <= va_batch_size args ->
    batch_count_inv (va_batch_size args) v ->
    Forall unit_item items ->
    vol_for args c fname v items = (ys, r) ->
    Forall (batch_size_ok (va_batch_size args)
                          (va_yield_incomplete_final_batch args)) ys
    /\ forall v', r = inr v' -> batch_count_inv (va_batch_size args) v'.
Proof.
  induction items as [|item items IH]; intros v ys r Hk HB Hinv Hit H;
    cbn [vol_for] in H.
  - inversion H; subst. split; [constructor|]. intros v' E. inversion E; subst. auto.
  - inversion Hit as [|? ? Hi Hit']; subst.
    destruct (vol_body args c fname v item) as [e|[v1 y]] eqn:Hb.
    + inversion H; subst. split; [constructor|]. intros v' E. discriminate.
    + destruct (vol_body_batch_size _ _ _ _ _ _ _ Hk HB Hinv Hi Hb) as [Hinv1 Hy].
      destruct (vol_for args c fname v1 items) as [ys1 r1] eqn:Hf.
      destruct (IH _ _ _ Hk HB Hinv1 Hit' Hf) as [Hys Hr].
      inversion H; subst. split; [|exact Hr].
      destruct y; [constructor|]; assumption.
Qed.

Lemma vol_file_batch_size fuel (args : VolArgs A) l ys r :
  va_nb_feats args = 1 ->
  1 <= va_batch_size args ->
  batch_count_inv (va_batch_size args) (vl_vars l) ->
  vol_file fuel args l = Some (ys, r) ->
  Forall (batch_size_ok (va_batch_size args)
                        (va_yield_incomplete_final_batch args)) ys
  /\ forall v', r = inr v' -> batch_count_inv (va_batch_size args) v'.
Proof.
  intros Hk HB Hinv H. unfold vol_file in H.
  destruct (vol_open fuel args l) as [[e|[[[fname v1] items] stop]]|] eqn:Ho;
    try discriminate.
  - inversion H; subst. split; [constructor|]. intros v' E; discriminate.
  - destruct (vol_open_vars _ _ _ _ _ _ _ Ho)
      as [_ [H2 [_ [H4 [_ [vd [ps [st Hd]]]]]]]].
    assert (Hinv1 : batch_count_inv (va_batch_size args) v1).
    { unfold batch_count_inv in *. rewrite H2, H4. exact Hinv. }
    assert (Hit : Forall unit_item items).
    { eapply drain_unit_items; [| | | | |exact Hd]; try reflexivity.
      discriminate. }
    destruct (vol_for args (vl_nb_restart_cycle l) fname v1 items) as [ys1 r1] eqn:Hf.
    destruct (vol_for_batch_size _ _ _ _ _ _ _ Hk HB Hinv1 Hit Hf) as [Hys Hr].
    inversion H; subst. split; [exact Hys|].
    intros v' E. destruct r1 as [e|v2]; [discriminate|]. cbn [bind] in E.
    destruct stop; [discriminate|]. destruct (is_nil items); [discriminate|].
    inversion E; subst. apply Hr. reflexivity.
Qed.

Lemma vol_run_batch_size n :
  forall fuel (args : VolArgs A) l ys r,
    va_nb_feats args = 1 ->
    1 <= va_batch_size args ->
    batch_count_inv (va_batch_size args) (vl_vars l) ->
    vol_run n fuel args l = Some (ys, r) ->
    Forall (batch_size_ok (va_batch_size args)
                          (va_yield_incomplete_final_batch args)) ys.
Proof.
  induction n as [|n IH]; intros fuel args l ys r Hk HB Hinv H; cbn [vol_run] in H.
  - inversion H; subst. constructor.
  - destruct (vol_file fuel args l) as [[ys1 r1]|] eqn:Hf; [|discriminate].
    destruct (vol_file_batch_size _ _ _ _ _ Hk HB Hinv Hf) as [Hys Hr].
    destruct r1 as [e|v1].
    + inversion H; subst. exact Hys.
    + match type of H with
      | context [match ?x with _ => _ end] => destruct x as [[ys2 r2]|] eqn:Hrun
      end; [|discriminate].
      inversion H; subst. apply Forall_app. split; [exact Hys|].
      eapply IH; [exact Hk|exact HB| |exact Hrun].
      cbn [vl_vars]. apply Hr. reflexivity.
Qed.

(** What the prologue hands to the loop. *)
Lemma vol_init_vars (args : VolArgs A) l :
  vol_init args = inr l ->
  vl_volfiles l = _get_file_list (va_volpath args) (Some (va_ext args))
                                 (va_rand_seed_vol args)
  /\ vl_nb_restart_cycle l = match va_nb_restart_cycle args with
                             | None => Z.of_nat (length (vl_volfiles l))
                             | Some c => c
                             end
  /\ vl_vars l = mk_VolVars (-1) (-1) 0 (va_patch_size args) (va_patch_stride args)
                            None None.
Proof.
  unfold vol_init. intros H.
  destruct (negb (0 <? Z.of_nat (length (_get_file_list (va_volpath args)
                                           (Some (va_ext args))
                                           (va_rand_seed_vol args)))));
    [discriminate|].
  unfold bind in H.
  repeat match type of H with
         | match ?c with _ => _ end = _ => destruct c; try discriminate
         end.
  inversion H; subst. cbn. auto.
Qed.

(** X10. With ungrouped features ([nb_feats = 1]) and a batch size
    [B >= 1], every batch [vol] yields stacks at least one and at most [B]
    patches, and exactly [B] when [yield_incomplete_final_batch] is off;
    this holds for the batches yielded before an error as well. *)
Theorem vol_batch_size_bound (args : VolArgs A) (n fuel : nat) ys r :
  va_nb_feats args = 1 ->
  1 <= va_batch_size args ->
  vol args n fuel = Some (ys, r) ->
  Forall (fun y => 1 <= Z.of_nat (realized_size y) <= va_batch_size args) ys
  /\ (va_yield_incomplete_final_batch args = false ->
      Forall (fun y => Z.of_nat (realized_size y) = va_batch_size args) ys).
Proof.
  intros Hk HB H. unfold vol in H.
  assert (Hys : Forall (batch_size_ok (va_batch_size args)
                                      (va_yield_incomplete_final_batch args)) ys).
  { destruct (vol_init args) as [e|l] eqn:Hinit.
    - inversion H; subst. constructor.
    - destruct (vol_init_vars _ _ Hinit) as [_ [_ Hv]].
      eapply vol_run_batch_size; [exact Hk|exact HB| |exact H].
      rewrite Hv. split; cbn; [lia|]. intros F; contradiction. }
  split.
  - eapply Forall_impl; [|exact Hys]. intros y [Hy _]. exact Hy.
  - intros Hinc. eapply Forall_impl; [|exact Hys]. intros y [_ Hy]. auto.
Qed.

Lemma filter_none {X} (p : X -> bool) (l : list X) :
  (forall x, In x l -> p x = false) -> filter p l = [].
Proof.
  induction l as [|x l IH]; intros H; simpl; [reflexivity|].
  rewrite (H x (or_introl eq_refl)). apply IH. intros y Hy. apply H. right. exact Hy.
Qed.

(** X11. When no name of the directory listing ends with the extension,
    the first pull of an unseeded [vol] fails the assertion on the number
    of files, before any file is read and with nothing yielded. *)
Theorem vol_no_files_raises (args : VolArgs A) (n fuel : nat) :
  va_rand_seed_vol args = None ->
  (forall pre, ~ In (pre ++ va_ext args)%string (os_listdir (va_volpath args))) ->
  vol args n fuel
  = Some ([], inl (AssertionError ("Could not find any files at " ++ va_volpath args
                                   ++ " with extension " ++ va_ext args)%string)).
Proof.
  intros Hseed Hno. unfold vol, vol_init, _get_file_list. rewrite Hseed.
  rewrite filter_none; [reflexivity|].
  intros f Hin. destruct (endswith f (va_ext args)) eqn:He; [|reflexivity].
  apply endswith_spec in He. destruct He as [pre ->]. exfalso.
  apply (Hno pre). eapply Permutation_in; [apply Permutation_sym, sorted_perm|].
  exact Hin.
Qed.

End VolBatchProperties.

(** ** Relabelling with repeated entries *)
Section RelabelProperties.
Context {A : Type} `{Ext : Externals A}.

Lemma relabel_voxel_last (relabel : list A) (v : A) :
  (forall x y, sample_eqb x y = true <-> x = y) ->
  forall k j c,
    nth_error relabel k = Some v ->
    (forall k', (k < k')%nat -> nth_error relabel k' <> Some v) ->
    fold_left (fun c iv => if sample_eqb v (snd iv) then sample_of_nat (fst iv) else c)
              (combine (seq j (length relabel)) relabel) c
    = sample_of_nat (j + k).
Proof.
  intros Heq. induction relabel as [|val rl IH]; intros k j c Hk Hlast.
  - destruct k; discriminate.
  - simpl. destruct k as [|k]; simpl in Hk.
    + inversion Hk; subst.
      assert (E : sample_eqb v v = true) by (apply Heq; reflexivity).
      rewrite E. rewrite relabel_voxel_miss; [f_equal; lia|exact Heq|].
      intros Hin. apply In_nth_error in Hin. destruct Hin as [m Hm].
      apply (Hlast (S m)); [lia|exact Hm].
    + rewrite (IH k (S j)); [f_equal; lia|exact Hk|].
      intros k' Hk'. apply (Hlast (S k')). lia.
Qed.

(** X12. When the relabel array repeats a value, the loop over its entries
    overwrites earlier assignments: a voxel holding that value ends up with
    the index of the last entry equal to it. *)
Theorem relabel_last_entry_wins (relabel : list A) (vol_data : ndarray A) i v k :
  (forall x y, sample_eqb x y = true <-> x = y) ->
  nth_error (data vol_data) i = Some v ->
  nth_error relabel k = Some v ->
  (forall k', (k < k')%nat -> nth_error relabel k' <> Some v) ->
  nth_error (data (relabel_vol relabel vol_data)) i = Some (sample_of_nat k).
Proof.
  intros Heq Hi Hk Hlast. unfold relabel_vol. cbn [shape data].
  rewrite relabel_fold by reflexivity. rewrite nth_error_map.
  rewrite (nth_error_combine_self _ _ _ Hi). cbn [option_map fst snd].
  f_equal. apply (relabel_voxel_last relabel v Heq k 0%nat v Hk Hlast).
Qed.

End RelabelProperties.

(** ** The paired generators *)
Section PairedProperties.
Context {A : Type} `{Ext : Externals A}.
Context (astype_float16 astype_int8 : ndarray A -> ndarray A).

(** An iteration of [vol] whose first patch fails its preparation raises
    that error and yields nothing. *)
Lemma vol_file_first_prep_fails fuel (args : VolArgs A) l fname vol_data raw rest e :
  vol_load args (vl_volfiles l)
           (np_mod (vv_fileidx (vl_vars l) + 1) (vl_nb_restart_cycle l))
  = inr (fname, vol_data) ->
  patch_gen vol_data
            (match vv_patch_size (vl_vars l) with
             | None => shape vol_data
             | Some ps => ps
             end)
            (match vv_patch_size (vl_vars l) with
             | None => StrideAxes (map (fun _ => 1%nat) (shape vol_data))
             | Some _ => vv_patch_stride (vl_vars l)
             end) = raw :: rest ->
  (forall ps st, prep_patch (pg_args (vol_patch_gen args vol_data ps st)) raw = inl e) ->
  vol_file (S fuel) args l = Some ([], inl e).
Proof.
  intros Hload Hgen Hprep. unfold vol_file, vol_open. rewrite Hload.
  rewrite gen_drain_S. unfold vol_patch_gen.
  rewrite patch_first_next by (cbn; lia).
  cbn [pa_variable_batch_size].
  unfold new_gen, eff_patch_size.
  cbn [pa_vol_data pa_patch_size pa_patch_stride].
  rewrite Hgen. rewrite patch_while_first_fails with (e := e); [reflexivity|].
  apply (Hprep _ _).
Qed.

(** X13. [vol_seg] passes its [nb_labels_reshape], -1 by default, to the
    segmentation stream, where the first patch fails the assertion of
    [_categorical_prep]: once the first segmentation file is loaded and cut,
    that stream raises [AssertionError] without a batch, so [vol_seg] yields
    no pair, and its first pull raises as soon as the volume stream has
    given its batch. *)
Theorem vol_seg_negative_labels_never_yields (a : VolSegArgs A) l fname vol_data
        raw rest (n fuel : nat) :
  vs_nb_labels_reshape a < 0 ->
  vol_init (vol_seg_seg_args a) = inr l ->
  vol_load (vol_seg_seg_args a) (vl_volfiles l) (np_mod 0 (vl_nb_restart_cycle l))
  = inr (fname, vol_data) ->
  patch_gen vol_data
            (match vs_patch_size a with
             | None => shape vol_data
             | Some ps => ps
             end)
            (match vs_patch_size a with
             | None => StrideAxes (map (fun _ => 1%nat) (shape vol_data))
             | Some _ => vs_patch_stride a
             end) = raw :: rest ->
  vol (vol_seg_seg_args a) (S n) (S fuel) = Some ([], inl (AssertionError ""))
  /\ (forall pairs,
         vol_seg_pairs astype_float16 astype_int8 a (S n) (S fuel) = Some pairs ->
         pairs = [])
  /\ (forall input_vol xs r,
         vol (vol_seg_vol_args a) (S n) (S fuel) = Some (input_vol :: xs, r) ->
         vol_seg_first astype_float16 astype_int8 a (S n) (S fuel)
         = Some (inl (AssertionError ""))).
Proof.
  intros Hnb Hinit Hload Hgen.
  assert (Hseg : vol (vol_seg_seg_args a) (S n) (S fuel)
                 = Some ([], inl (AssertionError ""))).
  { unfold vol. rewrite Hinit. cbn [vol_run].
    destruct (vol_init_vars _ _ Hinit) as [_ [_ Hv]].
    rewrite (vol_file_first_prep_fails fuel _ l fname vol_data raw rest
                                       (AssertionError "")); [reflexivity| | |].
    - rewrite Hv. cbn [vv_fileidx]. exact Hload.
    - rewrite Hv. cbn [vv_patch_size vv_patch_stride vol_seg_seg_args
                                     va_patch_size va_patch_stride]. exact Hgen.
    - intros ps st. apply prep_patch_negative.
      + cbn. exact Hnb.
      + cbn. intros ax F. discriminate. }
  split; [exact Hseg|]. split.
  - intros pairs H. unfold vol_seg_pairs in H. rewrite Hseg in H.
    destruct (vol (vol_seg_vol_args a) (S n) (S fuel)) as [[xs r]|]; [|discriminate].
    inversion H; subst. destruct (map astype_float16 xs); reflexivity.
  - intros input_vol xs r H. unfold vol_seg_first. rewrite H, Hseg. reflexivity.
Qed.

Lemma prod_shape_app (s t : list nat) :
  prod_shape (s ++ t) = (prod_shape s * prod_shape t)%nat.
Proof.
  induction s as [|x s IH]; simpl; [lia|]. rewrite IH. lia.
Qed.

Lemma py_index_first {X} (x : X) (l : list X) : py_index (x :: l) 0 = inr x.
Proof.
  unfold py_index. cbn [Z.ltb Z.compare].
  destruct (Z.leb_spec (Z.of_nat (length (x :: l))) 0); [cbn [length] in *; lia|].
  reflexivity.
Qed.

Lemma py_index_last {X} (l : list X) (x : X) : py_index (l ++ [x]) (-1) = inr x.
Proof.
  unfold py_index. cbn [Z.ltb Z.compare]. rewrite length_app. cbn [length].
  destruct (Z.ltb_spec (-1 + Z.of_nat (length l + 1)) 0); [lia|].
  destruct (Z.leb_spec (Z.of_nat (length l + 1)) (-1 + Z.of_nat (length l + 1)));
    [lia|].
  cbn [orb]. replace (Z.to_nat (-1 + Z.of_nat (length l + 1))) with (length l) by lia.
  rewrite nth_error_app2 by lia. rewrite Nat.sub_diag. reflexivity.
Qed.

(** X14. On a batch with at least three axes whose samples fill its shape,
    the reshape of [seg_seg] always succeeds: the second component of the
    pair has the shape (rows, product of the middle axes, channels) and the
    samples of the input in the same order. *)
Theorem seg_seg_flattens (input_vol : ndarray A) n m mid c :
  shape input_vol = n :: m :: mid ++ [c] ->
  length (data input_vol) = prod_shape (shape input_vol) ->
  seg_seg_pair input_vol
  = inr (input_vol, mk_ndarray [n; prod_shape (m :: mid); c] (data input_vol)).
Proof.
  intros Hsh Hlen. unfold seg_seg_pair. rewrite Hsh.
  rewrite py_index_first. cbn [bind].
  change (n :: m :: mid ++ [c]) with ((n :: m :: mid) ++ [c]).
  rewrite py_index_last. cbn [bind]. rewrite removelast_last. cbn [tl].
  unfold reshape. rewrite Hlen, Hsh.
  assert (E : prod_shape [n; prod_shape (m :: mid); c]
              = prod_shape (n :: m :: mid ++ [c])).
  { change (n :: m :: mid ++ [c]) with ([n] ++ (m :: mid) ++ [c]).
    rewrite !prod_shape_app. cbn [prod_shape fold_right]. lia. }
  rewrite E, Nat.eqb_refl. reflexivity.
Qed.

(** X15. The prior generator of [vol_seg_prior] on a four-axis prior: with
    the default scalar [patch_stride] the comparison of lengths raises
    [TypeError] before any pair is pulled; with a stride per axis of the
    length of the patch size, a batch size of at least 1, no [collapse_2d]
    and a non-empty prior grid, the prior stream is negotiated and
    infinite, and for every pair whose segmentation batch has at least one
    row the prior batch has as many rows as that batch. *)
Theorem vol_seg_prior_coupling (prior_vol : ndarray A) (patch_size : option (list nat))
        (batch_size : Z) :
  ndim prior_vol = 4%nat ->
  (forall s collapse_2d,
      vol_seg_prior_patch_args prior_vol patch_size (StrideScalar s)
                               batch_size collapse_2d
      = inl TypeError)
  /\ (forall st prior_args fuel (pairs : list (ndarray A * ndarray A)),
         vol_seg_prior_patch_args prior_vol patch_size (StrideAxes st)
                                  batch_size None
         = inr prior_args ->
         1 <= batch_size ->
         (1 <= length (new_gen prior_args))%nat ->
         Forall (fun p => (1 <= realized_size (snd p) < fuel)%nat) pairs ->
         exists outs,
           vol_seg_prior_batches fuel prior_args pairs = Some outs
           /\ map outcome_size outs
              = map (fun p => Some (realized_size (snd p))) pairs).
Proof.
  intros Hnd.
  assert (Hch : exists c, py_index (shape prior_vol) (-1) = inr c).
  { unfold ndim in Hnd. destruct (shape prior_vol) as [|x1 [|x2 [|x3 [|x4 [|]]]]];
      try discriminate.
    exists x4. apply (py_index_last [x1; x2; x3] x4). }
  destruct Hch as [c Hc]. split.
  - intros s collapse_2d. unfold vol_seg_prior_patch_args. rewrite Hc. cbn [bind].
    rewrite Hnd. reflexivity.
  - intros st prior_args fuel pairs Hargs HB HN Hsz.
    unfold vol_seg_prior_patch_args in Hargs. rewrite Hc in Hargs. cbn [bind] in Hargs.
    rewrite Hnd in Hargs. cbn [Nat.eqb negb] in Hargs.
    match type of Hargs with
    | (if ?b then _ else _) = _ => destruct b; [discriminate|]
    end.
    injection Hargs as Hpa.
    assert (Hvar : pa_variable_batch_size prior_args = true)
      by (rewrite <- Hpa; reflexivity).
    assert (Hinf : pa_infinite prior_args = true) by (rewrite <- Hpa; reflexivity).
    assert (Hbs : pa_batch_size prior_args = batch_size)
      by (rewrite <- Hpa; reflexivity).
    assert (Hcol : pa_collapse_2d prior_args = None) by (rewrite <- Hpa; reflexivity).
    assert (Hnb : pa_nb_labels_reshape prior_args = 0)
      by (rewrite <- Hpa; reflexivity).
    clear Hpa.
    assert (Hp : preps_ok prior_args (new_gen prior_args)).
    { unfold preps_ok. apply Forall_forall. intros raw _.
      exists (expand_dims_first raw). apply prep_patch_plain; assumption. }
    unfold vol_seg_prior_batches, negotiate.
    rewrite patch_first_next by (rewrite Hbs; lia). rewrite Hvar.
    destruct (send_each_infinite
                fuel (map (fun p => Z.of_nat (realized_size (snd p))) pairs)
                (mk_PatchGen prior_args PcHandshake (Some (pa_batch_size prior_args))
                             (-1) None))
      as [outs [Ho Hm]]; cbn [pg_args pg_pc pg_batch_idx]; auto.
    { rewrite Forall_map. eapply Forall_impl; [|exact Hsz].
      intros p Hr. cbn beta in *. lia. }
    exists outs. split; [exact Ho|].
    rewrite Hm, map_map. apply map_ext. intros p. rewrite Nat2Z.id. reflexivity.
Qed.

End PairedProperties.

(** ** Unchecked arguments and the last file of the cycle *)
Section VolFlushProperties.
Context {A : Type} `{Ext : Externals A}.

(** X16. When [expected_nb_files] is given and differs from the number of
    listed files, the first pull of [vol] raises the assertion that names
    both numbers, provided the files exist, the first one loads and the
    restart cycle passes its own check. *)
Theorem vol_expected_nb_files_mismatch (args : VolArgs A) name0 rest vol_data
        (n fuel : nat) :
  _get_file_list (va_volpath args) (Some (va_ext args)) (va_rand_seed_vol args)
  = name0 :: rest ->
  load_array (va_volpath args) name0 (va_ext args) = inr vol_data ->
  match va_nb_restart_cycle args with
  | None => Z.of_nat (length (name0 :: rest))
  | Some c => c
  end <= Z.of_nat (length (name0 :: rest)) * patches_per_file args vol_data ->
  0 <= va_expected_nb_files args ->
  va_expected_nb_files args <> Z.of_nat (length (name0 :: rest)) ->
  vol args n fuel
  = Some ([], inl (AssertionError
                     ("number of files do not match: "
                      ++ str_of_Z (Z.of_nat (length (name0 :: rest))) ++ ", "
                      ++ str_of_Z (va_expected_nb_files args))%string)).
Proof.
  intros Hfiles Hload Hc Hexp Hne. unfold vol, vol_init. rewrite Hfiles.
  destruct (Z.ltb_spec 0 (Z.of_nat (length (name0 :: rest))));
    [|cbn [length] in *; lia].
  cbn [negb]. rewrite py_index_first. cbn [bind]. rewrite Hload. cbn [bind].
  fold (patches_per_file args vol_data).
  match goal with
  | |- context [negb (?c <=? ?m)] => destruct (Z.leb_spec c m); [|lia]
  end.
  cbn [negb].
  destruct (Z.leb_spec 0 (va_expected_nb_files args)); [|lia].
  destruct (Z.eqb_spec (Z.of_nat (length (name0 :: rest))) (va_expected_nb_files args));
    [congruence|].
  reflexivity.
Qed.

(** The loop body while the last file of the cycle is open and incomplete
    batches are yielded: every patch completes a sample, and every sample
    is yielded at once. *)
Lemma vol_body_flushes (args : VolArgs A) c fname v item v' y :
  va_nb_feats args = 1 ->
  va_yield_incomplete_final_batch args = true ->
  np_mod (vv_fileidx v + 1) c = 0 ->
  vol_body args c fname v item = inr (v', y) ->
  vv_fileidx v' = vv_fileidx v /\ vv_batch_idx v' = -1
  /\ exists p b, item = Some p /\ y = Some b
                 /\ (vv_batch_idx v = -1 -> b = p).
Proof.
  intros Hk Hinc Hdone H. unfold vol_body in H.
  destruct item as [p|]; [|discriminate].
  destruct (existsb isnan (data p)); [discriminate|].
  destruct (negb (forallb isfinite (data p))); [discriminate|].
  rewrite Hk, !np_mod_1, Hinc, Hdone in H.
  cbn [Z.eqb bind ok andb] in H. rewrite orb_true_r in H.
  destruct (Z.eqb_spec (vv_batch_idx v) (-1)) as [E|E].
  - cbn [bind] in H. inversion H; subst. cbn.
    repeat split; auto. exists p, p. auto.
  - destruct (vv_vol_data_batch v) as [b|]; [|discriminate].
    cbn [bind] in H. inversion H; subst. cbn.
    repeat split; auto. exists p, (vstack b p). repeat split; auto.
    intros F; contradiction.
Qed.

Lemma vol_for_flushes (args : VolArgs A) c fname items :
  forall v ys v',
    va_nb_feats args = 1 ->
    va_yield_incomplete_final_batch args = true ->
    np_mod (vv_fileidx v + 1) c = 0 ->
    vol_for args c fname v items = (ys, inr v') ->
    length ys = length items
    /\ (items <> [] -> vv_batch_idx v' = -1)
    /\ (vv_batch_idx v = -1 -> map Some ys = items).
Proof.
  induction items as [|item items IH]; intros v ys v' Hk Hinc Hdone H;
    cbn [vol_for] in H.
  - inversion H; subst. repeat split; auto. intros F; contradiction.
  - destruct (vol_body args c fname v item) as [e|[v1 y]] eqn:Hb; [discriminate|].
    destruct (vol_body_flushes _ _ _ _ _ _ _ Hk Hinc Hdone Hb)
      as [Hf [Hi [p [b [-> [-> Hp]]]]]].
    destruct (vol_for args c fname v1 items) as [ys1 r1] eqn:Hfor.
    inversion H; subst.
    rewrite <- Hf in Hdone.
    destruct (IH _ _ _ Hk Hinc Hdone Hfor) as [Hlen [Hlast Hall]].
    split; [simpl; rewrite Hlen; reflexivity|]. split.
    + intros _. destruct items as [|it items'].
      * cbn [vol_for] in Hfor. inversion Hfor; subst. exact Hi.
      * apply Hlast. discriminate.
    + intros E. simpl. rewrite (Hp E), (Hall Hi). reflexivity.
Qed.

(** X17. While the last file of the restart cycle is open,
    [files_done] holds for every patch, not only for the last one: with
    [yield_incomplete_final_batch] on and ungrouped features, an iteration
    on that file yields one batch per patch, and when it starts with an
    empty batch each of these batches is a single patch, whatever the
    batch size. *)
Theorem vol_last_file_flushes (fuel : nat) (args : VolArgs A) (l : VolLoop A) ys v' :
  va_nb_feats args = 1 ->
  va_yield_incomplete_final_batch args = true ->
  np_mod (np_mod (vv_fileidx (vl_vars l) + 1) (vl_nb_restart_cycle l) + 1)
         (vl_nb_restart_cycle l) = 0 ->
  vol_file fuel args l = Some (ys, inr v') ->
  exists fname v1 items,
    vol_open fuel args l = Some (inr (fname, v1, items, None))
    /\ length ys = length items
    /\ vv_batch_idx v' = -1
    /\ (vv_batch_idx (vl_vars l) = -1 ->
        map Some ys = items /\ Forall (fun y => realized_size y = 1%nat) ys).
Proof.
  intros Hk Hinc Hdone H.
  destruct (vol_file_ok _ _ _ _ _ H) as [fname [v1 [items [Ho Hf]]]].
  destruct (vol_open_vars _ _ _ _ _ _ _ Ho)
    as [H1 [H2 [_ [_ [_ [vd [ps [st Hd]]]]]]]].
  rewrite <- H1 in Hdone.
  destruct (vol_for_flushes _ _ _ _ _ _ _ Hk Hinc Hdone Hf) as [Hlen [Hlast Hall]].
  exists fname, v1, items. split; [exact Ho|]. split; [exact Hlen|]. split.
  - apply Hlast. intros ->. unfold vol_file in H. rewrite Ho in H.
    cbn in H. discriminate.
  - intros E. rewrite <- H2 in E. specialize (Hall E). split; [exact Hall|].
    assert (Hit : Forall unit_item items).
    { eapply drain_unit_items; [| | | | |exact Hd]; try reflexivity.
      discriminate. }
    rewrite <- Hall in Hit. rewrite Forall_map in Hit.
    eapply Forall_impl; [|exact Hit].
    intros y [p [Hp Hs]]. inversion Hp; subst. exact Hs.
Qed.

(** With a batch size below 1 and incomplete batches off, the loop body
    never yields. *)
Lemma vol_body_no_yield (args : VolArgs A) c fname v item v' y :
  va_batch_size args <= 0 ->
  va_yield_incomplete_final_batch args = false ->
  -1 <= vv_batch_idx v ->
  vol_body args c fname v item = inr (v', y) ->
  y = None /\ -1 <= vv_batch_idx v'.
Proof.
  intros HB Hinc Hidx H. unfold vol_body in H.
  destruct item as [p|]; [|discriminate].
  destruct (existsb isnan (data p)); [discriminate|].
  destruct (negb (forallb isfinite (data p))); [discriminate|].
  rewrite Hinc in H. cbn [andb] in H. rewrite orb_false_r in H.
  destruct (Z.eqb_spec (vv_batch_idx v + 1) (va_batch_size args - 1)); [lia|].
  unfold bind in H.
  repeat match type of H with
         | context [match ?c with _ => _ end] =>
             destruct c eqn:?; try discriminate
         end;
    inversion H; subst; cbn; split; auto; lia.
Qed.

Lemma vol_for_no_yield (args : VolArgs A) c fname items :
  forall v ys r,
    va_batch_size args <= 0 ->
    va_yield_incomplete_final_batch args = false ->
    -1 <= vv_batch_idx v ->
    vol_for args c fname v items = (ys, r) ->
    ys = [] /\ forall v', r = inr v' -> -1 <= vv_batch_idx v'.
Proof.
  induction items as [|item items IH]; intros v ys r HB Hinc Hidx H;
    cbn [vol_for] in H.
  - inversion H; subst. split; [reflexivity|]. intros v' E. inversion E; subst. auto.
  - destruct (vol_body args c fname v item) as [e|[v1 y]] eqn:Hb.
    + inversion H; subst. split; [reflexivity|]. intros v' E; discriminate.
    + destruct (vol_body_no_yield _ _ _ _ _ _ _ HB Hinc Hidx Hb) as [-> Hidx1].
      destruct (vol_for args c fname v1 items) as [ys1 r1] eqn:Hf.
      destruct (IH _ _ _ HB Hinc Hidx1 Hf) as [-> Hr].
      inversion H; subst. split; [reflexivity|exact Hr].
Qed.

Lemma vol_run_no_yield n :
  forall fuel (args : VolArgs A) l ys r,
    va_batch_size args <= 0 ->
    va_yield_incomplete_final_batch args = false ->
    -1 <= vv_batch_idx (vl_vars l) ->
    vol_run n fuel args l = Some (ys, r) ->
    ys = [].
Proof.
  induction n as [|n IH]; intros fuel args l ys r HB Hinc Hidx H; cbn [vol_run] in H.
  - inversion H; reflexivity.
  - destruct (vol_file fuel args l) as [[ys1 r1]|] eqn:Hf; [|discriminate].
    assert (Hfile : ys1 = [] /\ forall v', r1 = inr v' -> -1 <= vv_batch_idx v').
    { unfold vol_file in Hf.
      destruct (vol_open fuel args l) as [[e|[[[fname v1] items] stop]]|] eqn:Ho;
        try discriminate.
      - inversion Hf; subst. split; [reflexivity|]. intros v' E; discriminate.
      - destruct (vol_open_vars _ _ _ _ _ _ _ Ho) as [_ [H2 _]].
        destruct (vol_for args (vl_nb_restart_cycle l) fname v1 items)
          as [ys2 r2] eqn:Hfor.
        destruct (vol_for_no_yield _ _ _ _ _ _ _ HB Hinc ltac:(rewrite H2; exact Hidx)
                                   Hfor) as [-> Hr].
        inversion Hf; subst. split; [reflexivity|].
        intros v' E. destruct r2 as [e|v2]; [discriminate|]. cbn [bind] in E.
        destruct stop; [discriminate|]. destruct (is_nil items); [discriminate|].
        inversion E; subst. apply Hr. reflexivity. }
    destruct Hfile as [-> Hr]. destruct r1 as [e|v1].
    + inversion H; reflexivity.
    + match type of H with
      | context [match ?x with _ => _ end] => destruct x as [[ys2 r2]|] eqn:Hrun
      end; [|discriminate].
      inversion H; subst. cbn [app].
      eapply IH; [exact HB|exact Hinc| |exact Hrun].
      cbn [vl_vars]. apply Hr. reflexivity.
Qed.

(** X18. [vol] does not check its [batch_size]: with a batch size below 1
    and [yield_incomplete_final_batch] off no batch is ever complete, and
    [vol] reads file after file without yielding. *)
Theorem vol_nonpositive_batch_never_yields (args : VolArgs A) (n fuel : nat) ys r :
  va_batch_size args <= 0 ->
  va_yield_incomplete_final_batch args = false ->
  vol args n fuel = Some (ys, r) ->
  ys = [].
Proof.
  intros HB Hinc H. unfold vol in H.
  destruct (vol_init args) as [e|l] eqn:Hinit.
  - inversion H; reflexivity.
  - destruct (vol_init_vars _ _ Hinit) as [_ [_ Hv]].
    eapply vol_run_no_yield; [exact HB|exact Hinc| |exact H].
    rewrite Hv. cbn. lia.
Qed.

End VolFlushProperties.

(** ** The image streams of [img_seg] *)
Section ImageProperties.

Lemma imggen_from_nth (files : list string) (c : Z) (n : nat) :
  forall idx j f,
    nth_error (imggen_from files c idx n) j = Some (inr f) ->
    py_index files (np_mod (idx + 1 + Z.of_nat j) c) = inr f.
Proof.
  induction n as [|n IH]; intros idx j f H; cbn [imggen_from] in H.
  - destruct j; discriminate.
  - destruct (py_index files (np_mod (idx + 1) c)) as [e|f0] eqn:Hp.
    + destruct j as [|[|j]]; discriminate.
    + destruct j as [|j]; simpl in H.
      * inversion H; subst. rewrite Z.add_0_r. exact Hp.
      * specialize (IH _ _ _ H). rewrite <- Z.add_assoc, np_mod_add_l in IH.
        rewrite <- IH. f_equal. f_equal. lia.
Qed.

(** X19. In [img_seg] only the image stream receives [nb_restart_cycle]:
    its pull [j] opens the image at index [j mod nb_restart_cycle], while
    pull [j] of the segmentation stream opens the segmentation at index
    [j mod] the number of segmentation files. *)
Theorem img_seg_streams_cycle_apart (img_files seg_files : list string) (c : Z)
        (n j : nat) fi fs :
  nth_error (fst (img_seg_opened img_files seg_files (Some c) n)) j = Some (inr fi) ->
  nth_error (snd (img_seg_opened img_files seg_files (Some c) n)) j = Some (inr fs) ->
  py_index img_files (np_mod (Z.of_nat j) c) = inr fi
  /\ py_index seg_files (np_mod (Z.of_nat j) (Z.of_nat (length seg_files))) = inr fs.
Proof.
  unfold img_seg_opened, imggen. cbn [fst snd]. intros Hi Hs.
  apply imggen_from_nth in Hi. apply imggen_from_nth in Hs.
  split; [rewrite <- Hi|rewrite <- Hs]; f_equal; f_equal; lia.
Qed.

End ImageProperties.

(** ** Empty grids through [vol] *)
Section EmptyGridInVol.
Context {A : Type} `{Ext : Externals A}.


(** What opening a file drains: the patch generator over the loaded
    volume, with the patch size and stride the variables hold or, when
    none is set, the shape of that volume and stride one. *)
Lemma vol_open_drains fuel (args : VolArgs A) (l : VolLoop A) fname v1 items stop :
  vol_open fuel args l = Some (inr (fname, v1, items, stop)) ->
  exists vol_data,
    vol_load args (vl_volfiles l)
             (np_mod (vv_fileidx (vl_vars l) + 1) (vl_nb_restart_cycle l))
    = inr (fname, vol_data)
    /\ gen_drain
         fuel
         (patch (mk_PatchArgs
                   vol_data
                   (Some (match vv_patch_size (vl_vars l) with
                          | None => shape vol_data
                          | Some ps => ps
                          end))
                   (match vv_patch_size (vl_vars l) with
                    | None => StrideAxes (map (fun _ => 1%nat) (shape vol_data))
                    | Some _ => vv_patch_stride (vl_vars l)
                    end)
                   (va_nb_labels_reshape args) (va_keep_vol_size args) 1
                   (va_collapse_2d args) false false))
       = Some (items, stop).
Proof.
  intros H. unfold vol_open in H.
  destruct (vol_load args (vl_volfiles l)
                     (np_mod (vv_fileidx (vl_vars l) + 1) (vl_nb_restart_cycle l)))
    as [e|[fn vd]]; [discriminate|].
  match type of H with
  | context [gen_drain ?f ?g] => destruct (gen_drain f g) as [[its st]|] eqn:Hd;
                                 [|discriminate]
  end.
  cbn [ok] in H. inversion H; subst.
  exists vd. split; [reflexivity|exact Hd].
Qed.


End EmptyGridInVol.



(** ** The relabelling inside [vol] *)
Section RelabelInVol.
Context {A : Type} `{Ext : Externals A}.

(** C5 (amended).  When [vol] is given a relabel array of distinct entries,
    the volume it cuts into patches is the loaded and processed volume in
    which every voxel equal to the [k]-th entry has become [k], converted
    to a sample, and every voxel equal to no entry is unchanged; shape and
    size are kept. *)
Theorem vol_relabels_loaded_volume (args : VolArgs A) (relabel : list A) :
  (forall x y, sample_eqb x y = true <-> x = y) ->
  NoDup relabel ->
  va_relabel args = Some relabel ->
  (forall volfiles fileidx fname vol_data,
      vol_load args volfiles fileidx = inr (fname, vol_data) ->
      exists loaded,
        py_index volfiles fileidx = inr fname
        /\ load_array (va_volpath args) fname (va_ext args) = inr loaded
        /\ shape vol_data = shape (apply_proc (va_data_proc_fn args) loaded)
        /\ length (data vol_data)
           = length (data (apply_proc (va_data_proc_fn args) loaded))
        /\ forall i v,
            nth_error (data (apply_proc (va_data_proc_fn args) loaded)) i = Some v ->
            (forall k, nth_error relabel k = Some v ->
                       nth_error (data vol_data) i = Some (sample_of_nat k))
            /\ (~ In v relabel -> nth_error (data vol_data) i = Some v))
  /\ (forall fuel (l : VolLoop A) fname v1 items stop,
         vol_open fuel args l = Some (inr (fname, v1, items, stop)) ->
         exists vol_data,
           vol_load args (vl_volfiles l)
                    (np_mod (vv_fileidx (vl_vars l) + 1) (vl_nb_restart_cycle l))
           = inr (fname, vol_data)
           /\ gen_drain
                fuel
                (patch (mk_PatchArgs
                          vol_data
                          (Some (match vv_patch_size (vl_vars l) with
                                 | None => shape vol_data
                                 | Some ps => ps
                                 end))
                          (match vv_patch_size (vl_vars l) with
                           | None => StrideAxes (map (fun _ => 1%nat) (shape vol_data))
                           | Some _ => vv_patch_stride (vl_vars l)
                           end)
                          (va_nb_labels_reshape args) (va_keep_vol_size args) 1
                          (va_collapse_2d args) false false))
              = Some (items, stop)).
Proof.
  intros Heq Hnd Hrel. split.
  - intros volfiles fileidx fname vol_data H. unfold vol_load in H.
    destruct (py_index volfiles fileidx) as [e|nm]; [discriminate|].
    cbn [bind] in H.
    destruct (load_array (va_volpath args) nm (va_ext args)) as [e|loaded] eqn:Hl;
      [discriminate|].
    cbn [bind] in H. rewrite Hrel in H. inversion H; subst.
    exists loaded. split; [reflexivity|]. split; [exact Hl|].
    destruct (relabel_vol_spec relabel (apply_proc (va_data_proc_fn args) loaded)
                               Heq Hnd) as [H1 [H2 H3]].
    split; [exact H1|]. split; [exact H2|exact H3].
  - intros fuel l fname v1 items stop H. unfold vol_open in H.
    destruct (vol_load args (vl_volfiles l)
                       (np_mod (vv_fileidx (vl_vars l) + 1) (vl_nb_restart_cycle l)))
      as [e|[fn vd]]; [discriminate|].
    match type of H with
    | context [gen_drain ?f ?g] => destruct (gen_drain f g) as [[its st]|] eqn:Hd;
                                   [|discriminate]
    end.
    cbn [ok] in H. inversion H; subst.
    exists vd. split; [reflexivity|exact Hd].
Qed.

End RelabelInVol.

Lemma vol_relabels_loaded_volume_witness :
  vol_load (Ext := ZWorld "d" sparse_dir) (relabel_args "d" [0; 5; 9]) ["s.npz"] 0
  = inr ("s.npz", mk_ndarray [2;3]%nat [0; 1; 2; 2; 1; 0])
  /\ option_map (fun r => map (@data Z) (fst r))
                (vol (Ext := ZWorld "d" sparse_dir) (relabel_args "d" [0; 5; 9]) 1 5)
     = Some [[0; 1; 2; 2; 1; 0]]
  /\ forall i v,
      nth_error (data sparse_labels) i = Some v ->
      (forall k, nth_error [0; 5; 9] k = Some v ->
                 nth_error [0; 1; 2; 2; 1; 0] i = Some (Z.of_nat k))
      /\ (~ In v [0; 5; 9] -> nth_error [0; 1; 2; 2; 1; 0] i = Some v).
Proof.
  assert (Hnd : NoDup [0; 5; 9]).
  { repeat constructor; simpl; intuition lia. }
  destruct (vol_relabels_loaded_volume (Ext := ZWorld "d" sparse_dir)
                                       (relabel_args "d" [0; 5; 9]) [0; 5; 9]
                                       Z.eqb_eq Hnd eq_refl)
    as [H1 _].
  assert (Hload : vol_load (Ext := ZWorld "d" sparse_dir) (relabel_args "d" [0; 5; 9])
                           ["s.npz"] 0
                  = inr ("s.npz", mk_ndarray [2;3]%nat [0; 1; 2; 2; 1; 0]))
    by (vm_compute; reflexivity).
  split; [exact Hload|]. split; [vm_compute; reflexivity|].
  destruct (H1 ["s.npz"] 0 "s.npz" (mk_ndarray [2;3]%nat [0; 1; 2; 2; 1; 0]) Hload)
    as [loaded [_ [Hl [_ [_ H3]]]]].
  vm_compute in Hl. inversion Hl; subst loaded. exact H3.
Defined.

Lemma NoDup_map_injective {X Y} (f : X -> Y) (l : list X) :
  (forall x y, f x = f y -> x = y) -> NoDup l -> NoDup (map f l).
Proof.
  intros Hinj. induction 1 as [|x l Hx Hnd IH]; simpl; constructor; auto.
  intros Hin. apply in_map_iff in Hin. destruct Hin as [y [Hy Hin]].
  apply Hinj in Hy. subst. contradiction.
Qed.

Lemma NoDup_snoc {X} (l : list X) (x : X) : NoDup l -> ~ In x l -> NoDup (l ++ [x]).
Proof.
  induction 1 as [|y l Hy Hnd IH]; intros Hx; simpl.
  - constructor; [intros []|constructor].
  - constructor.
    + rewrite in_app_iff. intros [H|[H|[]]]; [contradiction|].
      subst. apply Hx. left. reflexivity.
    + apply IH. intros H. apply Hx. right. exact H.
Qed.

(** C5 as stated fails when the index does not fit the sample type: in an
    8-bit volume the voxel whose label is entry 256 of the relabel array
    becomes 0, not 256. *)
Lemma vol_relabels_loaded_volume_counterexample :
  NoDup wide_relabel
  /\ nth_error wide_relabel 256 = Some 7
  /\ vol_load (Ext := ByteWorld "d" seven_dir) (relabel_args "d" wide_relabel)
              ["s.npz"] 0
     = inr ("s.npz", mk_ndarray [1]%nat [0])
  /\ option_map (fun r => map (@data Z) (fst r))
                (vol (Ext := ByteWorld "d" seven_dir) (relabel_args "d" wide_relabel) 1 5)
     = Some [[0]]
  /\ 0 <> 256.
Proof.
  split; [|split; [|split; [|split]]].
  - unfold wide_relabel. apply NoDup_snoc.
    + apply NoDup_map_injective; [|apply seq_NoDup].
      intros x y H. lia.
    + intros Hin. apply in_map_iff in Hin.
      destruct Hin as [i [Hi _]]. lia.
  - vm_compute. reflexivity.
  - vm_compute. reflexivity.
  - vm_compute. reflexivity.
  - discriminate.
Qed.

(** ** The patch size [vol] fixes on first use *)
Section PatchSizeReuse.
Context {A : Type} `{Ext : Externals A}.

Lemma patch_while_one fuel (g : PatchGen A) raw rest empty_gen :
  pg_batch_size g = Some 1 ->
  pg_batch_idx g = -1 ->
  patch_while fuel g (raw :: rest) empty_gen
  = match prep_patch (pg_args g) raw with
    | inl e => Some (Raised e)
    | inr lp => Some (Yielded (Some lp)
                        (mk_PatchGen (pg_args g) (PcLoop rest) (Some 1) (-1) (Some lp)))
    end.
Proof.
  intros Hs Hidx.
  destruct fuel; cbn [patch_while patch_for];
    destruct (prep_patch (pg_args g) raw) as [e|lp]; try reflexivity;
    rewrite Hidx, Hs; reflexivity.
Qed.

(** With no squeeze and no categorical reshape, every item a finite stream
    of batch size 1 yields is one raw patch with a leading axis of length
    one. *)
Lemma drain_items_shape f :
  forall (g : PatchGen A) items stop ps,
    pa_variable_batch_size (pg_args g) = false ->
    pa_infinite (pg_args g) = false ->
    pa_collapse_2d (pg_args g) = None ->
    pa_nb_labels_reshape (pg_args g) = 0 ->
    pg_batch_size g = Some 1 ->
    pg_batch_idx g = -1 ->
    Forall (fun raw => shape raw = ps) (new_gen (pg_args g)) ->
    match pg_pc g with
    | PcHandshake => False
    | PcLoop rest => Forall (fun raw => shape raw = ps) rest
    | _ => True
    end ->
    gen_drain f g = Some (items, stop) ->
    Forall (fun it => exists p, it = Some p /\ shape p = 1%nat :: ps) items.
Proof.
  induction f as [|f IH];
    intros g items stop ps Hvar Hinf Hc Hnb Hs Hidx Hgen Hpc H; [discriminate|].
  rewrite gen_drain_S in H.
  assert (Hw : forall rest e,
             Forall (fun raw => shape raw = ps) rest ->
             drain_after f (patch_while f g rest e) = Some (items, stop) ->
             Forall (fun it => exists p, it = Some p /\ shape p = 1%nat :: ps) items).
  { intros rest e Hrest Hd. destruct rest as [|raw rest].
    - destruct f; cbn [patch_while patch_for] in Hd; destruct e;
        try (inversion Hd; subst; constructor);
        rewrite Hinf, Hidx in Hd; cbn in Hd; inversion Hd; subst; constructor.
    - rewrite patch_while_one in Hd by assumption.
      rewrite prep_patch_plain in Hd by assumption.
      cbn [drain_after] in Hd.
      destruct (gen_drain f _) as [[items' stop']|] eqn:Hd'; [|discriminate].
      inversion Hd; subst. inversion Hrest as [|? ? Hraw Hrest']; subst.
      constructor.
      + eexists. split; [reflexivity|]. reflexivity.
      + eapply IH; [..|exact Hd']; cbn [pg_args pg_pc pg_batch_size pg_batch_idx];
          auto. }
  unfold patch_send in H. destruct (pg_pc g) as [| |rest| |].
  - destruct (negb (1 <=? pa_batch_size (pg_args g))).
    + inversion H; subst. constructor.
    + rewrite Hvar in H. eapply Hw; [exact Hgen|exact H].
  - contradiction.
  - rewrite Hvar in H. eapply Hw; [exact Hpc|exact H].
  - inversion H; subst. constructor.
  - inversion H; subst. constructor.
Qed.

Lemma patch_gen_shapes (vol_data : ndarray A) psz st :
  Forall (fun raw => shape raw = psz) (patch_gen vol_data psz st).
Proof.
  unfold patch_gen. rewrite Forall_map. apply Forall_forall.
  intros off _. reflexivity.
Qed.

(** Once a patch size is set, every further iteration cuts its volume with
    that patch size and stride. *)
Lemma vol_patches_fixed n :
  forall fuel (args : VolArgs A) (l : VolLoop A) ys v' ps,
    vv_patch_size (vl_vars l) = Some ps ->
    vol_run n fuel args l = Some (ys, inr v') ->
    length (vol_patches n fuel args l) = n
    /\ forall j items,
        nth_error (vol_patches n fuel args l) j = Some items ->
        exists fname vol_data,
          vol_load args (vl_volfiles l)
                   (np_mod (vv_fileidx (vl_vars l) + 1 + Z.of_nat j)
                           (vl_nb_restart_cycle l))
          = inr (fname, vol_data)
          /\ gen_drain fuel
                       (patch (mk_PatchArgs vol_data (Some ps)
                                            (vv_patch_stride (vl_vars l))
                                            (va_nb_labels_reshape args)
                                            (va_keep_vol_size args) 1
                                            (va_collapse_2d args) false false))
             = Some (items, None).
Proof.
  induction n as [|n IH]; intros fuel args l ys v' ps Hps H.
  - split; [reflexivity|]. intros [|j] items Hj; discriminate.
  - cbn [vol_run vol_patches] in *.
    destruct (vol_file fuel args l) as [[ys1 [e|v1]]|] eqn:Hf; try discriminate.
    destruct (vol_file_ok _ _ _ _ _ Hf) as [fname [v0 [items0 [Ho _]]]].
    rewrite Ho.
    match type of H with
    | context [match ?r with _ => _ end] => destruct r as [[ys2 r2]|] eqn:Hr
    end; [|discriminate].
    inversion H; subst.
    destruct (vol_file_sets_patch_size _ _ _ _ _ Hf) as [fn [vd [_ [H1 H2]]]].
    rewrite Hps in H1, H2.
    destruct (IH fuel args (mk_VolLoop (vl_volfiles l) (vl_nb_restart_cycle l) v1)
                 ys2 v' ps H1 Hr) as [Hlen Hnth].
    split; [simpl; rewrite Hlen; reflexivity|].
    intros [|j] items Hj; simpl in Hj.
    + inversion Hj; subst. rewrite Z.add_0_r.
      destruct (vol_open_drains _ _ _ _ _ _ _ Ho) as [vd0 [Hl Hd]].
      rewrite Hps in Hd. exists fname, vd0. split; [exact Hl|exact Hd].
    + destruct (Hnth j items Hj) as [fnj [vdj [Hl Hd]]].
      cbn [vl_vars vl_volfiles vl_nb_restart_cycle] in Hl, Hd.
      rewrite (vol_file_fileidx _ _ _ _ _ Hf) in Hl.
      rewrite <- Z.add_assoc, np_mod_add_l in Hl. rewrite H2 in Hd.
      exists fnj, vdj. split; [|exact Hd].
      rewrite <- Hl. f_equal. f_equal. lia.
Qed.

(** C9.  When [vol] is given no patch size, the first iteration fixes the
    patch size to the shape of the volume it loads, with stride 1 on every
    axis, and every iteration, the first included, cuts the volume it
    loads with that one patch size and stride: its patches are those of
    [patch] called with the shape of the first volume, so that, with no
    squeeze and no categorical reshape, every patch of every file has the
    shape of the first volume behind a leading axis of length one. *)
Theorem vol_patch_size_fixed_once (fuel n : nat) (args : VolArgs A) (l : VolLoop A)
        ys v' :
  vv_patch_size (vl_vars l) = None ->
  vol_run (S n) fuel args l = Some (ys, inr v') ->
  exists fname vol_data0,
    vol_load args (vl_volfiles l)
             (np_mod (vv_fileidx (vl_vars l) + 1) (vl_nb_restart_cycle l))
    = inr (fname, vol_data0)
    /\ vv_patch_size v' = Some (shape vol_data0)
    /\ vv_patch_stride v' = StrideAxes (map (fun _ => 1%nat) (shape vol_data0))
    /\ length (vol_patches (S n) fuel args l) = S n
    /\ forall j items,
        nth_error (vol_patches (S n) fuel args l) j = Some items ->
        exists fname_j vol_data_j,
          vol_load args (vl_volfiles l)
                   (np_mod (vv_fileidx (vl_vars l) + 1 + Z.of_nat j)
                           (vl_nb_restart_cycle l))
          = inr (fname_j, vol_data_j)
          /\ gen_drain fuel
                       (patch (mk_PatchArgs
                                 vol_data_j (Some (shape vol_data0))
                                 (StrideAxes (map (fun _ => 1%nat) (shape vol_data0)))
                                 (va_nb_labels_reshape args)
                                 (va_keep_vol_size args) 1
                                 (va_collapse_2d args) false false))
             = Some (items, None)
          /\ (va_collapse_2d args = None ->
              va_nb_labels_reshape args = 0 ->
              Forall (fun it => exists p, it = Some p
                                          /\ shape p = 1%nat :: shape vol_data0)
                     items).
Proof.
  intros Hnone H.
  cbn [vol_run vol_patches] in *.
  destruct (vol_file fuel args l) as [[ys1 [e|v1]]|] eqn:Hf; try discriminate.
  destruct (vol_file_ok _ _ _ _ _ Hf) as [fname [v0 [items0 [Ho _]]]].
  rewrite Ho.
  match type of H with
  | context [match ?r with _ => _ end] => destruct r as [[ys2 r2]|] eqn:Hr
  end; [|discriminate].
  inversion H; subst.
  destruct (vol_file_sets_patch_size _ _ _ _ _ Hf) as [fn [vd0 [Hl0 [H1 H2]]]].
  rewrite Hnone in H1, H2.
  destruct (vol_patches_fixed
              n fuel args (mk_VolLoop (vl_volfiles l) (vl_nb_restart_cycle l) v1)
              ys2 v' (shape vd0) H1 Hr) as [Hlen Hnth].
  destruct (vol_run_keeps_patch_size
              n fuel args (mk_VolLoop (vl_volfiles l) (vl_nb_restart_cycle l) v1)
              ys2 v' (shape vd0) H1 Hr) as [H3 H4].
  cbn [vl_vars] in H4.
  assert (Hitems : forall vd items,
             gen_drain fuel
                       (patch (mk_PatchArgs
                                 vd (Some (shape vd0))
                                 (StrideAxes (map (fun _ => 1%nat) (shape vd0)))
                                 (va_nb_labels_reshape args)
                                 (va_keep_vol_size args) 1
                                 (va_collapse_2d args) false false))
             = Some (items, None) ->
             va_collapse_2d args = None ->
             va_nb_labels_reshape args = 0 ->
             Forall (fun it => exists p, it = Some p
                                         /\ shape p = 1%nat :: shape vd0)
                    items).
  { intros vd items Hd Hc Hnb.
    eapply drain_items_shape; [..|exact Hd]; cbn; auto.
    apply patch_gen_shapes. }
  destruct (vol_open_drains _ _ _ _ _ _ _ Ho) as [vd0' [Hl0' Hd0]].
  rewrite Hnone in Hd0.
  assert (vd0' = vd0) by congruence. subst vd0'.
  assert (fname = fn) by congruence. subst fn.
  exists fname, vd0. split; [exact Hl0|]. split; [exact H3|].
  split; [congruence|]. split; [simpl; rewrite Hlen; reflexivity|].
  intros [|j] items Hj; simpl in Hj.
  - inversion Hj; subst. rewrite Z.add_0_r.
    exists fname, vd0. split; [exact Hl0|]. split; [exact Hd0|].
    apply (Hitems vd0). exact Hd0.
  - destruct (Hnth j items Hj) as [fnj [vdj [Hl Hd]]].
    cbn [vl_vars vl_volfiles vl_nb_restart_cycle] in Hl, Hd.
    rewrite (vol_file_fileidx _ _ _ _ _ Hf) in Hl.
    rewrite <- Z.add_assoc, np_mod_add_l in Hl. rewrite H2 in Hd.
    exists fnj, vdj. split; [|split; [exact Hd|apply (Hitems vdj); exact Hd]].
    rewrite <- Hl. f_equal. f_equal. lia.
Qed.

End PatchSizeReuse.

Lemma vol_patch_size_fixed_once_witness :
  exists ys v',
    vol_run (Ext := ZWorld "d" growing_volumes) 2 20 growing_args growing_loop
    = Some (ys, inr v')
    /\ vv_patch_size v' = Some [2;2]%nat
    /\ vv_patch_stride v' = StrideAxes [1;1]%nat
    /\ map (fun items => length items)
           (vol_patches (Ext := ZWorld "d" growing_volumes) 2 20 growing_args
                        growing_loop)
       = [1; 9]%nat
    /\ Forall (Forall (fun it => exists p, it = Some p /\ shape p = [1;2;2]%nat))
              (vol_patches (Ext := ZWorld "d" growing_volumes) 2 20 growing_args
                           growing_loop)
    /\ map (@shape Z) ys = repeat [1;2;2]%nat 10.
Proof.
  destruct (vol_run (Ext := ZWorld "d" growing_volumes) 2 20 growing_args growing_loop)
    as [[ys [e|v']]|] eqn:Hrun;
    [vm_compute in Hrun; discriminate| |vm_compute in Hrun; discriminate].
  destruct (vol_patch_size_fixed_once (Ext := ZWorld "d" growing_volumes)
                                      20 1 growing_args growing_loop ys v'
                                      eq_refl Hrun)
    as [fname [vol_data [Hl [H1 [H2 [Hlen Hnth]]]]]].
  vm_compute in Hl. inversion Hl; subst.
  exists ys, v'. split; [reflexivity|]. split; [exact H1|]. split; [exact H2|].
  split; [vm_compute; reflexivity|]. split.
  - apply Forall_forall. intros items Hin.
    apply In_nth_error in Hin. destruct Hin as [j Hj].
    destruct (Hnth j items Hj) as [fnj [vdj [_ [_ Hsh]]]].
    apply Hsh; reflexivity.
  - vm_compute in Hrun. inversion Hrun. reflexivity.
Defined.

(** ** Samples at file boundaries *)
Section FeatureBoundaries.
Context {A : Type} `{Ext : Externals A}.

Lemma rows_spec (R n : nat) :
  forall fuel (l : list A),
    (1 <= n)%nat -> length l = (R * n)%nat -> (R <= fuel)%nat ->
    rows fuel n l = map (fun r => firstn n (skipn (r * n) l)) (seq 0 R).
Proof.
  induction R as [|R IH]; intros fuel l Hn Hlen Hf.
  - simpl in Hlen. apply length_zero_iff_nil in Hlen. subst.
    destruct fuel; reflexivity.
  - destruct fuel as [|f]; [lia|].
    destruct l as [|x l]; [simpl in Hlen; lia|].
    cbn [rows]. rewrite (IH f (skipn n (x :: l))); [|lia| |lia].
    + cbn [seq map]. f_equal. rewrite <- seq_shift, map_map.
      apply map_ext. intros r. rewrite skipn_skipn.
      replace (r * n + n)%nat with (S r * n)%nat by lia. reflexivity.
    + rewrite length_skipn. lia.
Qed.

Lemma interleave_map {X} (f g : X -> list A) (l : list X) :
  interleave (map f l) (map g l) = flat_map (fun r => f r ++ g r) l.
Proof.
  induction l as [|r l IH]; simpl; [reflexivity|].
  rewrite IH, app_assoc. reflexivity.
Qed.

(** [np.concatenate] along the last axis joins the arrays row by row. *)
Lemma concatenate_last_rows (a b : ndarray A) (R : nat) :
  (1 <= last (shape a) 1%nat)%nat -> (1 <= last (shape b) 1%nat)%nat ->
  length (data a) = (R * last (shape a) 1%nat)%nat ->
  length (data b) = (R * last (shape b) 1%nat)%nat ->
  shape (concatenate_last a b)
  = removelast (shape a) ++ [(last (shape a) 1%nat + last (shape b) 1%nat)%nat]
  /\ data (concatenate_last a b)
     = join_rows R (last (shape a) 1%nat) (last (shape b) 1%nat) (data a) (data b).
Proof.
  intros Ha Hb Hla Hlb. split; [reflexivity|].
  unfold concatenate_last, join_rows. cbn [data].
  rewrite (rows_spec R (last (shape a) 1%nat)) by nia.
  rewrite (rows_spec R (last (shape b) 1%nat)) by nia.
  apply interleave_map.
Qed.

Lemma nth_error_middle {X} (L : list X) p q T :
  nth_error (L ++ p :: q :: T) (length L) = Some p
  /\ nth_error (L ++ p :: q :: T) (S (length L)) = Some q.
Proof.
  split.
  - rewrite nth_error_app2 by lia. rewrite Nat.sub_diag. reflexivity.
  - rewrite nth_error_app2 by lia.
    replace (S (length L) - length L)%nat with 1%nat by lia. reflexivity.
Qed.

(** The last element of one list and the first of the next sit side by
    side in the concatenation, at the end of the prefix. *)
Lemma concat_boundary {X} (pf : list (list X)) j pre p q post :
  nth_error pf j = Some (pre ++ [p]) ->
  nth_error pf (S j) = Some (q :: post) ->
  (1 <= length (concat (firstn (S j) pf)))%nat
  /\ nth_error (concat pf) (length (concat (firstn (S j) pf)) - 1) = Some p
  /\ nth_error (concat pf) (length (concat (firstn (S j) pf))) = Some q.
Proof.
  intros Hj Hsj.
  destruct (nth_error_split _ _ Hj) as [l1 [l2 [Hpf Hlen]]]. subst pf.
  assert (Hl2 : exists l3, l2 = (q :: post) :: l3).
  { rewrite nth_error_app2 in Hsj by lia.
    replace (S j - length l1)%nat with 1%nat in Hsj by lia.
    simpl in Hsj. destruct l2 as [|x l3]; [discriminate|].
    inversion Hsj; subst. eauto. }
  destruct Hl2 as [l3 ->].
  assert (Hfirst : firstn (S j) (l1 ++ (pre ++ [p]) :: (q :: post) :: l3)
                   = l1 ++ [pre ++ [p]]).
  { rewrite firstn_app. replace (S j - length l1)%nat with 1%nat by lia.
    rewrite firstn_all2 by lia. reflexivity. }
  rewrite Hfirst. rewrite !concat_app. cbn [concat]. rewrite !app_nil_r.
  assert (Hc : concat l1 ++ (pre ++ [p]) ++ (q :: post) ++ concat l3
               = (concat l1 ++ pre) ++ p :: q :: (post ++ concat l3)).
  { rewrite <- !app_assoc. reflexivity. }
  rewrite Hc.
  assert (He : length (concat l1 ++ pre ++ [p]) = S (length (concat l1 ++ pre))).
  { rewrite !length_app. simpl. lia. }
  rewrite He. split; [lia|].
  replace (S (length (concat l1 ++ pre)) - 1)%nat with (length (concat l1 ++ pre))
    by lia.
  apply nth_error_middle.
Qed.

Lemma group_at_holds k (g : list (ndarray A)) i x :
  (1 <= k)%nat -> nth_error g i = Some x -> In x (group_at k g (i / k)).
Proof.
  intros Hk Hi. unfold group_at.
  pose proof (Nat.div_mod_eq i k) as Hd.
  pose proof (Nat.mod_upper_bound i k ltac:(lia)) as Hu.
  apply nth_error_In with (n := (i mod k)%nat).
  rewrite nth_error_firstn.
  destruct (Nat.ltb_spec (i mod k) k); [|lia].
  rewrite nth_error_skipn. rewrite <- Hi. f_equal. nia.
Qed.

(** A successful iteration pulled at least one patch. *)
Lemma vol_file_patches_nonempty fuel (args : VolArgs A) l ys v' fname v1 items stop :
  vol_file fuel args l = Some (ys, inr v') ->
  vol_open fuel args l = Some (inr (fname, v1, items, stop)) ->
  patches_of items <> [].
Proof.
  intros Hf Ho. unfold vol_file in Hf. rewrite Ho in Hf.
  destruct (vol_for args (vl_nb_restart_cycle l) fname v1 items) as [ys1 r] eqn:Hfor.
  destruct items as [|[p|] items].
  - destruct r as [e|v2]; [discriminate|]. cbn [bind] in Hf.
    destruct stop; discriminate.
  - simpl. discriminate.
  - cbn [vol_for vol_body] in Hfor. inversion Hfor; subst. discriminate.
Qed.

Lemma vol_patches_nonempty n :
  forall fuel (args : VolArgs A) l ys v',
    vol_run n fuel args l = Some (ys, inr v') ->
    Forall (fun items => patches_of items <> []) (vol_patches n fuel args l).
Proof.
  induction n as [|n IH]; intros fuel args l ys v' H.
  - constructor.
  - cbn [vol_run vol_patches] in *.
    destruct (vol_file fuel args l) as [[ys1 [e|v1]]|] eqn:Hf; try discriminate.
    destruct (vol_file_ok _ _ _ _ _ Hf) as [fname [v0 [items0 [Ho _]]]].
    rewrite Ho.
    match type of H with
    | context [match ?r with _ => _ end] => destruct r as [[ys2 r2]|] eqn:Hr
    end; [|discriminate].
    inversion H; subst. constructor.
    + eapply vol_file_patches_nonempty; eauto.
    + eapply IH. exact Hr.
Qed.

Lemma py_index_in_range {X} (l : list X) (i : Z) :
  0 <= i < Z.of_nat (length l) -> py_index l i = match nth_error l (Z.to_nat i) with
                                                 | Some x => inr x
                                                 | None => inl IndexError
                                                 end.
Proof.
  intros Hi. unfold py_index.
  destruct (Z.ltb_spec i 0); [lia|].
  destruct (Z.ltb_spec i 0); [lia|].
  destruct (Z.leb_spec (Z.of_nat (length l)) i); [lia|].
  reflexivity.
Qed.

(** With a restart cycle of at least two entries of a duplicate-free file
    list, consecutive cycle positions hold different names. *)
Lemma consecutive_names_differ (volfiles : list string) (c a : Z) f1 f2 :
  2 <= c <= Z.of_nat (length volfiles) ->
  NoDup volfiles ->
  py_index volfiles (np_mod a c) = inr f1 ->
  py_index volfiles (np_mod (a + 1) c) = inr f2 ->
  f1 <> f2.
Proof.
  intros Hc Hnd H1 H2 E. subst f2.
  assert (Hne : np_mod (a + 1) c <> np_mod a c).
  { rewrite <- np_mod_add_l. apply next_file_differs. lia. }
  assert (Hb : forall x, 0 <= np_mod x c < c).
  { intros x. unfold np_mod. destruct (Z.eqb_spec c 0); [lia|].
    apply Z.mod_pos_bound. lia. }
  pose proof (Hb a) as Ha. pose proof (Hb (a + 1)) as Ha1.
  rewrite py_index_in_range in H1, H2 by lia.
  destruct (nth_error volfiles (Z.to_nat (np_mod a c))) as [x|] eqn:E1;
    [|discriminate].
  destruct (nth_error volfiles (Z.to_nat (np_mod (a + 1) c))) as [y|] eqn:E2;
    [|discriminate].
  inversion H1; inversion H2; subst.
  apply Hne. apply Z2Nat.inj; try lia.
  symmetry. eapply (proj1 (NoDup_nth_error volfiles) Hnd); [lia|].
  rewrite E1, E2. reflexivity.
Qed.

(** C10 (amended).  With [nb_feats = k >= 1], run [vol] for [n] files from
    its initial variables.  The feature counter ends at the total number of
    patches of all files (it is never reset); the yielded batches stack, in
    order, the complete samples of the global patch sequence, sample [m]
    being the concatenation along the last axis, row by row, of the patches
    [m*k, ..., m*k + k - 1]; every file whose number of patches is not a
    multiple of [k] has a boundary that falls inside a sample; at every
    boundary between two iterations that falls inside a sample, that sample
    holds the last patch of the earlier iteration and the first patch of the
    later one; and the two iterations open different files when the restart
    cycle covers at least two entries of a duplicate-free file list. *)
Theorem vol_feature_groups (args : VolArgs A) (n fuel : nat) (l : VolLoop A)
        ys v' (k : nat) :
  va_nb_feats args = Z.of_nat k -> (1 <= k)%nat ->
  vv_feat_idx (vl_vars l) = 0 -> vv_batch_idx (vl_vars l) = -1 ->
  vol_run n fuel args l = Some (ys, inr v') ->
  let per_file := map patches_of (vol_patches n fuel args l) in
  let g := concat per_file in
  length per_file = n
  /\ vv_feat_idx v' = Z.of_nat (length g)
  /\ vol_inv k g ys v'
  /\ (forall a b R,
         (1 <= last (shape a) 1%nat)%nat -> (1 <= last (shape b) 1%nat)%nat ->
         length (data a) = (R * last (shape a) 1%nat)%nat ->
         length (data b) = (R * last (shape b) 1%nat)%nat ->
         data (concatenate_last (A := A) a b)
         = join_rows R (last (shape a) 1%nat) (last (shape b) 1%nat) (data a) (data b))
  /\ (forall j, (j < n)%nat ->
                (length (nth j per_file []) mod k)%nat <> 0%nat ->
                straddles k (length (concat (firstn j per_file)))
                          (length (nth j per_file [])))
  /\ (forall j, (S j < n)%nat ->
                let e := length (concat (firstn (S j) per_file)) in
                (e mod k)%nat <> 0%nat ->
                exists pre p q post,
                  nth j per_file [] = pre ++ [p]
                  /\ nth (S j) per_file [] = q :: post
                  /\ In p (group_at k g (e / k))
                  /\ In q (group_at k g (e / k))
                  /\ ((e / k * k + k <= length g)%nat ->
                      In (concat_feats (group_at k g (e / k))) (samples k g)))
  /\ (2 <= vl_nb_restart_cycle l <= Z.of_nat (length (vl_volfiles l)) ->
      NoDup (vl_volfiles l) ->
      forall j f1 f2,
        nth_error (vol_opened n fuel args l) j = Some f1 ->
        nth_error (vol_opened n fuel args l) (S j) = Some f2 ->
        f1 <> f2).
Proof.
  intros Hnf Hk Hf0 Hb0 Hrun per_file g.
  assert (Hinit : vol_inv k [] [] (vl_vars l)).
  { split.
    - split; [exact Hf0|]. simpl length. rewrite Nat.Div0.mod_0_l. congruence.
    - exists [], []. repeat split; auto.
      + unfold samples. simpl length. rewrite Nat.Div0.div_0_l. reflexivity.
      + congruence. }
  destruct (vol_run_inv n fuel args l k ys v' [] [] Hnf Hk Hinit Hrun) as [Hlen Hinv].
  simpl in Hinv.
  assert (Hlen' : length per_file = n)
    by (unfold per_file; rewrite length_map; exact Hlen).
  split; [exact Hlen'|].
  split; [exact (proj1 (proj1 Hinv))|]. split; [exact Hinv|].
  split; [intros a b R Ha Hb Hla Hlb;
          apply (concatenate_last_rows a b R Ha Hb Hla Hlb)|].
  split; [intros j Hj Hmod; apply straddles_boundary; auto|].
  split.
  - intros j Hj e He.
    assert (Hne : Forall (fun ps => ps <> []) per_file).
    { unfold per_file. rewrite Forall_map.
      eapply vol_patches_nonempty. exact Hrun. }
    rewrite Forall_forall in Hne.
    assert (Hjl : (j < length per_file)%nat) by lia.
    assert (Hsjl : (S j < length per_file)%nat) by lia.
    assert (Hj0 : exists pre p, nth j per_file [] = pre ++ [p]).
    { destruct (exists_last (Hne (nth j per_file []) (nth_In per_file [] Hjl)))
        as [pre [p Hp]]. eauto. }
    assert (Hj1 : exists q post, nth (S j) per_file [] = q :: post).
    { pose proof (Hne (nth (S j) per_file []) (nth_In per_file [] Hsjl)) as Hn.
      destruct (nth (S j) per_file []) as [|q post]; [congruence|eauto]. }
    destruct Hj0 as [pre [p Hp]]. destruct Hj1 as [q [post Hq]].
    assert (Hnj : nth_error per_file j = Some (pre ++ [p])).
    { rewrite <- Hp. apply nth_error_nth'. lia. }
    assert (Hnsj : nth_error per_file (S j) = Some (q :: post)).
    { rewrite <- Hq. apply nth_error_nth'. lia. }
    destruct (concat_boundary per_file j pre p q post Hnj Hnsj) as [H1 [Hep Heq]].
    fold e in H1, Hep, Heq. fold g in Hep, Heq.
    assert (Hdiv : ((e - 1) / k = e / k)%nat).
    { destruct e as [|e']; [lia|].
      replace (S e' - 1)%nat with e' by lia. symmetry.
      apply div_succ_same; assumption. }
    exists pre, p, q, post. split; [exact Hp|]. split; [exact Hq|].
    split; [rewrite <- Hdiv; apply group_at_holds; assumption|].
    split; [apply group_at_holds; assumption|].
    intros Hfull. unfold samples. apply in_map_iff.
    exists (e / k)%nat. split; [reflexivity|]. apply in_seq.
    split; [lia|]. simpl.
    assert (Hq1 : (e / k + 1 <= length g / k)%nat).
    { apply Nat.div_le_lower_bound; [lia|]. nia. }
    lia.
  - intros Hc Hnd j f1 f2 H1 H2.
    apply vol_opened_nth in H1. apply vol_opened_nth in H2.
    replace (vv_fileidx (vl_vars l) + 1 + Z.of_nat (S j))
      with (vv_fileidx (vl_vars l) + 1 + Z.of_nat j + 1) in H2 by lia.
    eapply consecutive_names_differ; eauto.
Qed.

End FeatureBoundaries.

(** ** Negotiated sizes *)
Section NegotiatedProperties.
Context {A : Type} `{Ext : Externals A}.



End NegotiatedProperties.

(** ** The further properties on explicit inputs *)

Lemma patch_negative_labels_raises_witness :
  patch_send (Ext := ZMem) 2 None (patch negative_labels_patch)
  = Some (Raised (AssertionError ""))
  /\ gen_drain (Ext := ZMem) 3 (patch negative_labels_patch)
     = Some ([], Some (AssertionError "")).
Proof.
  apply (patch_negative_labels_raises
           (Ext := ZMem) negative_labels_patch 2
           (mk_ndarray [1;2]%nat [0; 1]) [mk_ndarray [1;2]%nat [2; 3]]).
  - vm_compute. reflexivity.
  - vm_compute. discriminate.
  - reflexivity.
  - vm_compute. reflexivity.
  - intros ax H. discriminate.
Defined.

Lemma negotiated_next_raises_type_error_witness :
  exists g,
    patch_send (Ext := ZMem) 2 None (patch (three_patches_negotiated false))
    = Some (Yielded None g)
    /\ patch_send (Ext := ZMem) 2 None g = Some (Raised TypeError).
Proof.
  apply (negotiated_next_raises_type_error
           (Ext := ZMem) (three_patches_negotiated false) 2
           (mk_ndarray [1;2]%nat [0; 1])
           [mk_ndarray [1;2]%nat [2; 3]; mk_ndarray [1;2]%nat [4; 5]]
           (mk_ndarray [1;1;2]%nat [0; 1])).
  - reflexivity.
  - vm_compute. discriminate.
  - vm_compute. reflexivity.
  - vm_compute. reflexivity.
Defined.

Lemma negotiated_nonpositive_size_finite_witness :
  exists g b g',
    patch_send (Ext := ZMem) 2 None (patch (three_patches_negotiated false))
    = Some (Yielded None g)
    /\ patch_send (Ext := ZMem) 2 (Some 0) g = Some (Yielded (Some b) g')
    /\ realized_size b = 3%nat
    /\ forall sent, patch_send (Ext := ZMem) 2 sent g' = Some Stopped.
Proof.
  apply (negotiated_nonpositive_size_finite
           (Ext := ZMem) (three_patches_negotiated false) 2 0).
  - reflexivity.
  - reflexivity.
  - vm_compute. discriminate.
  - vm_compute. lia.
  - unfold preps_ok. vm_compute.
    repeat (constructor; [eexists; reflexivity|]). constructor.
  - lia.
Defined.

Lemma negotiated_nonpositive_size_diverges_witness :
  exists g,
    (forall fuel,
        patch_send (Ext := ZMem) fuel None (patch (three_patches_negotiated true))
        = Some (Yielded None g))
    /\ forall fuel, patch_send (Ext := ZMem) fuel (Some 0) g = None.
Proof.
  apply (negotiated_nonpositive_size_diverges
           (Ext := ZMem) (three_patches_negotiated true) 0).
  - reflexivity.
  - reflexivity.
  - vm_compute. discriminate.
  - vm_compute. lia.
  - unfold preps_ok. vm_compute.
    repeat (constructor; [eexists; reflexivity|]). constructor.
  - lia.
Defined.

Lemma patch_yields_every_patch_once_witness :
  exists batches,
    gen_drain (Ext := ZMem) 7 (patch four_patches_by_three)
    = Some (map Some batches, None)
    /\ concat (map (@data Z) batches)
       = [0; 1; 4; 5; 2; 3; 6; 7; 8; 9; 12; 13; 10; 11; 14; 15].
Proof.
  apply (patch_yields_every_patch_once
           (Ext := ZMem) four_patches_by_three 7 four_prepared).
  - reflexivity.
  - reflexivity.
  - vm_compute. discriminate.
  - vm_compute. lia.
  - unfold prepared. vm_compute. repeat constructor.
  - vm_compute. lia.
Defined.

Lemma patch_infinite_batches_witness :
  exists outs,
    next_each (Ext := ZMem) 5 4 (patch four_patches_infinite) = Some outs
    /\ map outcome_size outs = [Some 3; Some 3; Some 3; Some 3]%nat.
Proof.
  apply (patch_infinite_batches (Ext := ZMem) four_patches_infinite 5 4).
  - reflexivity.
  - reflexivity.
  - vm_compute. split; [discriminate|reflexivity].
  - vm_compute. lia.
  - unfold preps_ok. vm_compute.
    repeat (constructor; [eexists; reflexivity|]). constructor.
Defined.

Lemma vol_file_cycle_witness :
  exists ys v',
    vol_run (Ext := ZWorld "d" two_by_three) 3 20 pairs_args pairs_loop
    = Some (ys, inr v')
    /\ vol_opened (Ext := ZWorld "d" two_by_three) 3 20 pairs_args pairs_loop
       = ["a.npz"; "b.npz"; "a.npz"]
    /\ length (vol_opened (Ext := ZWorld "d" two_by_three) 3 20 pairs_args pairs_loop)
       = 3%nat
    /\ vv_fileidx v' = 0.
Proof.
  destruct (vol_run (Ext := ZWorld "d" two_by_three) 3 20 pairs_args pairs_loop)
    as [[ys [e|v']]|] eqn:Hrun;
    [vm_compute in Hrun; discriminate| |vm_compute in Hrun; discriminate].
  destruct (vol_file_cycle (Ext := ZWorld "d" two_by_three)
                           3 20 pairs_args pairs_loop ys v' Hrun)
    as [Hlen [Hnth [Hidx Hrange]]].
  exists ys, v'. split; [reflexivity|]. split; [vm_compute; reflexivity|].
  split; [exact Hlen|].
  rewrite (Hidx ltac:(lia)). vm_compute. reflexivity.
Defined.

(** The restart cycle of 3 over two files passes the prologue; the third
    iteration raises. *)
Lemma cycle_beyond_files_run :
  option_map snd (vol (Ext := ZWorld "d" two_by_three) beyond_args 3 20)
  = Some (inl IndexError).
Proof. vm_compute. reflexivity. Qed.

Lemma vol_cycle_beyond_files_witness :
  exists ys,
    vol_run (Ext := ZWorld "d" two_by_three) 3 20 beyond_args beyond_loop
    = Some (ys, inl IndexError).
Proof.
  destruct (vol_run (Ext := ZWorld "d" two_by_three) 2 20 beyond_args beyond_loop)
    as [[ys [e|v']]|] eqn:Hrun;
    [vm_compute in Hrun; discriminate| |vm_compute in Hrun; discriminate].
  exists ys.
  apply (vol_cycle_beyond_files (Ext := ZWorld "d" two_by_three)
                                20 beyond_args beyond_loop ys v').
  - reflexivity.
  - vm_compute. reflexivity.
  - exact Hrun.
Defined.

Lemma vol_batch_size_bound_witness :
  exists ys r,
    vol (Ext := ZWorld "d" two_by_three) full_batches_args 2 20 = Some (ys, r)
    /\ length ys = 3%nat
    /\ Forall (fun y => 1 <= Z.of_nat (realized_size y) <= 2) ys
    /\ Forall (fun y => Z.of_nat (realized_size y) = 2) ys.
Proof.
  destruct (vol (Ext := ZWorld "d" two_by_three) full_batches_args 2 20)
    as [[ys r]|] eqn:Hrun; [|vm_compute in Hrun; discriminate].
  destruct (vol_batch_size_bound (Ext := ZWorld "d" two_by_three)
                                 full_batches_args 2 20 ys r)
    as [H1 H2].
  - reflexivity.
  - vm_compute. discriminate.
  - exact Hrun.
  - exists ys, r. split; [reflexivity|]. split.
    + vm_compute in Hrun. inversion Hrun. reflexivity.
    + split; [exact H1|]. apply H2. reflexivity.
Defined.

Lemma vol_no_files_raises_witness :
  vol (Ext := ZWorld "d" two_by_three) mgz_args 2 20
  = Some ([], inl (AssertionError
                     "Could not find any files at d with extension .mgz")).
Proof.
  apply (vol_no_files_raises (Ext := ZWorld "d" two_by_three) mgz_args 2 20).
  - reflexivity.
  - intros pre H.
    assert (E : forall f, In f ["a.npz"; "b.npz"] -> endswith f ".mgz" = false).
    { intros f [<-|[<-|[]]]; reflexivity. }
    specialize (E _ H).
    assert (E' : endswith (pre ++ ".mgz") ".mgz" = true)
      by (apply endswith_spec; exists pre; reflexivity).
    cbn [va_ext mgz_args] in E. congruence.
Defined.

Lemma relabel_last_entry_wins_witness :
  nth_error (data (relabel_vol (Ext := ZMem) [5; 9; 5] sparse_labels)) 1
  = Some 2.
Proof.
  apply (relabel_last_entry_wins (Ext := ZMem) [5; 9; 5] sparse_labels 1 5 2).
  - exact Z.eqb_eq.
  - reflexivity.
  - reflexivity.
  - intros k' Hk'. destruct k' as [|[|[|k']]]; try lia.
    destruct k'; discriminate.
Defined.

Lemma vol_seg_negative_labels_never_yields_witness :
  vol (Ext := ZWorld "d" two_by_three) (vol_seg_seg_args (vol_seg_defaults "d" "d")) 2 2
  = Some ([], inl (AssertionError ""))
  /\ vol_seg_pairs (Ext := ZWorld "d" two_by_three) (fun x => x) (fun x => x)
                   (vol_seg_defaults "d" "d") 2 2
     = Some []
  /\ vol_seg_first (Ext := ZWorld "d" two_by_three) (fun x => x) (fun x => x)
                   (vol_seg_defaults "d" "d") 2 2
     = Some (inl (AssertionError "")).
Proof.
  destruct (vol_seg_negative_labels_never_yields
              (Ext := ZWorld "d" two_by_three) (fun x => x) (fun x => x)
              (vol_seg_defaults "d" "d")
              (mk_VolLoop ["a.npz"; "b.npz"] 2
                          (mk_VolVars (-1) (-1) 0 None (StrideScalar 1) None None))
              "a.npz" (ramp [3;2]%nat 0) (ramp [3;2]%nat 0) [] 1 1)
    as [H1 [H2 H3]].
  - vm_compute. reflexivity.
  - vm_compute. reflexivity.
  - vm_compute. reflexivity.
  - vm_compute. reflexivity.
  - split; [exact H1|]. split.
    + destruct (vol_seg_pairs (Ext := ZWorld "d" two_by_three) (fun x => x)
                              (fun x => x) (vol_seg_defaults "d" "d") 2 2)
        as [pairs|] eqn:Hp; [|vm_compute in Hp; discriminate].
      rewrite (H2 pairs eq_refl). reflexivity.
    + destruct (vol (Ext := ZWorld "d" two_by_three)
                    (vol_seg_vol_args (vol_seg_defaults "d" "d")) 2 2)
        as [[[|x xs] r]|] eqn:Hv;
        [vm_compute in Hv; discriminate| |vm_compute in Hv; discriminate].
      exact (H3 x xs r eq_refl).
Defined.

Lemma seg_seg_flattens_witness :
  seg_seg_pair (ramp [2;2;3;2]%nat 0)
  = inr (ramp [2;2;3;2]%nat 0,
         mk_ndarray [2;6;2]%nat (data (ramp [2;2;3;2]%nat 0))).
Proof.
  apply (seg_seg_flattens (A := Z) (ramp [2;2;3;2]%nat 0) 2%nat 2%nat [3]%nat 2%nat).
  - reflexivity.
  - vm_compute. reflexivity.
Defined.

Lemma vol_seg_prior_coupling_witness :
  vol_seg_prior_patch_args prior_volume None (StrideScalar 1) 1 None = inl TypeError
  /\ exists prior_args outs,
      vol_seg_prior_patch_args prior_volume None (StrideAxes [1;1;1]%nat) 1 None
      = inr prior_args
      /\ vol_seg_prior_batches (Ext := ZMem) 5 prior_args prior_pairs = Some outs
      /\ map outcome_size outs = [Some 2; Some 1]%nat.
Proof.
  destruct (vol_seg_prior_coupling (Ext := ZMem) prior_volume None 1 eq_refl)
    as [H1 H2].
  split; [apply H1|].
  destruct (vol_seg_prior_patch_args prior_volume None (StrideAxes [1;1;1]%nat) 1 None)
    as [e|prior_args] eqn:Hargs; [vm_compute in Hargs; discriminate|].
  destruct (H2 [1;1;1]%nat prior_args 5%nat prior_pairs Hargs) as [outs [Ho Hm]].
  - lia.
  - vm_compute in Hargs. inversion Hargs. vm_compute. lia.
  - repeat constructor.
  - exists prior_args, outs. split; [reflexivity|]. split; [exact Ho|exact Hm].
Defined.

Lemma vol_expected_nb_files_mismatch_witness :
  vol (Ext := ZWorld "d" two_by_three) expecting_three_args 2 20
  = Some ([], inl (AssertionError "number of files do not match: 2, 3")).
Proof.
  apply (vol_expected_nb_files_mismatch
           (Ext := ZWorld "d" two_by_three) expecting_three_args
           "a.npz" ["b.npz"] (ramp [3;2]%nat 0) 2 20).
  - reflexivity.
  - reflexivity.
  - vm_compute. discriminate.
  - vm_compute. discriminate.
  - vm_compute. discriminate.
Defined.

Lemma vol_last_file_flushes_witness :
  exists ys v',
    vol_file (Ext := ZWorld "d" two_by_three) 20 one_file_cycle_args one_file_cycle_loop
    = Some (ys, inr v')
    /\ map realized_size ys = [1; 1; 1]%nat
    /\ vv_batch_idx v' = -1.
Proof.
  destruct (vol_file (Ext := ZWorld "d" two_by_three) 20 one_file_cycle_args
                     one_file_cycle_loop)
    as [[ys [e|v']]|] eqn:Hrun;
    [vm_compute in Hrun; discriminate| |vm_compute in Hrun; discriminate].
  destruct (vol_last_file_flushes (Ext := ZWorld "d" two_by_three)
                                  20 one_file_cycle_args one_file_cycle_loop ys v')
    as [fname [v1 [items [Ho [Hlen [Hidx Hall]]]]]].
  - reflexivity.
  - reflexivity.
  - vm_compute. reflexivity.
  - exact Hrun.
  - exists ys, v'. split; [reflexivity|]. split; [|exact Hidx].
    destruct (Hall eq_refl) as [_ Hsz].
    vm_compute in Ho. inversion Ho; subst items. clear Ho.
    destruct ys as [|y1 [|y2 [|y3 [|y4 ys]]]]; simpl in Hlen; try discriminate.
    inversion Hsz as [|? ? Hs1 Hsz1]; subst.
    inversion Hsz1 as [|? ? Hs2 Hsz2]; subst.
    inversion Hsz2 as [|? ? Hs3 Hsz3]; subst.
    simpl. rewrite Hs1, Hs2, Hs3. reflexivity.
Defined.

Lemma vol_nonpositive_batch_never_yields_witness :
  exists r,
    vol (Ext := ZWorld "d" two_by_three) zero_batch_args 4 20 = Some ([], r).
Proof.
  destruct (vol (Ext := ZWorld "d" two_by_three) zero_batch_args 4 20)
    as [[ys r]|] eqn:Hrun; [|vm_compute in Hrun; discriminate].
  exists r.
  rewrite (vol_nonpositive_batch_never_yields (Ext := ZWorld "d" two_by_three)
                                              zero_batch_args 4 20 ys r);
    [reflexivity| | |exact Hrun].
  - vm_compute. discriminate.
  - reflexivity.
Defined.

Lemma img_seg_streams_cycle_apart_witness :
  py_index ["a.png"; "b.png"; "c.png"] (np_mod 2 2) = inr "a.png"
  /\ py_index ["a.png"; "b.png"; "c.png"] (np_mod 2 3) = inr "c.png".
Proof.
  apply (img_seg_streams_cycle_apart ["a.png"; "b.png"; "c.png"]
                                     ["a.png"; "b.png"; "c.png"] 2 4 2
                                     "a.png" "c.png").
  - reflexivity.
  - reflexivity.
Defined.

Lemma vol_feature_groups_witness :
  exists ys v',
    vol_run (Ext := ZWorld "d" two_by_three) 2 20 pairs_args pairs_loop
    = Some (ys, inr v')
    /\ vv_feat_idx v' = 6
    /\ map (@data Z) ys = [[0; 1; 2; 3]; [4; 5; 100; 101]; [102; 103; 104; 105]]
    /\ straddles 2 0 3
    /\ (exists p q,
           data p = [4; 5] /\ data q = [100; 101]
           /\ In p (group_at 2
                             (concat (map patches_of
                                          (vol_patches (Ext := ZWorld "d" two_by_three)
                                                       2 20 pairs_args pairs_loop)))
                             1)
           /\ In q (group_at 2
                             (concat (map patches_of
                                          (vol_patches (Ext := ZWorld "d" two_by_three)
                                                       2 20 pairs_args pairs_loop)))
                             1))
    /\ vol_opened (Ext := ZWorld "d" two_by_three) 2 20 pairs_args pairs_loop
       = ["a.npz"; "b.npz"]
    /\ forall f1 f2,
        nth_error (vol_opened (Ext := ZWorld "d" two_by_three) 2 20 pairs_args
                              pairs_loop) 0 = Some f1 ->
        nth_error (vol_opened (Ext := ZWorld "d" two_by_three) 2 20 pairs_args
                              pairs_loop) 1 = Some f2 ->
        f1 <> f2.
Proof.
  destruct (vol_run (Ext := ZWorld "d" two_by_three) 2 20 pairs_args pairs_loop)
    as [[ys [e|v']]|] eqn:Hrun;
    [vm_compute in Hrun; discriminate| |vm_compute in Hrun; discriminate].
  destruct (vol_feature_groups (Ext := ZWorld "d" two_by_three)
                               pairs_args 2 20 pairs_loop ys v' 2
                               eq_refl ltac:(lia) eq_refl eq_refl Hrun)
    as [Hlen [Hfeat [Hinv [Hcat [Hstr [Hbound Hdiff]]]]]].
  exists ys, v'. split; [reflexivity|]. split; [vm_compute in Hfeat; exact Hfeat|].
  split; [vm_compute in Hrun; inversion Hrun; reflexivity|]. split; [|split; [|split]].
  - assert (Hmod : (length (nth 0 (map patches_of
                                       (vol_patches (Ext := ZWorld "d" two_by_three)
                                                    2 20 pairs_args pairs_loop))
                                [])
                    mod 2)%nat <> 0%nat)
      by (vm_compute; discriminate).
    pose proof (Hstr 0%nat ltac:(lia) Hmod) as Hs.
    vm_compute in Hs. exact Hs.
  - assert (Hmod : (length (concat (firstn 1 (map patches_of
                                       (vol_patches (Ext := ZWorld "d" two_by_three)
                                                    2 20 pairs_args pairs_loop))))
                    mod 2)%nat <> 0%nat)
      by (vm_compute; discriminate).
    destruct (Hbound 0%nat ltac:(lia) Hmod)
      as [pre [p [q [post [Hp [Hq [Hip [Hiq _]]]]]]]].
    assert (He : (length (concat (firstn 1 (map patches_of
                                   (vol_patches (Ext := ZWorld "d" two_by_three)
                                                2 20 pairs_args pairs_loop))))
                  / 2)%nat = 1%nat) by (vm_compute; reflexivity).
    rewrite He in Hip, Hiq.
    exists p, q. split; [|split; [|split; [exact Hip|exact Hiq]]].
    + vm_compute in Hp.
      change [mk_ndarray [1; 1; 2]%nat [0; 1]; mk_ndarray [1; 1; 2]%nat [2; 3];
              mk_ndarray [1; 1; 2]%nat [4; 5]]
        with ([mk_ndarray [1; 1; 2]%nat [0; 1]; mk_ndarray [1; 1; 2]%nat [2; 3]]
                ++ [mk_ndarray [1; 1; 2]%nat [4; 5]]) in Hp.
      apply app_inj_tail in Hp. destruct Hp as [_ <-]. reflexivity.
    + vm_compute in Hq. inversion Hq. reflexivity.
  - vm_compute. reflexivity.
  - intros f1 f2 H1 H2.
    apply (Hdiff ltac:(vm_compute; split; discriminate)
                 ltac:(repeat constructor; simpl; intuition discriminate)
                 0%nat f1 f2 H1 H2).
Defined.

(** C10 as stated fails when the cycle has one file: the volume has three
    patches, not a multiple of 2, and the second sample joins its last
    patch with its own first patch; both iterations open the same file. *)
Lemma vol_feature_groups_counterexample :
  vol_init (Ext := ZWorld "d" one_by_three) pairs_args = inr single_loop
  /\ map (fun items => length (patches_of items))
         (vol_patches (Ext := ZWorld "d" one_by_three) 2 20 pairs_args single_loop)
     = [3; 3]%nat
  /\ (3 mod 2)%nat <> 0%nat
  /\ option_map (fun r => map (@data Z) (fst r))
                (vol (Ext := ZWorld "d" one_by_three) pairs_args 2 20)
     = Some [[0; 1; 2; 3]; [4; 5; 0; 1]; [2; 3; 4; 5]]
  /\ vol_opened (Ext := ZWorld "d" one_by_three) 2 20 pairs_args single_loop
     = ["a.npz"; "a.npz"].
Proof.
  split; [vm_compute; reflexivity|]. split; [vm_compute; reflexivity|].
  split; [vm_compute; discriminate|]. split; vm_compute; reflexivity.
Qed.


(** C3 as stated fails when a patch does not pass the preparation: with
    [nb_labels_reshape = -1] a grid of two patches and batch size 1 gives
    no batch at all, the first pull raising [AssertionError]. *)
Lemma patch_finite_batches_counterexample :
  length (new_gen negative_labels_patch) = 2%nat
  /\ pa_batch_size negative_labels_patch = 1
  /\ pa_variable_batch_size negative_labels_patch = false
  /\ pa_infinite negative_labels_patch = false
  /\ gen_drain (Ext := ZMem) 7 (patch negative_labels_patch)
     = Some ([], Some (AssertionError ""))
  /\ forall batches,
      gen_drain (Ext := ZMem) 7 (patch negative_labels_patch)
      <> Some (map Some batches, None).
Proof.
  repeat split; try (vm_compute; reflexivity).
  intros batches H.
  assert (E : gen_drain (Ext := ZMem) 7 (patch negative_labels_patch)
              = Some ([], Some (AssertionError ""))) by (vm_compute; reflexivity).
  rewrite E in H. discriminate.
Qed.
